(** * Olive frame hash cache: a shallow embedding of
    [app/render/framehashcache.cpp] and the properties of its hash index,
    its edit events, its grid expansion, its cache path and its saving of
    frames; and of the footage combo box of
    [app/widget/footagecombobox/footagecombobox.cpp]. *)

From Stdlib Require Import List Bool ZArith QArith Qcanon Qround Lia Lqa.
From Stdlib Require Import Strings.String Strings.Ascii Strings.Byte.
From Stdlib Require Import Sorting.Sorted Sorting.Permutation.
Import ListNotations.

Set Implicit Arguments.

(** ** Timestamps

    [rational] is the exact rational clock of the editor.  Its values are
    kept in lowest terms, so that [operator==] is structural equality; this
    is the canonical rational type [Qc]. *)

Definition rational := Qc.

(** [rational(n)] and [rational(n, d)]; [rational()] is zero. *)
Definition rat_of_Z (n : Z) : rational := Q2Qc (inject_Z n).
Definition rat (n : Z) (d : positive) : rational := Q2Qc (n # d).

Definition rat_lt (x y : rational) : bool :=
  match (x ?= y)%Qc with Lt => true | _ => false end.

Definition rat_gt (x y : rational) : bool := rat_lt y x.

Definition rat_ge (x y : rational) : bool := negb (rat_lt x y).

Definition rat_le (x y : rational) : bool := negb (rat_lt y x).

Definition rat_eq (x y : rational) : bool :=
  match (x ?= y)%Qc with Eq => true | _ => false end.

(** ** Content hashes and the hash index

    A content hash is a [QByteArray].  The index [time_hash_map_] is a
    [QMap<rational, QByteArray>]: an ordered map, iterated by ascending key
    and holding each key at most once.  It is represented by the list of its
    entries in iteration order. *)

Definition QByteArray := list byte.

Fixpoint QByteArray_eqb (a b : QByteArray) : bool :=
  match a, b with
  | [], [] => true
  | x :: a', y :: b' => Byte.eqb x y && QByteArray_eqb a' b'
  | _, _ => false
  end.

Definition QMap := list (rational * QByteArray).

Definition QMap_keys (m : QMap) : list rational := map fst m.

(** The representation invariant of a [QMap]: keys strictly ascending. *)
Definition QMap_ok (m : QMap) : Prop := StronglySorted Qclt (QMap_keys m).

Fixpoint QMap_find (m : QMap) (k : rational) : option QByteArray :=
  match m with
  | [] => None
  | (k', v) :: m' => if rat_eq k' k then Some v else QMap_find m' k
  end.

(** [QMap::value(key)]: the stored value, or a default-constructed (empty)
    byte array when the key is absent. *)
Definition QMap_value (m : QMap) (k : rational) : QByteArray :=
  match QMap_find m k with
  | Some v => v
  | None => []
  end.

(** [QMap::insert(key, value)]: replaces the value of an existing key. *)
Fixpoint QMap_insert (m : QMap) (k : rational) (v : QByteArray) : QMap :=
  match m with
  | [] => [(k, v)]
  | (k', v') :: m' =>
      if rat_lt k k' then (k, v) :: (k', v') :: m'
      else if rat_lt k' k then (k', v') :: QMap_insert m' k v
      else (k, v) :: m'
  end.

(** ** Time ranges and jobs *)

(** Modelled from the spec: the class [TimeRange] (common/timerange.h), a
    half-open range [[in, out)] over timestamps, is not part of the sources
    at hand. *)
Record TimeRange : Type := mkTimeRange { in_ : rational; out_ : rational }.

(** Modelled from the spec: [TimeRange::Contains(const rational&)], membership
    in the half-open range. *)
Definition Contains (r : TimeRange) (t : rational) : bool :=
  rat_ge t (in_ r) && rat_lt t (out_ r).

Definition TimeRangeList := list TimeRange.

(** A job of the ledger: [job_time] is a [qint64], compared but never
    computed with. *)
Record JobIdentifier : Type := mkJobIdentifier { range : TimeRange; job_time : Z }.

(** ** The cache object and what its member functions do to the outside

    The trace of a call lists, in program order, the mutations of the index,
    the calls into the validity ledger of the base class, the release of the
    mutex and the signals emitted. *)

Record FrameHashCache : Type := mkFrameHashCache {
  time_hash_map_ : QMap;
  jobs_ : list JobIdentifier;
  timebase_ : rational
}.

Definition set_time_hash_map (c : FrameHashCache) (m : QMap) : FrameHashCache :=
  mkFrameHashCache m (jobs_ c) (timebase_ c).

(** Modelled from the spec: [NoLockValidate] and [NoLockInvalidate] belong to
    the base class (the Validity Ledger), an external primitive; a call to
    them is recorded, not interpreted. *)
Inductive Effect : Type :=
| MapInsert (k : rational) (v : QByteArray)
| MapErase (k : rational)
| NoLockValidate (r : TimeRange)
| NoLockInvalidate (r : TimeRange)
| Unlock
| EmitValidated (r : TimeRange)
| EmitInvalidated (r : TimeRange).

Definition is_map_effect (e : Effect) : bool :=
  match e with
  | MapInsert _ _ | MapErase _ => true
  | _ => false
  end.

Definition GetHash (c : FrameHashCache) (t : rational) : QByteArray :=
  QMap_value (time_hash_map_ c) t.

(** The loop of [SetHash]: indices [n-1] down to [0] of [jobs_]. *)
Fixpoint SetHash_scan (jobs : list JobIdentifier) (n : nat)
    (t : rational) (jt : Z) : bool :=
  match n with
  | O => false
  | S i =>
      match nth_error jobs i with
      | Some job =>
          if Contains (range job) t && (jt >=? job_time job)%Z then true
          else SetHash_scan jobs i t jt
      | None => false
      end
  end.

Definition SetHash (c : FrameHashCache) (t : rational) (h : QByteArray) (jt : Z)
    : FrameHashCache * list Effect :=
  let is_current := SetHash_scan (jobs_ c) (List.length (jobs_ c)) t jt in
  if negb is_current then (c, [])
  else
    let validated_range := mkTimeRange t (t + timebase_ c)%Qc in
    (set_time_hash_map c (QMap_insert (time_hash_map_ c) t h),
     [MapInsert t h; NoLockValidate validated_range; Unlock;
      EmitValidated validated_range]).

Fixpoint GetFramesWithHash_loop (h : QByteArray) (m : QMap) : list rational :=
  match m with
  | [] => []
  | (k, v) :: rest =>
      if QByteArray_eqb v h then k :: GetFramesWithHash_loop h rest
      else GetFramesWithHash_loop h rest
  end.

(** The erase loop of [TakeFramesWithHash]: the map left, [times], and the
    erasures made. *)
Fixpoint TakeFramesWithHash_loop (h : QByteArray) (m : QMap)
    : QMap * list rational * list Effect :=
  match m with
  | [] => ([], [], [])
  | (k, v) :: rest =>
      let '(m', times, tr) := TakeFramesWithHash_loop h rest in
      if QByteArray_eqb v h then (m', k :: times, MapErase k :: tr)
      else ((k, v) :: m', times, tr)
  end.

Definition TakeFramesWithHash (c : FrameHashCache) (h : QByteArray)
    : FrameHashCache * list Effect * list rational :=
  let '(m', times, tr) := TakeFramesWithHash_loop h (time_hash_map_ c) in
  let sample := fun r => mkTimeRange r (r + timebase_ c)%Qc in
  (set_time_hash_map c m',
   tr
   ++ map (fun r => NoLockInvalidate (sample r)) times
   ++ [Unlock]
   ++ map (fun r => EmitInvalidated (sample r)) times,
   times).

(** ** The edit events

    Each loop walks the map by ascending key; it yields the map left and the
    mutations made, in their order. *)

Fixpoint LengthChangedEvent_loop (newlen : rational) (m : QMap) : QMap * list Effect :=
  match m with
  | [] => ([], [])
  | (k, v) :: rest =>
      let (m', tr) := LengthChangedEvent_loop newlen rest in
      if rat_ge k newlen then (m', MapErase k :: tr)
      else ((k, v) :: m', tr)
  end.

Definition LengthChangedEvent (old newlen : rational) (m : QMap) : QMap * list Effect :=
  if rat_lt newlen old then LengthChangedEvent_loop newlen m else (m, []).

Fixpoint InvalidateEvent (r : TimeRange) (m : QMap) : QMap * list Effect :=
  match m with
  | [] => ([], [])
  | (k, v) :: rest =>
      let (m', tr) := InvalidateEvent r rest in
      if rat_ge k (in_ r) && rat_lt k (out_ r) then (m', MapErase k :: tr)
      else ((k, v) :: m', tr)
  end.

Record HashTimePair : Type := mkHashTimePair { time : rational; hash : QByteArray }.

(** The scan of [ShiftEvent]: the entries left in the map, the list
    [shifted_times] in the order in which it was appended to, and the
    erasures made. *)
Fixpoint ShiftEvent_scan (diff_is_negative : bool) (from to diff : rational)
    (m : QMap) : QMap * list HashTimePair * list Effect :=
  match m with
  | [] => ([], [], [])
  | (k, v) :: rest =>
      let '(kept, shifted_times, tr) :=
        ShiftEvent_scan diff_is_negative from to diff rest in
      if diff_is_negative && rat_ge k to && rat_lt k from then
        (kept, shifted_times, MapErase k :: tr)
      else if rat_ge k from then
        (kept, mkHashTimePair (k + diff)%Qc v :: shifted_times, MapErase k :: tr)
      else
        ((k, v) :: kept, shifted_times, tr)
  end.

(** The [foreach] that puts the shifted entries back. *)
Definition ShiftEvent_reinsert (m : QMap) (shifted_times : list HashTimePair) : QMap :=
  fold_left (fun acc p => QMap_insert acc (time p) (hash p)) shifted_times m.

Definition ShiftEvent (from to : rational) (m : QMap) : QMap * list Effect :=
  let diff := (to - from)%Qc in
  let diff_is_negative := rat_lt diff (rat_of_Z 0) in
  let '(kept, shifted_times, tr) :=
    ShiftEvent_scan diff_is_negative from to diff m in
  (ShiftEvent_reinsert kept shifted_times,
   tr ++ map (fun p => MapInsert (time p) (hash p)) shifted_times).

(** [InvalidateEvent] as a member function of the cache. *)
Definition FrameHashCache_InvalidateEvent (c : FrameHashCache) (r : TimeRange)
    : FrameHashCache * list Effect :=
  let (m', tr) := InvalidateEvent r (time_hash_map_ c) in
  (set_time_hash_map c m', tr).

(** ** Grid expansion *)

(** [qRound64]: to the nearest integer, a half away from zero. *)
Definition qRound64 (x : Q) : Z :=
  if Qle_bool 0 x then Qfloor (x + (1 # 2)) else Qceiling (x - (1 # 2)).

(** Modelled from the spec: [Timecode::snap_time_to_timebase]
    (common/timecodefunctions.cpp) is not part of the sources at hand; it
    snaps a time to the nearest instant of the grid of multiples of the
    timebase, in exact arithmetic. *)
Definition snap_time_to_timebase (t timebase : rational) : rational :=
  (rat_of_Z (qRound64 (this (t / timebase)%Qc)) * timebase)%Qc.

(** Modelled from the spec: [TimeRangeList::RemoveTimeRange]
    (common/timerange.cpp) is not part of the sources at hand; it subtracts a
    range from every range of the list, which consumes a range lying inside
    the removed one, splits a range that strictly contains it and shrinks a
    range that overlaps one of its ends. *)
Definition TimeRange_subtract (compare remove : TimeRange) : list TimeRange :=
  if rat_ge (in_ compare) (in_ remove) && rat_le (out_ compare) (out_ remove) then
    []
  else if rat_lt (in_ compare) (in_ remove) && rat_lt (out_ remove) (out_ compare) then
    [mkTimeRange (in_ compare) (in_ remove); mkTimeRange (out_ remove) (out_ compare)]
  else if rat_lt (in_ compare) (in_ remove) && rat_lt (in_ remove) (out_ compare) then
    [mkTimeRange (in_ compare) (in_ remove)]
  else if rat_lt (in_ compare) (out_ remove) && rat_lt (out_ remove) (out_ compare) then
    [mkTimeRange (out_ remove) (out_ compare)]
  else
    [compare].

Definition RemoveTimeRange (l : TimeRangeList) (remove : TimeRange) : TimeRangeList :=
  flat_map (fun compare => TimeRange_subtract compare remove) l.

(** One turn of the loop body: the sample selected for a range start and the
    next boundary. *)
Definition select_sample (t timebase : rational) : rational * rational :=
  let snapped := snap_time_to_timebase t timebase in
  if rat_gt snapped t then ((snapped - timebase)%Qc, snapped)
  else (snapped, (snapped + timebase)%Qc).

(** The [while] loop has no bound of its own: [fuel] counts its turns, and
    [None] is a run that has not ended within [fuel] turns. *)
Fixpoint GetFrameListFromTimeRange (fuel : nat) (range_list : TimeRangeList)
    (timebase : rational) : option (list rational) :=
  match range_list with
  | [] => Some []
  | range0 :: _ =>
      match fuel with
      | O => None
      | S fuel' =>
          let (snapped, next) := select_sample (in_ range0) timebase in
          match GetFrameListFromTimeRange fuel'
                  (RemoveTimeRange range_list (mkTimeRange snapped next)) timebase with
          | Some times => Some (snapped :: times)
          | None => None
          end
      end
  end.

(** ** The cache path *)

Inductive Format : Type :=
| PIX_FMT_INVALID
| PIX_FMT_RGB8 | PIX_FMT_RGBA8 | PIX_FMT_RGB16U | PIX_FMT_RGBA16U
| PIX_FMT_RGB16F | PIX_FMT_RGBA16F | PIX_FMT_RGB32F | PIX_FMT_RGBA32F
| PIX_FMT_COUNT.

(** Modelled from the spec: [PixelFormat::FormatIsFloat] (render/pixelformat.cpp)
    is not part of the sources at hand; the floating-point formats are the
    half and full precision ones, with or without alpha. *)
Definition FormatIsFloat (f : Format) : bool :=
  match f with
  | PIX_FMT_RGB16F | PIX_FMT_RGBA16F | PIX_FMT_RGB32F | PIX_FMT_RGBA32F => true
  | _ => false
  end.

(** The integer formats, as [SaveCacheFrame] groups them. *)
Definition FormatIsInteger (f : Format) : bool :=
  match f with
  | PIX_FMT_RGB8 | PIX_FMT_RGBA8 | PIX_FMT_RGB16U | PIX_FMT_RGBA16U => true
  | _ => false
  end.

Definition GetFormatExtension (f : Format) : string :=
  if FormatIsFloat f then ".exr"%string else ".jpg"%string.

Definition hex_digits : list ascii :=
  ["0"; "1"; "2"; "3"; "4"; "5"; "6"; "7"; "8"; "9"; "a"; "b"; "c"; "d"; "e"; "f"]%char.

Definition hex_digit (n : N) : ascii := nth (N.to_nat n) hex_digits "0"%char.

Definition byte_toHex (b : byte) : string :=
  String (hex_digit (Byte.to_N b / 16)) (String (hex_digit (Byte.to_N b mod 16)) EmptyString).

(** [QByteArray::toHex], read as a [QString]: two lower-case digits a byte. *)
Fixpoint toHex (a : QByteArray) : string :=
  match a with
  | [] => EmptyString
  | b :: a' => (byte_toHex b ++ toHex a')%string
  end.

Definition left (n : nat) (a : QByteArray) : QByteArray := firstn n a.
Definition mid (n : nat) (a : QByteArray) : QByteArray := skipn n a.

Fixpoint ends_with_slash (s : string) : bool :=
  match s with
  | EmptyString => false
  | String c EmptyString => Ascii.eqb c "/"%char
  | String _ s' => ends_with_slash s'
  end.

Definition isAbsolutePath (s : string) : bool :=
  match s with
  | String c _ => Ascii.eqb c "/"%char
  | EmptyString => false
  end.

(** What [QString::truncate] leaves when called at the last character. *)
Fixpoint chop (s : string) : string :=
  match s with
  | EmptyString => EmptyString
  | String _ EmptyString => EmptyString
  | String c s' => String c (chop s')
  end.

(** The path that a [QDir] made from a string holds: the current directory
    [.] for the empty string, and the string without one trailing separator
    when it has one and is longer than the root [/]; the path is not cleaned
    any further.  This is the constructor where the separator is [/]; drive
    letters and native separators are left out. *)
Definition QDir (path : string) : string :=
  let p := match path with
           | EmptyString => "."%string
           | _ => path
           end in
  if ends_with_slash p && (1 <? String.length p)%nat then chop p else p.

(** [QDir::filePath], on the path that the directory holds: an absolute
    name is returned as it is, an empty name gives the path of the directory,
    and a separator is added unless that path is empty or ends with one. *)
Definition filePath (dir fileName : string) : string :=
  if isAbsolutePath fileName then fileName
  else
    match fileName with
    | EmptyString => dir
    | _ =>
        match dir with
        | EmptyString => fileName
        | _ => if ends_with_slash dir then (dir ++ fileName)%string
               else (dir ++ "/" ++ fileName)%string
        end
    end.

(** [CachePathName], with the media cache location as a parameter
    ([FileFunctions::GetMediaCacheLocation] is outside these sources): the
    path returned, and the directory on which [mkpath] is called.  Two
    directory objects are made, one from the location and one from the path
    of the first-level directory. *)
Definition CachePathName (cache_location : string) (h : QByteArray) (pix_fmt : Format)
    : string * string :=
  let ext := GetFormatExtension pix_fmt in
  let cache_dir := QDir (filePath (QDir cache_location) (toHex (left 1 h))) in
  let filename := (toHex (mid 1 h) ++ ext)%string in
  (filePath cache_dir filename, cache_dir).

(** ** Notions used to state the properties *)

(** Membership of a key in the half-open range, as a proposition. *)
Definition in_range (r : TimeRange) (k : rational) : Prop :=
  (in_ r <= k)%Qc /\ (k < out_ r)%Qc.

(** Equality of two concrete maps, decided by comparing keys and hashes. *)
Fixpoint QMap_eqb (m1 m2 : QMap) : bool :=
  match m1, m2 with
  | [], [] => true
  | (k1, v1) :: m1', (k2, v2) :: m2' =>
      rat_eq k1 k2 && QByteArray_eqb v1 v2 && QMap_eqb m1' m2'
  | _, _ => false
  end.

Fixpoint rat_list_eqb (l1 l2 : list rational) : bool :=
  match l1, l2 with
  | [], [] => true
  | x :: l1', y :: l2' => rat_eq x y && rat_list_eqb l1' l2'
  | _, _ => false
  end.

(** The keys that the scan of [ShiftEvent] leaves in place. *)
Definition ShiftEvent_stays (from to k : rational) : bool :=
  negb (rat_lt (to - from)%Qc (rat_of_Z 0) && rat_ge k to && rat_lt k from)
  && rat_lt k from.

Definition HashTimePair_entry (p : HashTimePair) : rational * QByteArray :=
  (time p, hash p).

Definition shift_entry (d : rational) (e : rational * QByteArray) : HashTimePair :=
  mkHashTimePair (fst e + d)%Qc (snd e).

(** Sample hashes for the worked examples. *)
Definition h_a : QByteArray := ["a"%byte].
Definition h_b : QByteArray := ["b"%byte].
Definition h_c : QByteArray := ["c"%byte].
Definition h_d : QByteArray := ["d"%byte].
Definition h_e : QByteArray := ["e"%byte].


(** The index of the worked example of the shift: keys 1, 2, 5, 6 and 7. *)
Definition shift_example : QMap :=
  [(rat_of_Z 1, h_a); (rat_of_Z 2, h_b); (rat_of_Z 5, h_c);
   (rat_of_Z 6, h_d); (rat_of_Z 7, h_e)].

(** The acceptance test of [SetHash] on one job. *)
Definition SetHash_accepts (t : rational) (jt : Z) (job : JobIdentifier) : bool :=
  Contains (range job) t && (jt >=? job_time job)%Z.

(** The sample interval of a timestamp. *)
Definition sample_range (timebase t : rational) : TimeRange :=
  mkTimeRange t (t + timebase)%Qc.

(** A cache with two jobs, the newer one the stricter, and one entry. *)
Definition cache_example : FrameHashCache :=
  mkFrameHashCache
    [(rat_of_Z 1, h_a)]
    [mkJobIdentifier (mkTimeRange (rat_of_Z 0) (rat_of_Z 10)) 3;
     mkJobIdentifier (mkTimeRange (rat_of_Z 0) (rat_of_Z 5)) 8]
    (rat_of_Z 1).

(** *** The grid and the measure that bounds the turns of the expansion *)

(** The position of a time in units of the timebase. *)
Definition grid_pos (timebase x : rational) : Q := (this x / this timebase)%Q.

(** The instant number [k] of the grid. *)
Definition grid_instant (timebase : rational) (k : Z) : rational :=
  (rat_of_Z k * timebase)%Qc.

Definition on_grid (timebase x : rational) : Prop :=
  exists k : Z, x = grid_instant timebase k.

(** A bound on the number of grid cells that a range meets. *)
Definition cells (timebase : rational) (r : TimeRange) : nat :=
  Z.to_nat (Qceiling (grid_pos timebase (out_ r)) - Qfloor (grid_pos timebase (in_ r))).

Definition range_weight (timebase : rational) (r : TimeRange) : nat :=
  (2 * cells timebase r + 1)%nat.

Definition expand_measure (timebase : rational) (l : TimeRangeList) : nat :=
  list_sum (map (range_weight timebase) l).

(** The first range of a list has a start before its end. *)
Definition head_nonempty (l : TimeRangeList) : Prop :=
  match l with
  | [] => False
  | r :: _ => (in_ r < out_ r)%Qc
  end.

Definition times_eqb (o1 o2 : option (list rational)) : bool :=
  match o1, o2 with
  | Some l1, Some l2 => rat_list_eqb l1 l2
  | None, None => true
  | _, _ => false
  end.

(** What [QDir::filePath] puts before a relative, non-empty file name. *)
Definition dir_prefix (dir : string) : string :=
  match dir with
  | EmptyString => EmptyString
  | _ => if ends_with_slash dir then dir else (dir ++ "/")%string
  end.

(** The layout of the cache as the specification words it,
    [<cache_root>/<hex(hash[0])>/<hex(hash[1:])><ext>], for a first byte and
    the bytes after it. *)
Definition cache_path_layout (cache_root : string) (first : byte) (rest : QByteArray)
    (ext : string) : string :=
  (cache_root ++ "/" ++ toHex [first] ++ "/" ++ toHex rest ++ ext)%string.

(** ** Further member functions of the cache *)

Definition GetFramesWithHash (c : FrameHashCache) (h : QByteArray) : list rational :=
  GetFramesWithHash_loop h (time_hash_map_ c).

Definition SetTimebase (c : FrameHashCache) (tb : rational) : FrameHashCache :=
  mkFrameHashCache (time_hash_map_ c) (jobs_ c) tb.

(** The cache with another job ledger: the ledger is written by the
    scheduler, between the calls. *)
Definition with_jobs (c : FrameHashCache) (jobs : list JobIdentifier) : FrameHashCache :=
  mkFrameHashCache (time_hash_map_ c) jobs (timebase_ c).

(** Where a forward shift takes a key. *)
Definition shifted_key (from to k : rational) : rational :=
  if rat_ge k from then (k + (to - from))%Qc else k.

(** ** Notions for the grid expansion *)

(** The sample that a turn of the expansion selects for a time. *)
Definition sample_of (timebase t : rational) : rational :=
  fst (select_sample t timebase).

(** A range that keeps clear of a cell: it neither starts in it nor has a
    time in it. *)
Definition misses (cell c : TimeRange) : Prop :=
  ~ in_range cell (in_ c) /\ (forall x, in_range c x -> ~ in_range cell x).

(** ** Notions for the cache path *)

Definition is_hex_digit (c : ascii) : bool := existsb (Ascii.eqb c) hex_digits.

(** The part of the cache path after the cache location. *)
Definition path_suffix (h : QByteArray) (pix_fmt : Format) : string :=
  match h with
  | [] => GetFormatExtension pix_fmt
  | b :: rest =>
      (toHex [b] ++ "/" ++ toHex rest ++ GetFormatExtension pix_fmt)%string
  end.

(** Reading two hex digits back: the value of a digit is its place in
    [hex_digits]. *)
Fixpoint index_of (c : ascii) (l : list ascii) : N :=
  match l with
  | [] => 0%N
  | d :: l' => if Ascii.eqb c d then 0%N else (1 + index_of c l')%N
  end.

Definition fromHex_byte (c1 c2 : ascii) : option byte :=
  Byte.of_N (16 * index_of c1 hex_digits + index_of c2 hex_digits).

(** ** Saving a frame

    [SaveCacheFrame] hands the buffer to one of two image libraries.  What is
    modelled is what it asks of them and of the disk manager, in program
    order, with what they answer; the bytes written are theirs. *)

Record VideoParams : Type := mkVideoParams {
  format_ : Format;
  effective_width : Z;
  effective_height : Z
}.

Inductive PixelType : Type := HALF | FLOAT.

(** The largest [int], the [int] that a product wraps to, and the [size_t]
    that an [int] is widened to.  The strides are products of [int]s that are
    stored as [size_t]; a product beyond the range of [int] is undefined in the
    language and is modelled by the wrap-around of the machine. *)
Definition INT_MAX : Z := 2147483647.

Definition int_wrap (z : Z) : Z := ((z + 2 ^ 31) mod 2 ^ 32 - 2 ^ 31)%Z.

Definition int_mul (a b : Z) : Z := int_wrap (a * b).

Definition size_t_of_int (z : Z) : Z := (z mod 2 ^ 64)%Z.

(** An [Imf::Slice]: the sample of the pixel [(x, y)] starts at
    [base + x * xStride + y * yStride], relative to [data]. *)
Record Slice : Type := mkSlice {
  slice_type : PixelType;
  slice_base : Z;
  xStride : Z;
  yStride : Z
}.

Definition Slice_address (s : Slice) (x y : Z) : Z :=
  (slice_base s + x * xStride s + y * yStride s)%Z.

(** Modelled from the spec: the constant [kRGBAChannels] is declared outside
    these sources; the buffer is interleaved RGBA, four channels a pixel. *)
Definition kRGBAChannels : Z := 4.

(** The calls made, each library call with the value it returns where it
    returns one.  A call of the EXR library that fails does not return: it
    throws, and is then the last call of the trace. *)
Inductive DiskCall : Type :=
| ImageOutput_threads (n : Z)
| ImageOutput_open (filename : string) (width height nchannels : Z)
    (typedesc : Format) (result : bool)
| ImageOutput_write_image (typedesc : Format) (result : bool)
| ImageOutput_close (result : bool)
| OutputFile_new (filename : string) (width height : Z)
    (channels : list (string * PixelType)) (dwaCompressionLevel : Z)
| OutputFile_setFrameBuffer (framebuffer : list (string * Slice))
| OutputFile_writePixels (numScanLines : Z)
| qCritical
| mkpath (dir : string)
| CreatedFile (filename : string) (h : QByteArray).

(** How a call ends: it returns a value, or an exception leaves it. *)
Inductive Outcome (A : Type) : Type :=
| Returned (a : A)
| Thrown.

Arguments Returned {A} a.
Arguments Thrown {A}.

(** What the image libraries answer for a file name: whether
    [OIIO::ImageOutput::create] finds an encoder, what [open], [write_image]
    and [close] return, and whether the constructor of [Imf::OutputFile] and
    [writePixels] return (they throw when they fail). *)
Record ImageLibraries : Type := mkImageLibraries {
  ImageOutput_create : string -> bool;
  open_result : string -> bool;
  write_image_result : string -> bool;
  close_result : string -> bool;
  OutputFile_returns : string -> bool;
  writePixels_returns : string -> bool
}.

Section Save.

(** [PixelFormat::ChannelCount] and [PixelFormat::BytesPerChannel] are
    outside these sources. *)
Variable ChannelCount : Format -> Z.
Variable BytesPerChannel : Format -> Z.
Variable lib : ImageLibraries.

(** The sample type of the EXR channels, by the format. *)
Definition pix_type_of (f : Format) : PixelType :=
  match f with
  | PIX_FMT_RGB16F | PIX_FMT_RGBA16F => HALF
  | _ => FLOAT
  end.

(** The frame buffer that the floating-point case builds. *)
Definition framebuffer_of (vparam : VideoParams) : list (string * Slice) :=
  let pix_type := pix_type_of (format_ vparam) in
  let bpc := BytesPerChannel (format_ vparam) in
  let xs := size_t_of_int (int_mul kRGBAChannels bpc) in
  let ys := size_t_of_int (int_mul (int_mul (effective_width vparam) kRGBAChannels) bpc) in
  [("R", mkSlice pix_type 0 xs ys);
   ("G", mkSlice pix_type bpc xs ys);
   ("B", mkSlice pix_type (int_mul 2 bpc) xs ys);
   ("A", mkSlice pix_type (int_mul 3 bpc) xs ys)]%string.

Definition SaveCacheFrame_file (filename : string) (vparam : VideoParams)
    : Outcome bool * list DiskCall :=
  match format_ vparam with
  | PIX_FMT_RGB8 | PIX_FMT_RGBA8 | PIX_FMT_RGB16U | PIX_FMT_RGBA16U =>
      if ImageOutput_create lib filename then
        (Returned true,
         [ImageOutput_threads 1;
          ImageOutput_open filename (effective_width vparam)
            (effective_height vparam) (ChannelCount (format_ vparam))
            (format_ vparam) (open_result lib filename);
          ImageOutput_write_image (format_ vparam) (write_image_result lib filename);
          ImageOutput_close (close_result lib filename)])
      else (Returned false, [qCritical])
  | PIX_FMT_RGB16F | PIX_FMT_RGBA16F | PIX_FMT_RGB32F | PIX_FMT_RGBA32F =>
      let pix_type := pix_type_of (format_ vparam) in
      let out :=
        OutputFile_new filename (effective_width vparam) (effective_height vparam)
          [("R", pix_type); ("G", pix_type); ("B", pix_type); ("A", pix_type)]%string
          200 in
      if OutputFile_returns lib filename then
        let calls :=
          [out; OutputFile_setFrameBuffer (framebuffer_of vparam);
           OutputFile_writePixels (effective_height vparam)] in
        if writePixels_returns lib filename then (Returned true, calls)
        else (Thrown, calls)
      else (Thrown, [out])
  | PIX_FMT_INVALID | PIX_FMT_COUNT => (Returned false, [qCritical])
  end.

(** [SaveCacheFrame(hash, data, vparam)]: the path, the write, and the
    report to the disk manager when the write has returned [true]; an
    exception of the write is not caught. *)
Definition SaveCacheFrame (cache_location : string) (h : QByteArray)
    (vparam : VideoParams) : Outcome unit * list DiskCall :=
  let (fn, cache_dir) := CachePathName cache_location h (format_ vparam) in
  match SaveCacheFrame_file fn vparam with
  | (Returned true, calls) =>
      (Returned tt, mkpath cache_dir :: calls ++ [CreatedFile fn h])
  | (Returned false, calls) => (Returned tt, mkpath cache_dir :: calls)
  | (Thrown, calls) => (Thrown, mkpath cache_dir :: calls)
  end.

(** Whether [SaveCacheFrame] gets to report the file, read off the format
    and the answers of the libraries. *)
Definition reports (filename : string) (vparam : VideoParams) : bool :=
  (FormatIsFloat (format_ vparam)
   && OutputFile_returns lib filename && writePixels_returns lib filename)
  || (FormatIsInteger (format_ vparam) && ImageOutput_create lib filename).

End Save.

(** The slices of the frame buffers handed to the EXR writer. *)
Definition framebuffer_slices (calls : list DiskCall) : list Slice :=
  flat_map (fun d => match d with
                     | OutputFile_setFrameBuffer fb => map snd fb
                     | _ => []
                     end) calls.

(** The calls of a trace that report a file. *)
Definition is_CreatedFile (d : DiskCall) : bool :=
  match d with CreatedFile _ _ => true | _ => false end.

(** ** The footage combo box ([widget/footagecombobox/footagecombobox.cpp])

    The project classes [Item], [Folder], [Footage] and [Stream] are outside
    these sources; they are modelled by what the widget calls on them:
    [CanHaveChildren], [type], [name], [children], [IsValid], [streams],
    [description]. *)

Record Stream : Type := mkStream { description : string; stream_id : nat }.

Unset Elimination Schemes.

Inductive Item : Type :=
| Folder (name : string) (children : list Item)
| Footage (name : string) (IsValid : bool) (streams : list Stream)
| OtherItem (name : string).

Definition CanHaveChildren (i : Item) : bool :=
  match i with Folder _ _ => true | _ => false end.

Definition item_child_count (i : Item) : nat :=
  match i with Folder _ cs => List.length cs | _ => O end.

(** What is put into a [QMenu]: submenus and actions, in order. *)
Inductive MenuEntry : Type :=
| SubMenu (title : string) (entries : list MenuEntry)
| Action (text : string) (data : Stream).

Set Elimination Schemes.

Definition FootageToString (f : Stream) : string := description f.

(** [TraverseFolder], by the child it visits: the entries added to the menu. *)
Fixpoint TraverseFolder_child (only_show_ready_footage_ : bool) (child : Item)
    : list MenuEntry :=
  match child with
  | Folder name children =>
      [SubMenu name
         (flat_map (TraverseFolder_child only_show_ready_footage_) children)]
  | Footage name valid streams =>
      if valid || negb only_show_ready_footage_ then
        [SubMenu name (map (fun s => Action (FootageToString s) s) streams)]
      else []
  | OtherItem _ => []
  end.

Definition TraverseFolder (only_show_ready_footage_ : bool) (f : Item)
    : list MenuEntry :=
  match f with
  | Folder _ children =>
      flat_map (TraverseFolder_child only_show_ready_footage_) children
  | _ => []
  end.

(** The widget: its members, and the items of the combo box it derives
    from. *)
Record FootageComboBox : Type := mkFootageComboBox {
  root_ : option Item;
  footage_ : option Stream;
  only_show_ready_footage_ : bool;
  combo_items : list string
}.

Definition FootageComboBox_new : FootageComboBox :=
  mkFootageComboBox None None true [].

Definition UpdateText (w : FootageComboBox) : FootageComboBox :=
  mkFootageComboBox (root_ w) (footage_ w) (only_show_ready_footage_ w)
    (match footage_ w with
     | Some f => [FootageToString f]
     | None => []
     end).

Definition SetFootage (w : FootageComboBox) (f : option Stream) : FootageComboBox :=
  UpdateText (mkFootageComboBox (root_ w) f (only_show_ready_footage_ w)
                (combo_items w)).

Definition SetRoot (w : FootageComboBox) (p : option Item) : FootageComboBox :=
  mkFootageComboBox p (footage_ w) (only_show_ready_footage_ w) [].

Definition SetOnlyShowReadyFootage (w : FootageComboBox) (e : bool) : FootageComboBox :=
  mkFootageComboBox (root_ w) (footage_ w) e (combo_items w).

Definition SelectedFootage (w : FootageComboBox) : option Stream := footage_ w.

(** [showPopup]: [exec] stands for [QMenu::exec], the choice of the user
    among the entries of the menu shown; the result is the widget and the
    footage emitted with [FootageChanged], if any. *)
Definition showPopup (exec : list MenuEntry -> option Stream) (w : FootageComboBox)
    : FootageComboBox * option (option Stream) :=
  match root_ w with
  | None => (w, None)
  | Some root =>
      if Nat.eqb (item_child_count root) 0 then (w, None)
      else
        match exec (TraverseFolder (only_show_ready_footage_ w) root) with
        | Some selected =>
            let w' := SetFootage w (Some selected) in
            (w', Some (footage_ w'))
        | None => (w, None)
        end
  end.

(** The actions of a menu, with their texts, and the streams of the footage
    of a project tree that are offered, in order. *)
Fixpoint menu_actions (e : MenuEntry) : list (string * Stream) :=
  match e with
  | SubMenu _ entries => flat_map menu_actions entries
  | Action text s => [(text, s)]
  end.

Fixpoint item_streams (only_ready : bool) (i : Item) : list Stream :=
  match i with
  | Folder _ children => flat_map (item_streams only_ready) children
  | Footage _ valid streams => if valid || negb only_ready then streams else []
  | OtherItem _ => []
  end.

(** The stream belongs to a valid footage of the tree. *)
Fixpoint stream_of_valid_footage (s : Stream) (i : Item) : Prop :=
  match i with
  | Folder _ children =>
      (fix any (l : list Item) : Prop :=
         match l with
         | [] => False
         | c :: l' => stream_of_valid_footage s c \/ any l'
         end) children
  | Footage _ v streams => v = true /\ In s streams
  | OtherItem _ => False
  end.

(** The calls by which a widget gets from one state to another. *)
Inductive FootageComboBox_call : Type :=
| call_SetRoot (p : option Item)
| call_SetFootage (f : option Stream)
| call_SetOnlyShowReadyFootage (e : bool)
| call_showPopup (exec : list MenuEntry -> option Stream).

Definition FootageComboBox_do (w : FootageComboBox) (c : FootageComboBox_call)
    : FootageComboBox :=
  match c with
  | call_SetRoot p => SetRoot w p
  | call_SetFootage f => SetFootage w f
  | call_SetOnlyShowReadyFootage e => SetOnlyShowReadyFootage w e
  | call_showPopup exec => fst (showPopup exec w)
  end.

(** The combo box shows nothing, or the description of the footage selected. *)
Definition shows_selection (w : FootageComboBox) : Prop :=
  combo_items w = []
  \/ exists f, footage_ w = Some f /\ combo_items w = [FootageToString f].

(** * Properties *)

(** ** Comparisons of timestamps *)

Lemma rat_lt_spec (x y : rational) : rat_lt x y = true <-> (x < y)%Qc.
Proof.
  unfold rat_lt. rewrite Qclt_alt. destruct (x ?= y)%Qc; split; congruence.
Qed.

Lemma rat_lt_false (x y : rational) : rat_lt x y = false <-> (y <= x)%Qc.
Proof.
  split; intros H.
  - apply Qcnot_lt_le. intros L. apply rat_lt_spec in L. congruence.
  - destruct (rat_lt x y) eqn:E; [|reflexivity].
    apply rat_lt_spec in E. exfalso. exact (Qcle_not_lt _ _ H E).
Qed.

Lemma rat_ge_spec (x y : rational) : rat_ge x y = true <-> (y <= x)%Qc.
Proof.
  unfold rat_ge. rewrite negb_true_iff. apply rat_lt_false.
Qed.

Lemma rat_ge_false (x y : rational) : rat_ge x y = false <-> (x < y)%Qc.
Proof.
  unfold rat_ge. rewrite negb_false_iff. apply rat_lt_spec.
Qed.

Lemma rat_le_spec (x y : rational) : rat_le x y = true <-> (x <= y)%Qc.
Proof.
  unfold rat_le. rewrite negb_true_iff. apply rat_lt_false.
Qed.

Lemma rat_eq_spec (x y : rational) : rat_eq x y = true <-> x = y.
Proof.
  unfold rat_eq. rewrite Qceq_alt. destruct (x ?= y)%Qc; split; congruence.
Qed.

Lemma rat_eq_false (x y : rational) : rat_eq x y = false <-> x <> y.
Proof.
  rewrite <- rat_eq_spec. destruct (rat_eq x y); split; congruence.
Qed.

Lemma rat_eq_refl (x : rational) : rat_eq x x = true.
Proof. apply rat_eq_spec. reflexivity. Qed.

(** Linear arithmetic over [Qc] is discharged over [Q]. *)

Lemma Qc_eq_Qeq (x y : Qc) : x = y <-> (this x == this y)%Q.
Proof.
  split; [intros ->; reflexivity | apply Qc_is_canon].
Qed.

Ltac qc_to_q :=
  repeat match goal with
  | H : @eq _ ?x ?y |- _ => apply (proj1 (Qc_eq_Qeq x y)) in H
  | H : ~ @eq _ ?x ?y |- _ => rewrite (Qc_eq_Qeq x y) in H
  | |- @eq _ ?x ?y => apply (@Qc_is_canon x y)
  | |- ~ @eq _ ?x ?y => rewrite (Qc_eq_Qeq x y)
  end;
  unfold rational, rat_of_Z, rat, Qclt, Qcle, Qcminus, Qcplus, Qcopp, Qcmult, Q2Qc in *;
  cbn [this] in *;
  repeat match goal with
  | H : context [Qred ?q] |- _ => rewrite (Qred_correct q) in H
  | |- context [Qred ?q] => rewrite (Qred_correct q)
  end;
  unfold inject_Z in *.

Ltac qc_lra := intros; qc_to_q; lra.

(** ** Byte arrays *)

Lemma QByteArray_eqb_spec (a b : QByteArray) : QByteArray_eqb a b = true <-> a = b.
Proof.
  revert b. induction a as [|x a IH]; intros [|y b]; simpl; split; try congruence.
  - rewrite andb_true_iff. intros [E1 E2].
    apply Byte.byte_dec_bl in E1. apply IH in E2. congruence.
  - intros E. injection E as -> ->. rewrite andb_true_iff. split.
    + apply Byte.byte_dec_lb. reflexivity.
    + apply IH. reflexivity.
Qed.

Lemma QByteArray_eqb_false (a b : QByteArray) : QByteArray_eqb a b = false <-> a <> b.
Proof.
  rewrite <- QByteArray_eqb_spec. destruct (QByteArray_eqb a b); split; congruence.
Qed.


(** ** The ordered map *)

Ltac rat_bools :=
  repeat match goal with
  | H : rat_lt _ _ = true |- _ => apply rat_lt_spec in H
  | H : rat_lt _ _ = false |- _ => apply rat_lt_false in H
  | H : rat_gt _ _ = true |- _ => apply rat_lt_spec in H
  | H : rat_gt _ _ = false |- _ => apply rat_lt_false in H
  | H : rat_ge _ _ = true |- _ => apply rat_ge_spec in H
  | H : rat_ge _ _ = false |- _ => apply rat_ge_false in H
  | H : rat_le _ _ = true |- _ => apply rat_le_spec in H
  | H : rat_le _ _ = false |- _ => apply rat_lt_spec in H
  | H : rat_eq _ _ = true |- _ => apply rat_eq_spec in H
  | H : rat_eq _ _ = false |- _ => apply rat_eq_false in H
  end.

Lemma Qclt_irrefl (x : Qc) : ~ (x < x)%Qc.
Proof. intros H. exact (Qclt_not_eq _ _ H eq_refl). Qed.

Lemma Qc_trichotomy (x y : Qc) : ~ (x < y)%Qc -> ~ (y < x)%Qc -> x = y.
Proof.
  intros H1 H2. apply Qcle_antisym; apply Qcnot_lt_le; assumption.
Qed.

Lemma QMap_find_insert (m : QMap) (k : rational) (v : QByteArray) (k' : rational) :
  QMap_find (QMap_insert m k v) k' = if rat_eq k k' then Some v else QMap_find m k'.
Proof.
  induction m as [|[k0 v0] m IH]; simpl; [reflexivity|].
  destruct (rat_lt k k0) eqn:L1; simpl; [reflexivity|].
  destruct (rat_lt k0 k) eqn:L2; simpl.
  - destruct (rat_eq k0 k') eqn:E1; [|exact IH].
    destruct (rat_eq k k') eqn:E2; [|reflexivity].
    rat_bools. subst. exfalso. exact (Qclt_irrefl L2).
  - rat_bools. assert (k = k0) by (apply Qcle_antisym; assumption). subst k0.
    destruct (rat_eq k k'); reflexivity.
Qed.

Lemma QMap_insert_keys_Forall (P : rational -> Prop) (m : QMap) (k : rational)
    (v : QByteArray) :
  P k -> Forall P (QMap_keys m) -> Forall P (QMap_keys (QMap_insert m k v)).
Proof.
  intros Pk. induction m as [|[k0 v0] m IH]; simpl; intros F.
  - constructor; [assumption | constructor].
  - apply Forall_cons_iff in F. destruct F as [F1 F2].
    destruct (rat_lt k k0); [|destruct (rat_lt k0 k)]; simpl;
      repeat (constructor; try assumption).
    apply IH. assumption.
Qed.

Lemma QMap_ok_insert (m : QMap) (k : rational) (v : QByteArray) :
  QMap_ok m -> QMap_ok (QMap_insert m k v).
Proof.
  unfold QMap_ok. induction m as [|[k0 v0] m IH]; simpl; intros H.
  - repeat constructor.
  - apply StronglySorted_inv in H. destruct H as [H1 H2].
    destruct (rat_lt k k0) eqn:L1; [|destruct (rat_lt k0 k) eqn:L2]; simpl; rat_bools.
    + constructor.
      * constructor; assumption.
      * constructor; [assumption|].
        eapply Forall_impl; [|exact H2]. intros a Ha. eapply Qclt_trans; eassumption.
    + constructor.
      * apply IH. assumption.
      * apply QMap_insert_keys_Forall; assumption.
    + assert (k = k0) by (apply Qcle_antisym; assumption). subst k0.
      constructor; assumption.
Qed.

Lemma QMap_find_In (m : QMap) (k : rational) (v : QByteArray) :
  QMap_find m k = Some v -> In (k, v) m.
Proof.
  induction m as [|[k0 v0] m IH]; simpl; [discriminate|].
  destruct (rat_eq k0 k) eqn:E.
  - rat_bools. intros [= ->]. left. congruence.
  - intros H. right. auto.
Qed.

Lemma QMap_In_find (m : QMap) (k : rational) (v : QByteArray) :
  QMap_ok m -> In (k, v) m -> QMap_find m k = Some v.
Proof.
  unfold QMap_ok. induction m as [|[k0 v0] m IH]; simpl; intros H; [tauto|].
  apply StronglySorted_inv in H. destruct H as [H1 H2].
  intros [E|I].
  - injection E as -> ->. rewrite rat_eq_refl. reflexivity.
  - destruct (rat_eq k0 k) eqn:E; [|auto].
    rat_bools. subst k0. exfalso.
    rewrite Forall_forall in H2.
    apply (@Qclt_irrefl k), H2.
    change k with (fst (k, v)). apply in_map. assumption.
Qed.

Lemma QMap_find_None_head (m : QMap) (k0 k : rational) :
  Forall (Qclt k0) (QMap_keys m) -> (k <= k0)%Qc -> QMap_find m k = None.
Proof.
  induction m as [|[k1 v1] m IH]; simpl; intros F L; [reflexivity|].
  apply Forall_cons_iff in F. destruct F as [F1 F2].
  destruct (rat_eq k1 k) eqn:E; [|auto].
  rat_bools. subst k1. exfalso. exact (Qcle_not_lt _ _ L F1).
Qed.

(** Two maps with the same lookups are the same map. *)
Lemma QMap_ext (m1 m2 : QMap) :
  QMap_ok m1 -> QMap_ok m2 ->
  (forall k, QMap_find m1 k = QMap_find m2 k) -> m1 = m2.
Proof.
  unfold QMap_ok. revert m2.
  induction m1 as [|[k1 v1] m1 IH]; intros [|[k2 v2] m2] O1 O2 E.
  - reflexivity.
  - specialize (E k2). simpl in E. rewrite rat_eq_refl in E. discriminate.
  - specialize (E k1). simpl in E. rewrite rat_eq_refl in E. discriminate.
  - simpl in O1, O2.
    apply StronglySorted_inv in O1. destruct O1 as [S1 F1].
    apply StronglySorted_inv in O2. destruct O2 as [S2 F2].
    assert (K : k1 = k2).
    { apply Qc_trichotomy; intros L.
      - pose proof (E k1) as E1. simpl in E1. rewrite rat_eq_refl in E1.
        destruct (rat_eq k2 k1) eqn:Q; rat_bools.
        + subst. exact (Qclt_irrefl L).
        + rewrite (@QMap_find_None_head m2 k2 k1) in E1;
            [discriminate | assumption | apply Qclt_le_weak; assumption].
      - pose proof (E k2) as E2. simpl in E2. rewrite rat_eq_refl in E2.
        destruct (rat_eq k1 k2) eqn:Q; rat_bools.
        + subst. exact (Qclt_irrefl L).
        + rewrite (@QMap_find_None_head m1 k1 k2) in E2;
            [discriminate | assumption | apply Qclt_le_weak; assumption]. }
    subst k2.
    pose proof (E k1) as E1. simpl in E1. rewrite rat_eq_refl in E1.
    injection E1 as ->.
    f_equal. apply IH; try assumption.
    intros k. specialize (E k). simpl in E.
    destruct (rat_eq k1 k) eqn:Q; [|assumption].
    rat_bools. subst k.
    rewrite (@QMap_find_None_head m1 k1 k1), (@QMap_find_None_head m2 k1 k1);
      try assumption; try apply Qcle_refl.
    reflexivity.
Qed.

Lemma QMap_eqb_eq (m1 m2 : QMap) : QMap_eqb m1 m2 = true -> m1 = m2.
Proof.
  revert m2. induction m1 as [|[k1 v1] m1 IH]; intros [|[k2 v2] m2]; simpl;
    try congruence.
  rewrite !andb_true_iff. intros [[E1 E2] E3].
  apply rat_eq_spec in E1. apply QByteArray_eqb_spec in E2. apply IH in E3.
  congruence.
Qed.

Lemma rat_list_eqb_eq (l1 l2 : list rational) : rat_list_eqb l1 l2 = true -> l1 = l2.
Proof.
  revert l2. induction l1 as [|x l1 IH]; intros [|y l2]; simpl; try congruence.
  rewrite andb_true_iff. intros [E1 E2].
  apply rat_eq_spec in E1. apply IH in E2. congruence.
Qed.

(** ** The erase loops of the edit events *)

Lemma Contains_spec (r : TimeRange) (k : rational) :
  Contains r k = true <-> in_range r k.
Proof.
  unfold Contains, in_range.
  rewrite andb_true_iff, rat_ge_spec, rat_lt_spec. tauto.
Qed.

Lemma Contains_false (r : TimeRange) (k : rational) :
  Contains r k = false <-> ~ in_range r k.
Proof.
  rewrite <- Contains_spec. destruct (Contains r k); split; congruence.
Qed.

Lemma QMap_find_filter (p : rational -> bool) (m : QMap) (k : rational) :
  QMap_find (filter (fun e => p (fst e)) m) k
  = if p k then QMap_find m k else None.
Proof.
  induction m as [|[k' v] m IH]; simpl.
  - destruct (p k); reflexivity.
  - destruct (p k') eqn:P; simpl.
    + destruct (rat_eq k' k) eqn:E.
      * apply rat_eq_spec in E. subst k'. rewrite P. reflexivity.
      * exact IH.
    + destruct (rat_eq k' k) eqn:E.
      * apply rat_eq_spec in E. subst k'. rewrite P in IH |- *. exact IH.
      * exact IH.
Qed.

Lemma LengthChangedEvent_loop_filter (newlen : rational) (m : QMap) :
  fst (LengthChangedEvent_loop newlen m)
  = filter (fun e => rat_lt (fst e) newlen) m.
Proof.
  induction m as [|[k v] m IH]; simpl; [reflexivity|].
  destruct (LengthChangedEvent_loop newlen m) as [m' tr]. simpl in IH.
  unfold rat_ge. destruct (rat_lt k newlen); simpl; congruence.
Qed.

Lemma LengthChangedEvent_loop_trace (newlen : rational) (m : QMap) :
  snd (LengthChangedEvent_loop newlen m)
  = map MapErase (filter (fun k => rat_ge k newlen) (QMap_keys m)).
Proof.
  induction m as [|[k v] m IH]; simpl; [reflexivity|].
  destruct (LengthChangedEvent_loop newlen m) as [m' tr]. simpl in IH.
  destruct (rat_ge k newlen); simpl; congruence.
Qed.

Lemma InvalidateEvent_filter (r : TimeRange) (m : QMap) :
  fst (InvalidateEvent r m) = filter (fun e => negb (Contains r (fst e))) m.
Proof.
  induction m as [|[k v] m IH]; simpl; [reflexivity|].
  destruct (InvalidateEvent r m) as [m' tr]. simpl in IH.
  unfold Contains at 1.
  destruct (rat_ge k (in_ r) && rat_lt k (out_ r)); simpl; congruence.
Qed.

Lemma InvalidateEvent_trace (r : TimeRange) (m : QMap) :
  snd (InvalidateEvent r m) = map MapErase (filter (Contains r) (QMap_keys m)).
Proof.
  induction m as [|[k v] m IH]; simpl; [reflexivity|].
  destruct (InvalidateEvent r m) as [m' tr]. simpl in IH.
  unfold Contains at 1. destruct (rat_ge k (in_ r) && rat_lt k (out_ r)); simpl; congruence.
Qed.

(** The invariant of the map survives any erase loop. *)
Lemma QMap_ok_filter (p : rational * QByteArray -> bool) (m : QMap) :
  QMap_ok m -> QMap_ok (filter p m).
Proof.
  unfold QMap_ok, QMap_keys. induction m as [|e m IH]; simpl; intros H.
  - constructor.
  - apply StronglySorted_inv in H. destruct H as [H1 H2].
    destruct (p e); simpl; [|auto].
    constructor; [auto|].
    rewrite Forall_forall in *. intros x Hx. apply H2.
    rewrite in_map_iff in *. destruct Hx as [y [Hy1 Hy2]].
    exists y. split; [assumption|]. apply filter_In in Hy2. tauto.
Qed.

(** C7. [LengthChangedEvent(old, newlen)]: when the timeline shrinks, the
    entries with a key at or beyond the new length are erased and the entries
    before it are kept as they are, in entries and in lookups; when it does not
    shrink, nothing happens.  Shrinking from 10 to 4 keeps the keys below 4
    only, and growing from 4 to 10 changes nothing. *)
Theorem LengthChangedEvent_truncates (old newlen : rational) (m : QMap) :
  ((newlen < old)%Qc ->
     (forall k v, In (k, v) (fst (LengthChangedEvent old newlen m))
                  <-> In (k, v) m /\ (k < newlen)%Qc)
     /\ (forall k, (newlen <= k)%Qc ->
                   QMap_find (fst (LengthChangedEvent old newlen m)) k = None)
     /\ (forall k, (k < newlen)%Qc ->
                   QMap_find (fst (LengthChangedEvent old newlen m)) k = QMap_find m k))
  /\ ((old <= newlen)%Qc -> LengthChangedEvent old newlen m = (m, []))
  /\ (forall k v, In (k, v) (fst (LengthChangedEvent (rat_of_Z 10) (rat_of_Z 4) m))
                  <-> In (k, v) m /\ (k < rat_of_Z 4)%Qc)
  /\ LengthChangedEvent (rat_of_Z 4) (rat_of_Z 10) m = (m, []).
Proof.
  assert (G : forall o n, (n < o)%Qc ->
     forall k v, In (k, v) (fst (LengthChangedEvent o n m))
                  <-> In (k, v) m /\ (k < n)%Qc).
  { intros o n L k v. unfold LengthChangedEvent.
    apply rat_lt_spec in L. rewrite L.
    rewrite LengthChangedEvent_loop_filter, filter_In. simpl.
    rewrite rat_lt_spec. tauto. }
  split; [|split; [|split]].
  - intros L. split; [apply G; assumption|].
    unfold LengthChangedEvent. pose proof L as L'.
    apply rat_lt_spec in L'. rewrite L'.
    rewrite LengthChangedEvent_loop_filter.
    split; intros k Hk;
      rewrite (QMap_find_filter (fun x => rat_lt x newlen)).
    + apply rat_lt_false in Hk. rewrite Hk. reflexivity.
    + apply rat_lt_spec in Hk. rewrite Hk. reflexivity.
  - intros L. unfold LengthChangedEvent.
    apply rat_lt_false in L. rewrite L. reflexivity.
  - apply G. reflexivity.
  - reflexivity.
Qed.

Lemma LengthChangedEvent_truncates_witness :
  In (rat_of_Z 1, h_a)
     (fst (LengthChangedEvent (rat_of_Z 10) (rat_of_Z 4)
             [(rat_of_Z 1, h_a); (rat_of_Z 4, h_b); (rat_of_Z 7, h_c)]))
  /\ QMap_find
       (fst (LengthChangedEvent (rat_of_Z 10) (rat_of_Z 4)
               [(rat_of_Z 1, h_a); (rat_of_Z 4, h_b); (rat_of_Z 7, h_c)]))
       (rat_of_Z 4) = None
  /\ LengthChangedEvent (rat_of_Z 4) (rat_of_Z 4) [(rat_of_Z 1, h_a)]
     = ([(rat_of_Z 1, h_a)], []).
Proof.
  pose proof (LengthChangedEvent_truncates (rat_of_Z 10) (rat_of_Z 4)
                [(rat_of_Z 1, h_a); (rat_of_Z 4, h_b); (rat_of_Z 7, h_c)]) as T.
  destruct T as [T _].
  destruct (T eq_refl) as [T1 [T2 _]].
  split; [|split].
  - apply T1. split; [left; reflexivity | reflexivity].
  - apply T2. discriminate.
  - apply (proj1 (proj2 (LengthChangedEvent_truncates
                            (rat_of_Z 4) (rat_of_Z 4) [(rat_of_Z 1, h_a)]))).
    discriminate.
Defined.

(** C8. [InvalidateEvent(r)] erases exactly the entries whose key lies in
    [[r.in, r.out)] and leaves every other entry as it is; all it does is
    erase those keys from the map: no call into the validity ledger, no
    signal, and the jobs and the timebase are as before. *)
Theorem InvalidateEvent_removes_range (c : FrameHashCache) (r : TimeRange) :
  let m := time_hash_map_ c in
  let c' := fst (FrameHashCache_InvalidateEvent c r) in
  let tr := snd (FrameHashCache_InvalidateEvent c r) in
  (forall k v, In (k, v) (time_hash_map_ c') <-> In (k, v) m /\ ~ in_range r k)
  /\ (forall k, QMap_find (time_hash_map_ c') k
                = if Contains r k then None else QMap_find m k)
  /\ tr = map MapErase (filter (Contains r) (QMap_keys m))
  /\ Forall (fun e => is_map_effect e = true) tr
  /\ jobs_ c' = jobs_ c
  /\ timebase_ c' = timebase_ c.
Proof.
  unfold FrameHashCache_InvalidateEvent.
  pose proof (InvalidateEvent_filter r (time_hash_map_ c)) as F.
  pose proof (InvalidateEvent_trace r (time_hash_map_ c)) as T.
  destruct (InvalidateEvent r (time_hash_map_ c)) as [m' tr]. simpl in *. subst m' tr.
  split; [|split; [|split; [|split; [|split]]]]; try reflexivity.
  - intros k v. rewrite filter_In. simpl.
    rewrite negb_true_iff, Contains_false. tauto.
  - intros k. rewrite (QMap_find_filter (fun x => negb (Contains r x))).
    destruct (Contains r k); reflexivity.
  - apply Forall_forall. intros e He. apply in_map_iff in He.
    destruct He as [k [<- _]]. reflexivity.
Qed.

(** ** [ShiftEvent] *)

Section Shift.

Variables (from to : rational).

Let diff : rational := (to - from)%Qc.
Let neg : bool := rat_lt diff (rat_of_Z 0).

Lemma ShiftEvent_scan_kept (m : QMap) :
  fst (fst (ShiftEvent_scan neg from to diff m))
  = filter (fun e => ShiftEvent_stays from to (fst e)) m.
Proof.
  induction m as [|[k v] m IH]; simpl; [reflexivity|].
  destruct (ShiftEvent_scan neg from to diff m) as [[kept sh] tr]. simpl in IH.
  unfold ShiftEvent_stays at 1. simpl. fold diff. fold neg. unfold rat_ge at 2.
  destruct (neg && rat_ge k to && rat_lt k from) eqn:B; simpl.
  - assumption.
  - destruct (rat_lt k from); simpl; congruence.
Qed.

Lemma ShiftEvent_scan_shifted (m : QMap) :
  snd (fst (ShiftEvent_scan neg from to diff m))
  = map (shift_entry diff) (filter (fun e => rat_ge (fst e) from) m).
Proof.
  induction m as [|[k v] m IH]; simpl; [reflexivity|].
  destruct (ShiftEvent_scan neg from to diff m) as [[kept sh] tr]. simpl in IH.
  unfold rat_ge at 2 3.
  destruct (rat_lt k from) eqn:L; simpl.
  - destruct (neg && rat_ge k to); simpl; assumption.
  - rewrite andb_false_r. simpl. unfold shift_entry at 1. simpl. congruence.
Qed.

(** The scan erases exactly the keys that it does not leave in place. *)
Lemma ShiftEvent_scan_trace (m : QMap) :
  snd (ShiftEvent_scan neg from to diff m)
  = map MapErase
      (filter (fun k => negb (ShiftEvent_stays from to k)) (QMap_keys m)).
Proof.
  induction m as [|[k v] m IH]; simpl; [reflexivity|].
  destruct (ShiftEvent_scan neg from to diff m) as [[kept sh] tr]. simpl in IH.
  unfold ShiftEvent_stays at 1. fold diff. fold neg. unfold rat_ge at 2.
  destruct (neg && rat_ge k to && rat_lt k from) eqn:B; simpl.
  - congruence.
  - destruct (rat_lt k from); simpl; congruence.
Qed.

Lemma ShiftEvent_reinsert_find (sh : list HashTimePair) (m : QMap) (k : rational) :
  QMap_ok (map HashTimePair_entry sh) ->
  QMap_find (ShiftEvent_reinsert m sh) k
  = match QMap_find (map HashTimePair_entry sh) k with
    | Some v => Some v
    | None => QMap_find m k
    end.
Proof.
  unfold ShiftEvent_reinsert, QMap_ok. revert m.
  induction sh as [|p sh IH]; simpl; intros m O; [reflexivity|].
  apply StronglySorted_inv in O. destruct O as [O1 O2].
  rewrite IH by assumption. rewrite QMap_find_insert.
  destruct (rat_eq (time p) k) eqn:E; [|reflexivity].
  rat_bools. subst k.
  rewrite (@QMap_find_None_head _ (time p) (time p));
    [reflexivity | assumption | apply Qcle_refl].
Qed.

Lemma ShiftEvent_reinsert_ok (sh : list HashTimePair) (m : QMap) :
  QMap_ok m -> QMap_ok (ShiftEvent_reinsert m sh).
Proof.
  unfold ShiftEvent_reinsert. revert m.
  induction sh as [|p sh IH]; simpl; intros m O; [assumption|].
  apply IH, QMap_ok_insert, O.
Qed.

Lemma shifted_find (d : rational) (m : QMap) (k : rational) :
  QMap_find (map HashTimePair_entry (map (shift_entry d) m)) k
  = QMap_find m (k - d)%Qc.
Proof.
  induction m as [|[k0 v0] m IH]; simpl; [reflexivity|].
  unfold HashTimePair_entry at 1, shift_entry at 1. simpl.
  destruct (rat_eq (k0 + d)%Qc k) eqn:E1; destruct (rat_eq k0 (k - d)%Qc) eqn:E2;
    rat_bools; try reflexivity; try assumption.
  - exfalso. apply E2. clear -E1. qc_lra.
  - exfalso. apply E1. clear -E2. qc_lra.
Qed.

Lemma shifted_ok (d : rational) (m : QMap) :
  QMap_ok m -> QMap_ok (map HashTimePair_entry (map (shift_entry d) m)).
Proof.
  unfold QMap_ok, QMap_keys. rewrite !map_map. simpl.
  induction m as [|[k0 v0] m IH]; simpl; intros O; [constructor|].
  apply StronglySorted_inv in O. destruct O as [O1 O2].
  constructor; [auto|].
  rewrite Forall_forall in *. intros x Hx.
  apply in_map_iff in Hx. destruct Hx as [[k1 v1] [<- Hy]]. simpl.
  assert (L : (k0 < k1)%Qc).
  { apply O2. change k1 with (fst (k1, v1)). apply in_map. assumption. }
  clear -L. qc_lra.
Qed.

(** What a lookup finds after the shift. *)
Lemma ShiftEvent_find (m : QMap) (k : rational) :
  QMap_ok m ->
  QMap_find (fst (ShiftEvent from to m)) k
  = if rat_ge k to then QMap_find m (k - diff)%Qc
    else if rat_lt k from then QMap_find m k
    else None.
Proof.
  intros O. unfold ShiftEvent. fold diff. fold neg.
  pose proof (ShiftEvent_scan_kept m) as K.
  pose proof (ShiftEvent_scan_shifted m) as S.
  destruct (ShiftEvent_scan neg from to diff m) as [[kept sh] tr]. simpl in K, S.
  subst kept sh. cbn [fst].
  rewrite ShiftEvent_reinsert_find by (apply shifted_ok, QMap_ok_filter, O).
  rewrite shifted_find.
  rewrite (QMap_find_filter (fun x => rat_ge x from)).
  rewrite (QMap_find_filter (ShiftEvent_stays from to)).
  assert (G : rat_ge (k - diff)%Qc from = rat_ge k to).
  { destruct (rat_ge (k - diff)%Qc from) eqn:A; destruct (rat_ge k to) eqn:B;
      try reflexivity; rat_bools; exfalso; subst diff; clear -A B; qc_to_q; lra. }
  rewrite G. unfold ShiftEvent_stays. fold diff. fold neg.
  destruct (rat_ge k to) eqn:B; simpl.
  - destruct (QMap_find m (k - diff)%Qc); [reflexivity|].
    rewrite andb_true_r.
    destruct (rat_lt k from) eqn:L; simpl; [|rewrite andb_false_r; reflexivity].
    destruct neg eqn:N; simpl; [reflexivity|].
    exfalso. subst neg diff. rat_bools. clear -B L N. qc_lra.
  - rewrite andb_false_r. simpl. reflexivity.
Qed.

Lemma ShiftEvent_ok (m : QMap) :
  QMap_ok m -> QMap_ok (fst (ShiftEvent from to m)).
Proof.
  intros O. unfold ShiftEvent.
  pose proof (ShiftEvent_scan_kept m) as K. fold diff neg in K |- *.
  destruct (ShiftEvent_scan neg from to diff m) as [[kept sh] tr].
  simpl in K. subst kept. cbn [fst].
  apply ShiftEvent_reinsert_ok, QMap_ok_filter, O.
Qed.

(** The two phases: every erasure of the scan comes before the first
    reinsertion. *)
Lemma ShiftEvent_trace (m : QMap) :
  snd (ShiftEvent from to m)
  = map MapErase
      (filter (fun k => negb (ShiftEvent_stays from to k)) (QMap_keys m))
    ++ map (fun e => MapInsert (fst e + diff)%Qc (snd e))
         (filter (fun e => rat_ge (fst e) from) m).
Proof.
  unfold ShiftEvent. fold diff. fold neg.
  pose proof (ShiftEvent_scan_shifted m) as S.
  pose proof (ShiftEvent_scan_trace m) as T.
  destruct (ShiftEvent_scan neg from to diff m) as [[kept sh] tr].
  simpl in S, T. subst sh tr. cbn [snd].
  rewrite map_map. reflexivity.
Qed.

End Shift.

Lemma shift_example_ok : QMap_ok shift_example.
Proof.
  unfold QMap_ok, shift_example. simpl.
  repeat (constructor; [| repeat (constructor; [reflexivity|]); constructor]).
  constructor.
Qed.

(** C3. [ShiftEvent(from, to)] with [diff = to - from].  When [diff] is
    negative an entry with its key in [[to, from)] is discarded: the scan
    neither leaves it in the map nor collects it for reinsertion, and what a
    lookup finds there afterwards is what moved in.  An entry with a key at or
    after [from] is found at [key + diff], and a lookup before [from] and out
    of the collapsed region finds what it found before.  The entries of the
    result are exactly the untouched and the moved ones, and all erasures of
    the scan come before the reinsertions.  On the keys 1, 2, 5, 6, 7, the
    shift from 5 to 2 gives the keys 1, 2, 3, 4: key 1 as it was and 5, 6, 7
    at 2, 3, 4 with their hashes. *)
Theorem ShiftEvent_shifts (from to : rational) (m : QMap) :
  QMap_ok m ->
  let diff := (to - from)%Qc in
  let scan := ShiftEvent_scan (rat_lt diff (rat_of_Z 0)) from to diff m in
  let m' := fst (ShiftEvent from to m) in
  ((diff < rat_of_Z 0)%Qc ->
     forall k v, In (k, v) m -> (to <= k)%Qc -> (k < from)%Qc ->
       ~ In (k, v) (fst (fst scan))
       /\ ~ In (mkHashTimePair (k + diff)%Qc v) (snd (fst scan))
       /\ QMap_find m' k = QMap_find m (k - diff)%Qc)
  /\ (forall k v, In (k, v) m -> (from <= k)%Qc ->
        QMap_find m' (k + diff)%Qc = Some v)
  /\ (forall k, (k < from)%Qc -> ~ ((diff < rat_of_Z 0)%Qc /\ (to <= k)%Qc) ->
        QMap_find m' k = QMap_find m k)
  /\ (forall k' v', In (k', v') m' <->
        (In (k', v') m /\ (k' < from)%Qc /\ (k' < to)%Qc)
        \/ (exists k, In (k, v') m /\ (from <= k)%Qc /\ k' = (k + diff)%Qc))
  /\ QMap_ok m'
  /\ snd (ShiftEvent from to m)
     = map MapErase
         (filter (fun k => negb (ShiftEvent_stays from to k)) (QMap_keys m))
       ++ map (fun e => MapInsert (fst e + diff)%Qc (snd e))
            (filter (fun e => rat_ge (fst e) from) m)
  /\ fst (ShiftEvent (rat_of_Z 5) (rat_of_Z 2) shift_example)
     = [(rat_of_Z 1, h_a); (rat_of_Z 2, h_c); (rat_of_Z 3, h_d); (rat_of_Z 4, h_e)].
Proof.
  intros O diff scan m'.
  assert (F : forall k, QMap_find m' k
     = if rat_ge k to then QMap_find m (k - diff)%Qc
       else if rat_lt k from then QMap_find m k else None).
  { intros k. apply ShiftEvent_find. assumption. }
  assert (O' : QMap_ok m') by (apply ShiftEvent_ok; assumption).
  split; [|split; [|split; [|split; [|split; [|split]]]]].
  - intros N k v I L1 L2.
    split; [|split].
    + subst scan diff. rewrite ShiftEvent_scan_kept, filter_In. simpl.
      intros [_ S]. unfold ShiftEvent_stays in S.
      apply rat_lt_spec in N. apply rat_ge_spec in L1. apply rat_lt_spec in L2.
      rewrite N, L1, L2 in S. discriminate.
    + subst scan diff. rewrite ShiftEvent_scan_shifted, in_map_iff.
      intros [[k1 v1] [E I1]]. apply filter_In in I1. destruct I1 as [_ G].
      simpl in G. apply (f_equal time) in E.
      cbn [time shift_entry fst snd] in E.
      assert (k1 = k) by (clear -E; qc_lra). subst k1.
      rat_bools. exact (Qcle_not_lt _ _ G L2).
    + rewrite F. apply rat_ge_spec in L1. rewrite L1. reflexivity.
  - intros k v I L. rewrite F.
    assert (G : rat_ge (k + diff)%Qc to = true).
    { apply rat_ge_spec. subst diff. clear -L. qc_lra. }
    rewrite G.
    assert (E : (k + diff - diff)%Qc = k) by (clear; qc_lra).
    rewrite E. apply QMap_In_find; assumption.
  - intros k L NN. rewrite F.
    assert (G : rat_ge k to = false).
    { apply rat_ge_false. apply Qcnot_le_lt. intros G.
      apply NN. split; [|assumption].
      subst diff. clear -L G. qc_lra. }
    rewrite G. apply rat_lt_spec in L. rewrite L. reflexivity.
  - intros k' v'. split.
    + intros I. apply QMap_In_find in I; [|assumption]. rewrite F in I.
      destruct (rat_ge k' to) eqn:G.
      * right. exists (k' - diff)%Qc. apply QMap_find_In in I.
        split; [assumption|]. rat_bools. subst diff.
        split; clear -G; qc_lra.
      * destruct (rat_lt k' from) eqn:L; [|discriminate].
        left. apply QMap_find_In in I. rat_bools. auto.
    + intros [[I [L1 L2]] | [k [I [L E]]]]; apply QMap_find_In; rewrite F.
      * apply rat_ge_false in L2. apply rat_lt_spec in L1. rewrite L1, L2.
        apply QMap_In_find; assumption.
      * assert (G : rat_ge k' to = true).
        { apply rat_ge_spec. subst k' diff. clear -L. qc_lra. }
        rewrite G.
        assert (E' : (k' - diff)%Qc = k) by (subst k'; clear; qc_lra).
        rewrite E'. apply QMap_In_find; assumption.
  - assumption.
  - apply ShiftEvent_trace.
  - apply QMap_eqb_eq. vm_compute. reflexivity.
Qed.

Lemma ShiftEvent_shifts_witness :
  QMap_find (fst (ShiftEvent (rat_of_Z 5) (rat_of_Z 2) shift_example))
    (rat_of_Z 5 + (rat_of_Z 2 - rat_of_Z 5))%Qc = Some h_c
  /\ QMap_find (fst (ShiftEvent (rat_of_Z 5) (rat_of_Z 2) shift_example))
       (rat_of_Z 2)
     = QMap_find shift_example (rat_of_Z 2 - (rat_of_Z 2 - rat_of_Z 5))%Qc.
Proof.
  pose proof (@ShiftEvent_shifts (rat_of_Z 5) (rat_of_Z 2) shift_example
                shift_example_ok) as T.
  destruct T as [T1 [T2 _]]. split.
  - apply T2; [right; right; left; reflexivity | discriminate].
  - apply (T1 eq_refl (rat_of_Z 2) h_b);
      [right; left; reflexivity | discriminate | reflexivity].
Defined.

(** C10. [ShiftEvent(from, from)]: the scan leaves the entries before
    [from] in the map, erases every entry at or after [from] and collects it
    with its own key and hash; the reinsertions that follow put each of them
    back, and the map is what it was. *)
Theorem ShiftEvent_same_point_identity (from : rational) (m : QMap) :
  QMap_ok m ->
  let diff := (from - from)%Qc in
  let scan := ShiftEvent_scan (rat_lt diff (rat_of_Z 0)) from from diff m in
  fst (fst scan) = filter (fun e => rat_lt (fst e) from) m
  /\ snd (fst scan) = map (fun e => mkHashTimePair (fst e) (snd e))
                        (filter (fun e => rat_ge (fst e) from) m)
  /\ snd (ShiftEvent from from m)
     = map MapErase (filter (fun k => rat_ge k from) (QMap_keys m))
       ++ map (fun e => MapInsert (fst e) (snd e))
            (filter (fun e => rat_ge (fst e) from) m)
  /\ fst (ShiftEvent from from m) = m.
Proof.
  intros O diff scan. subst scan diff.
  assert (Z0 : (from - from)%Qc = rat_of_Z 0) by (clear; qc_lra).
  assert (S : forall k, ShiftEvent_stays from from k = rat_lt k from).
  { intros k. unfold ShiftEvent_stays. rewrite Z0.
    replace (rat_lt (rat_of_Z 0) (rat_of_Z 0)) with false by reflexivity.
    reflexivity. }
  split; [|split; [|split]].
  - rewrite ShiftEvent_scan_kept.
    apply filter_ext. intros [k v]. simpl. apply S.
  - rewrite ShiftEvent_scan_shifted.
    apply map_ext. intros [k v]. unfold shift_entry. simpl. f_equal.
    clear. qc_lra.
  - rewrite ShiftEvent_trace. f_equal.
    + f_equal. apply filter_ext. intros k. rewrite S. reflexivity.
    + apply map_ext. intros [k v]. simpl. f_equal. clear. qc_lra.
  - apply QMap_ext; [apply ShiftEvent_ok; assumption | assumption |].
    intros k. rewrite ShiftEvent_find by assumption.
    rewrite Z0.
    assert (E : (k - rat_of_Z 0)%Qc = k) by (clear; qc_lra).
    rewrite E. unfold rat_ge. destruct (rat_lt k from); reflexivity.
Qed.

Lemma ShiftEvent_same_point_identity_witness :
  fst (ShiftEvent (rat_of_Z 5) (rat_of_Z 5) shift_example) = shift_example.
Proof.
  apply (@ShiftEvent_same_point_identity (rat_of_Z 5) shift_example shift_example_ok).
Defined.

(** ** The currency check of [SetHash] *)

Lemma SetHash_scan_app (l l' : list JobIdentifier) (n : nat) (t : rational) (jt : Z) :
  (n <= List.length l)%nat ->
  SetHash_scan (l ++ l') n t jt = SetHash_scan l n t jt.
Proof.
  induction n as [|i IH]; simpl; intros L; [reflexivity|].
  rewrite nth_error_app1 by lia.
  rewrite IH by lia. reflexivity.
Qed.

(** The loop visits the jobs from the last one to the first one. *)
Lemma SetHash_scan_rev (jobs : list JobIdentifier) (t : rational) (jt : Z) :
  SetHash_scan jobs (List.length jobs) t jt
  = existsb (SetHash_accepts t jt) (rev jobs).
Proof.
  induction jobs as [|job jobs IH] using rev_ind; [reflexivity|].
  rewrite rev_app_distr, length_app, Nat.add_comm. simpl.
  rewrite nth_error_app2 by lia. rewrite Nat.sub_diag. simpl.
  rewrite SetHash_scan_app by lia. rewrite IH.
  change (Contains (range job) t && (jt >=? job_time job)%Z)
    with (SetHash_accepts t jt job).
  destruct (SetHash_accepts t jt job); reflexivity.
Qed.

Lemma SetHash_scan_spec (jobs : list JobIdentifier) (t : rational) (jt : Z) :
  SetHash_scan jobs (List.length jobs) t jt = true
  <-> exists job, In job jobs /\ in_range (range job) t /\ (job_time job <= jt)%Z.
Proof.
  rewrite SetHash_scan_rev, existsb_exists.
  split; intros [job [I A]]; exists job.
  - apply in_rev in I. unfold SetHash_accepts in A.
    apply andb_true_iff in A. destruct A as [A1 A2].
    apply Contains_spec in A1. apply Z.geb_le in A2. auto.
  - destruct A as [A1 A2]. split; [apply in_rev in I; assumption|].
    unfold SetHash_accepts. apply andb_true_iff.
    split; [apply Contains_spec; assumption | apply Z.geb_le; assumption].
Qed.

(** C1. [SetHash(time, hash, job_time)]: the completion is current exactly
    when the scan of the jobs, from the last submitted to the first, meets a
    job whose range contains [time] and whose [job_time] is not above the
    one given.  When current, the hash is inserted at [time], whatever was
    there before, every other lookup is as before, the interval
    [[time, time + timebase)] is validated and [Validated] is emitted with
    it after the unlock.  When not current the cache is as before and
    nothing is called or emitted. *)
Theorem SetHash_currency (c : FrameHashCache) (t : rational) (h : QByteArray) (jt : Z) :
  let is_current := SetHash_scan (jobs_ c) (List.length (jobs_ c)) t jt in
  let c' := fst (SetHash c t h jt) in
  let tr := snd (SetHash c t h jt) in
  let validated_range := mkTimeRange t (t + timebase_ c)%Qc in
  is_current = existsb (SetHash_accepts t jt) (rev (jobs_ c))
  /\ (is_current = true <->
        exists job, In job (jobs_ c) /\ in_range (range job) t
                    /\ (job_time job <= jt)%Z)
  /\ (is_current = true ->
        time_hash_map_ c' = QMap_insert (time_hash_map_ c) t h
        /\ QMap_find (time_hash_map_ c') t = Some h
        /\ GetHash c' t = h
        /\ (forall k, k <> t ->
              QMap_find (time_hash_map_ c') k = QMap_find (time_hash_map_ c) k)
        /\ tr = [MapInsert t h; NoLockValidate validated_range; Unlock;
                 EmitValidated validated_range]
        /\ jobs_ c' = jobs_ c /\ timebase_ c' = timebase_ c)
  /\ (is_current = false -> c' = c /\ tr = []).
Proof.
  intros is_current c' tr validated_range.
  split; [apply SetHash_scan_rev|].
  split; [apply SetHash_scan_spec|].
  subst c' tr. unfold SetHash. fold is_current.
  split; intros ->; simpl.
  - repeat split.
    + rewrite QMap_find_insert, rat_eq_refl. reflexivity.
    + unfold GetHash, QMap_value. simpl.
      rewrite QMap_find_insert, rat_eq_refl. reflexivity.
    + intros k N. rewrite QMap_find_insert.
      destruct (rat_eq t k) eqn:E; [|reflexivity].
      apply rat_eq_spec in E. congruence.
  - split; reflexivity.
Qed.

Lemma SetHash_currency_witness :
  GetHash (fst (SetHash cache_example (rat_of_Z 1) h_b 5)) (rat_of_Z 1) = h_b
  /\ fst (SetHash cache_example (rat_of_Z 7) h_b 2) = cache_example.
Proof.
  split.
  - apply (SetHash_currency cache_example (rat_of_Z 1) h_b 5). reflexivity.
  - apply (SetHash_currency cache_example (rat_of_Z 7) h_b 2). reflexivity.
Defined.

(** ** [TakeFramesWithHash] *)

Lemma TakeFramesWithHash_loop_map (h : QByteArray) (m : QMap) :
  fst (fst (TakeFramesWithHash_loop h m))
  = filter (fun e => negb (QByteArray_eqb (snd e) h)) m.
Proof.
  induction m as [|[k v] m IH]; simpl; [reflexivity|].
  destruct (TakeFramesWithHash_loop h m) as [[m' times] tr]. simpl in IH.
  destruct (QByteArray_eqb v h); simpl; congruence.
Qed.

Lemma TakeFramesWithHash_loop_times (h : QByteArray) (m : QMap) :
  snd (fst (TakeFramesWithHash_loop h m))
  = QMap_keys (filter (fun e => QByteArray_eqb (snd e) h) m).
Proof.
  induction m as [|[k v] m IH]; simpl; [reflexivity|].
  destruct (TakeFramesWithHash_loop h m) as [[m' times] tr]. simpl in IH.
  destruct (QByteArray_eqb v h); simpl; congruence.
Qed.

(** The erasures of the loop are those of the keys it returns. *)
Lemma TakeFramesWithHash_loop_trace (h : QByteArray) (m : QMap) :
  snd (TakeFramesWithHash_loop h m)
  = map MapErase (snd (fst (TakeFramesWithHash_loop h m))).
Proof.
  induction m as [|[k v] m IH]; simpl; [reflexivity|].
  destruct (TakeFramesWithHash_loop h m) as [[m' times] tr]. simpl in IH.
  destruct (QByteArray_eqb v h); simpl; congruence.
Qed.

(** The list taken is the list that [GetFramesWithHash] reports. *)
Lemma TakeFramesWithHash_loop_Get (h : QByteArray) (m : QMap) :
  snd (fst (TakeFramesWithHash_loop h m)) = GetFramesWithHash_loop h m.
Proof.
  induction m as [|[k v] m IH]; simpl; [reflexivity|].
  destruct (TakeFramesWithHash_loop h m) as [[m' times] tr]. simpl in IH.
  destruct (QByteArray_eqb v h); simpl; congruence.
Qed.

(** C2. [TakeFramesWithHash(h)] erases every entry whose hash is [h] and no
    other, returns the keys of the erased entries, each once and in ascending
    order, and a lookup at a returned key finds nothing afterwards.  All
    erasures come first; then each key's interval [[t, t + timebase)] is
    invalidated, the mutex is released, and one [Invalidated] a key is
    emitted. *)
Theorem TakeFramesWithHash_takes (c : FrameHashCache) (h : QByteArray) :
  QMap_ok (time_hash_map_ c) ->
  let m := time_hash_map_ c in
  let c' := fst (fst (TakeFramesWithHash c h)) in
  let tr := snd (fst (TakeFramesWithHash c h)) in
  let times := snd (TakeFramesWithHash c h) in
  (forall k v, In (k, v) (time_hash_map_ c') <-> In (k, v) m /\ v <> h)
  /\ (forall k, In k times <-> In (k, h) m)
  /\ StronglySorted Qclt times
  /\ (forall k, In k times ->
        QMap_find (time_hash_map_ c') k = None /\ GetHash c' k = [])
  /\ (forall k, ~ In k times ->
        QMap_find (time_hash_map_ c') k = QMap_find m k)
  /\ tr = map MapErase times
          ++ map (fun t => NoLockInvalidate (sample_range (timebase_ c) t)) times
          ++ [Unlock]
          ++ map (fun t => EmitInvalidated (sample_range (timebase_ c) t)) times
  /\ QMap_ok (time_hash_map_ c')
  /\ jobs_ c' = jobs_ c /\ timebase_ c' = timebase_ c.
Proof.
  intros O m c' tr times. subst c' tr times. unfold TakeFramesWithHash.
  pose proof (TakeFramesWithHash_loop_map h (time_hash_map_ c)) as M.
  pose proof (TakeFramesWithHash_loop_times h (time_hash_map_ c)) as T.
  pose proof (TakeFramesWithHash_loop_trace h (time_hash_map_ c)) as E.
  destruct (TakeFramesWithHash_loop h (time_hash_map_ c)) as [[m' times] tr].
  simpl in M, T, E. fold m in M, T, O. simpl. subst tr.
  assert (A : forall k v, In (k, v) m' <-> In (k, v) m /\ v <> h).
  { intros k v. subst m'. rewrite filter_In. simpl.
    rewrite negb_true_iff, QByteArray_eqb_false. tauto. }
  assert (B : forall k, In k times <-> In (k, h) m).
  { intros k. subst times. unfold QMap_keys. rewrite in_map_iff. split.
    - intros [[k1 v1] [E I]]. simpl in E. subst k1.
      apply filter_In in I. destruct I as [I1 I2]. simpl in I2.
      apply QByteArray_eqb_spec in I2. subst v1. assumption.
    - intros I. exists (k, h). split; [reflexivity|].
      apply filter_In. split; [assumption|]. simpl.
      apply QByteArray_eqb_spec. reflexivity. }
  assert (O' : QMap_ok m') by (subst m'; apply QMap_ok_filter; assumption).
  assert (D : forall k, In k times -> QMap_find m' k = None).
  { intros k I. apply B in I.
    destruct (QMap_find m' k) as [v|] eqn:F; [|reflexivity].
    exfalso. apply QMap_find_In, A in F. destruct F as [F1 F2].
    apply (@QMap_In_find _ _ _ O) in F1. apply (@QMap_In_find _ _ _ O) in I. congruence. }
  split; [exact A|]. split; [exact B|].
  split; [subst times; apply (@QMap_ok_filter _ m O)|].
  split.
  { intros k I. unfold GetHash, QMap_value. simpl.
    rewrite (D k I). split; reflexivity. }
  split.
  { intros k N.
    destruct (QMap_find m k) as [v|] eqn:F.
    - apply QMap_In_find; [assumption|]. apply A.
      apply QMap_find_In in F. split; [assumption|].
      intros ->. apply N, B. assumption.
    - destruct (QMap_find m' k) as [v|] eqn:F'; [|reflexivity].
      apply QMap_find_In, A in F'. destruct F' as [F1 _].
      apply (@QMap_In_find _ _ _ O) in F1. congruence. }
  repeat split. assumption.
Qed.

Lemma TakeFramesWithHash_takes_witness :
  GetHash (fst (fst (TakeFramesWithHash cache_example h_a))) (rat_of_Z 1) = [].
Proof.
  assert (O : QMap_ok (time_hash_map_ cache_example)).
  { unfold QMap_ok. simpl. repeat constructor. }
  pose proof (@TakeFramesWithHash_takes cache_example h_a O) as T.
  destruct T as [_ [T2 [_ [T4 _]]]].
  apply T4. apply T2. left. reflexivity.
Defined.

(** ** The cache path *)

Lemma byte_toHex_shape (b : byte) :
  exists c1 c2, byte_toHex b = String c1 (String c2 EmptyString)
                /\ Ascii.eqb c1 "/"%char = false
                /\ Ascii.eqb c2 "/"%char = false.
Proof.
  exists (hex_digit (Byte.to_N b / 16)), (hex_digit (Byte.to_N b mod 16)).
  split; [reflexivity|].
  destruct b; split; reflexivity.
Qed.

Lemma ends_with_slash_app (s : string) (c : ascii) (s' : string) :
  ends_with_slash (s ++ String c s') = ends_with_slash (String c s').
Proof.
  induction s as [|a s IH]; [reflexivity|].
  change ((String a s ++ String c s')%string) with (String a (s ++ String c s')).
  destruct s as [|a' s]; [reflexivity|]. exact IH.
Qed.

Lemma string_app_assoc (a b c : string) :
  ((a ++ b) ++ c)%string = (a ++ (b ++ c))%string.
Proof.
  induction a as [|x a IH]; [reflexivity|]. simpl. rewrite IH. reflexivity.
Qed.

Lemma append_nonempty (s : string) (c : ascii) (s' : string) :
  (s ++ String c s')%string <> EmptyString.
Proof. destruct s; discriminate. Qed.

Lemma string_app_empty (s : string) : (s ++ "")%string = s.
Proof. induction s as [|c s IH]; [reflexivity|]. simpl. rewrite IH. reflexivity. Qed.

Lemma string_app_length (a b : string) :
  String.length (a ++ b) = (String.length a + String.length b)%nat.
Proof. induction a as [|c a IH]; [reflexivity|]. simpl. rewrite IH. reflexivity. Qed.

(** *** The path of a directory object *)

Lemma chop_cons (a : ascii) (t : string) :
  t <> EmptyString -> chop (String a t) = String a (chop t).
Proof. destruct t; [congruence | reflexivity]. Qed.

Lemma chop_app_last (s : string) (c : ascii) :
  chop (s ++ String c EmptyString) = s.
Proof.
  induction s as [|a s IH]; [reflexivity|].
  change ((String a s ++ String c EmptyString)%string)
    with (String a (s ++ String c EmptyString)).
  rewrite chop_cons by apply append_nonempty. rewrite IH. reflexivity.
Qed.

Lemma ends_with_slash_chop (s : string) :
  ends_with_slash s = true -> s = (chop s ++ "/")%string.
Proof.
  induction s as [|a s IH]; [discriminate|].
  destruct s as [|a' s].
  - cbn [ends_with_slash chop]. intros E. apply Ascii.eqb_eq in E. subst a. reflexivity.
  - intros E. change (chop (String a (String a' s))) with (String a (chop (String a' s))).
    change ((String a (chop (String a' s)) ++ "/")%string)
      with (String a (chop (String a' s) ++ "/")).
    f_equal. apply IH. exact E.
Qed.

Lemma QDir_plain (d : string) :
  d <> EmptyString -> ends_with_slash d = false -> QDir d = d.
Proof.
  intros N S. unfold QDir. destruct d; [congruence|]. rewrite S. reflexivity.
Qed.

Lemma QDir_trailing (d : string) :
  d <> EmptyString -> QDir (d ++ "/") = d.
Proof.
  intros N. unfold QDir.
  destruct (d ++ "/")%string eqn:E; [apply append_nonempty in E; contradiction|].
  rewrite <- E. rewrite ends_with_slash_app. cbn [ends_with_slash].
  rewrite string_app_length.
  destruct d as [|c d]; [congruence|]. cbn [String.length].
  replace (1 <? S (String.length d) + 1)%nat with true
    by (symmetry; apply Nat.ltb_lt; lia).
  apply chop_app_last.
Qed.

Lemma QDir_nonempty (d : string) : QDir d <> EmptyString.
Proof.
  unfold QDir. destruct d as [|c d]; [discriminate|].
  destruct (ends_with_slash (String c d)) eqn:S; [|discriminate].
  destruct d as [|c' d]; cbn; discriminate.
Qed.

(** The directory path is as the location, but for one separator at its
    end. *)
Lemma QDir_cases (d : string) :
  d <> EmptyString ->
  (QDir d = d /\ (ends_with_slash d = false \/ d = "/"%string))
  \/ (d = (QDir d ++ "/")%string /\ QDir d <> EmptyString).
Proof.
  intros N. destruct (ends_with_slash d) eqn:S.
  - destruct d as [|c d]; [congruence|]. destruct d as [|c' d].
    + left. cbn in S. apply Ascii.eqb_eq in S. subst c. split; [reflexivity|].
      right. reflexivity.
    + right. split; [|apply QDir_nonempty].
      unfold QDir. rewrite S. cbn [String.length Nat.ltb Nat.leb andb].
      apply ends_with_slash_chop. exact S.
  - left. split; [apply QDir_plain; assumption | left; reflexivity].
Qed.

Lemma dir_prefix_slash (d : string) :
  d <> EmptyString -> dir_prefix (d ++ "/") = (d ++ "/")%string.
Proof.
  intros N. unfold dir_prefix.
  destruct (d ++ "/")%string eqn:E; [reflexivity|].
  rewrite <- E, ends_with_slash_app. reflexivity.
Qed.

Lemma filePath_relative (dir name : string) :
  name <> EmptyString -> isAbsolutePath name = false ->
  filePath dir name = (dir_prefix dir ++ name)%string.
Proof.
  intros N A. unfold filePath, dir_prefix. rewrite A.
  destruct name; [congruence|].
  destruct dir; [reflexivity|].
  destruct (ends_with_slash (String a0 dir)); [reflexivity|].
  rewrite string_app_assoc. reflexivity.
Qed.

Lemma dir_prefix_plain (dir : string) :
  dir <> EmptyString -> ends_with_slash dir = false ->
  dir_prefix dir = (dir ++ "/")%string.
Proof.
  intros D S. unfold dir_prefix. destruct dir; [congruence|].
  rewrite S. reflexivity.
Qed.

Lemma GetFormatExtension_cases (f : Format) :
  (FormatIsFloat f = true -> GetFormatExtension f = ".exr"%string)
  /\ (FormatIsInteger f = true -> GetFormatExtension f = ".jpg"%string)
  /\ (GetFormatExtension f = ".exr"%string \/ GetFormatExtension f = ".jpg"%string).
Proof.
  destruct f; simpl; repeat split; intros; try discriminate; auto.
Qed.

Lemma GetFormatExtension_dot (f : Format) :
  exists s, GetFormatExtension f = String "."%char s.
Proof.
  unfold GetFormatExtension. destruct (FormatIsFloat f); eexists; reflexivity.
Qed.

Lemma toHex_length (a : QByteArray) :
  String.length (toHex a) = (2 * List.length a)%nat.
Proof.
  induction a as [|b a IH]; [reflexivity|].
  cbn [toHex]. destruct (byte_toHex_shape b) as [d1 [d2 [E _]]]. rewrite E.
  cbn [String.append String.length]. rewrite IH. simpl. lia.
Qed.

(** The file name is never empty and never an absolute path. *)
Lemma filename_relative (rest : QByteArray) (f : Format) :
  (toHex rest ++ GetFormatExtension f)%string <> EmptyString
  /\ isAbsolutePath (toHex rest ++ GetFormatExtension f) = false.
Proof.
  destruct (GetFormatExtension_dot f) as [s E].
  destruct rest as [|b' rest']; cbn [toHex].
  - rewrite E. split; [discriminate | reflexivity].
  - destruct (byte_toHex_shape b') as [d1 [d2 [E' [M1 _]]]]. rewrite E'.
    split; [discriminate | exact M1].
Qed.

(** The path for a hash that has a first byte, and the path for the empty
    hash, for every cache location. *)
Lemma CachePathName_cons (cache_location : string) (b : byte) (rest : QByteArray)
    (f : Format) :
  CachePathName cache_location (b :: rest) f
  = ((dir_prefix (QDir cache_location) ++ toHex [b] ++ "/" ++ toHex rest
        ++ GetFormatExtension f)%string,
     (dir_prefix (QDir cache_location) ++ toHex [b])%string).
Proof.
  unfold CachePathName, left, mid. cbn [firstn skipn].
  destruct (byte_toHex_shape b) as [c1 [c2 [E [N1 N2]]]].
  assert (H1 : toHex [b] = String c1 (String c2 EmptyString)).
  { cbn [toHex]. rewrite E. reflexivity. }
  rewrite H1.
  rewrite (@filePath_relative (QDir cache_location) (String c1 (String c2 EmptyString)))
    by (try discriminate; exact N1).
  assert (Q : QDir (dir_prefix (QDir cache_location) ++ String c1 (String c2 EmptyString))
              = (dir_prefix (QDir cache_location) ++ String c1 (String c2 EmptyString))%string).
  { apply QDir_plain; [apply append_nonempty|].
    rewrite ends_with_slash_app. cbn [ends_with_slash]. exact N2. }
  rewrite Q.
  destruct (filename_relative rest f) as [NE NA].
  rewrite (filePath_relative _ NE NA).
  f_equal. rewrite dir_prefix_plain.
  - rewrite !string_app_assoc. reflexivity.
  - apply append_nonempty.
  - rewrite ends_with_slash_app. cbn [ends_with_slash]. exact N2.
Qed.

Lemma CachePathName_nil (cache_location : string) (f : Format) :
  CachePathName cache_location [] f
  = ((dir_prefix (QDir (QDir cache_location)) ++ GetFormatExtension f)%string,
     QDir (QDir cache_location)).
Proof.
  unfold CachePathName, left, mid. cbn [firstn skipn toHex].
  change (EmptyString ++ GetFormatExtension f)%string with (GetFormatExtension f).
  assert (D : filePath (QDir cache_location) EmptyString = QDir cache_location)
    by reflexivity.
  rewrite D. f_equal.
  destruct (GetFormatExtension_dot f) as [s E].
  apply filePath_relative; rewrite E; [discriminate | reflexivity].
Qed.

(** C9, as the code has it.  For a hash with first byte [b] and further
    bytes [rest], [CachePathName] gives
    [<root>/<hex of b>/<hex of rest><extension>] and makes the directory
    [<root>/<hex of b>], where [<root>] is the path of the directory object
    made from the cache location: the location itself when it is not empty
    and has no separator at its end, [.] for the empty location, and the
    location less one separator when it ends with one.  When [<root>] ends
    with a separator (the root directory, or a location with two at its end)
    no further separator is put after it.  For the empty hash there is no
    first-level directory: the path is [<root'>/<extension>] and the
    directory made is [<root'>], the path of a directory object made from
    [<root>].  The extension depends on the class of the pixel format only:
    [.exr] for the floating-point formats and [.jpg] for the integer ones.
    The hex names have two digits a byte. *)
Theorem CachePathName_layout (cache_location : string) (b : byte)
    (rest : QByteArray) (pix_fmt : Format) :
  let root := QDir cache_location in
  let ext := GetFormatExtension pix_fmt in
  CachePathName cache_location (b :: rest) pix_fmt
  = ((dir_prefix root ++ toHex [b] ++ "/" ++ toHex rest ++ ext)%string,
     (dir_prefix root ++ toHex [b])%string)
  /\ (ends_with_slash root = false ->
      CachePathName cache_location (b :: rest) pix_fmt
      = (cache_path_layout root b rest ext, (root ++ "/" ++ toHex [b])%string))
  /\ (cache_location <> EmptyString -> ends_with_slash cache_location = false ->
      root = cache_location
      /\ CachePathName (cache_location ++ "/") (b :: rest) pix_fmt
         = CachePathName cache_location (b :: rest) pix_fmt)
  /\ (cache_location = EmptyString -> root = "."%string)
  /\ CachePathName cache_location [] pix_fmt
     = ((dir_prefix (QDir root) ++ ext)%string, QDir root)
  /\ (FormatIsFloat pix_fmt = true -> ext = ".exr"%string)
  /\ (FormatIsInteger pix_fmt = true -> ext = ".jpg"%string)
  /\ (forall f', FormatIsFloat f' = FormatIsFloat pix_fmt ->
        GetFormatExtension f' = ext)
  /\ String.length (toHex [b]) = 2%nat
  /\ String.length (toHex rest) = (2 * List.length rest)%nat.
Proof.
  intros root ext. subst root ext.
  split; [apply CachePathName_cons|].
  split; [|split; [|split; [|split; [|split; [|split; [|split; [|split]]]]]]].
  - intros S. rewrite CachePathName_cons. unfold cache_path_layout.
    rewrite (dir_prefix_plain (@QDir_nonempty cache_location) S).
    rewrite !string_app_assoc. reflexivity.
  - intros D S. split; [apply QDir_plain; assumption|].
    rewrite !CachePathName_cons. rewrite (QDir_trailing D).
    rewrite (QDir_plain D S). reflexivity.
  - intros ->. reflexivity.
  - apply CachePathName_nil.
  - apply GetFormatExtension_cases.
  - apply GetFormatExtension_cases.
  - intros f' E. unfold GetFormatExtension. rewrite E. reflexivity.
  - apply (toHex_length [b]).
  - apply toHex_length.
Qed.

Lemma CachePathName_layout_witness :
  CachePathName "/cache" ["171"%byte; "205"%byte; "239"%byte] PIX_FMT_RGBA16F
  = ("/cache/ab/cdef.exr"%string, "/cache/ab"%string)
  /\ CachePathName "/cache/" ["171"%byte; "205"%byte; "239"%byte] PIX_FMT_RGBA16F
     = ("/cache/ab/cdef.exr"%string, "/cache/ab"%string).
Proof.
  pose proof (@CachePathName_layout "/cache" "171"%byte ["205"%byte; "239"%byte]
                PIX_FMT_RGBA16F) as T.
  cbv zeta in T. destruct T as [_ [T1 [T2 _]]].
  assert (D : "/cache"%string <> EmptyString) by discriminate.
  destruct (T2 D eq_refl) as [_ T3]. split.
  - rewrite (T1 eq_refl). reflexivity.
  - change ("/cache/"%string) with ("/cache" ++ "/")%string.
    rewrite T3, (T1 eq_refl). reflexivity.
Defined.

(** The claim C9 as the spec words it fails at the empty hash, which has no
    first byte: the path for the empty hash under [/cache] is [/cache/.exr],
    a file of the cache root itself, and the directory made is the cache root.
    So it is not so that for every hash the path has a first-level directory
    named by the hex encoding of a byte. *)
Lemma CachePathName_empty_hash_unsharded :
  CachePathName "/cache" [] PIX_FMT_RGBA16F = ("/cache/.exr"%string, "/cache"%string)
  /\ ~ (forall (h : QByteArray) (pix_fmt : Format),
          exists b, fst (CachePathName "/cache" h pix_fmt)
                    = cache_path_layout "/cache" b (mid 1 h) (GetFormatExtension pix_fmt)).
Proof.
  split; [reflexivity|].
  intros H. destruct (H [] PIX_FMT_RGBA16F) as [b E].
  rewrite CachePathName_nil in E. unfold cache_path_layout in E.
  cbn [fst mid skipn toHex] in E.
  destruct (byte_toHex_shape b) as [c1 [c2 [S _]]]. rewrite S in E.
  vm_compute in E. discriminate E.
Qed.

(** ** The sample grid *)

Lemma qRound64_near (x : Q) :
  (x - (1 # 2) <= inject_Z (qRound64 x))%Q /\ (inject_Z (qRound64 x) <= x + (1 # 2))%Q.
Proof.
  unfold qRound64. destruct (Qle_bool 0 x).
  - pose proof (Qfloor_le (x + (1 # 2))) as H1.
    pose proof (Qlt_floor (x + (1 # 2))) as H2.
    rewrite inject_Z_plus in H2. split; [|assumption].
    change (inject_Z 1) with 1%Q in H2. lra.
  - pose proof (Qle_ceiling (x - (1 # 2))) as H1.
    pose proof (Qceiling_lt (x - (1 # 2))) as H2.
    unfold Z.sub in H2. rewrite inject_Z_plus in H2. split; [assumption|].
    change (inject_Z (Z.opp 1)) with (Qopp 1) in H2. lra.
Qed.

Section Grid.

Variable timebase : rational.
Hypothesis timebase_pos : (rat_of_Z 0 < timebase)%Qc.

Lemma timebase_pos_Q : (0 < this timebase)%Q.
Proof. exact timebase_pos. Qed.

Lemma timebase_nonzero_Q : ~ (this timebase == 0)%Q.
Proof. pose proof timebase_pos_Q. lra. Qed.

Lemma grid_pos_lt (x y : rational) :
  (x < y)%Qc <-> (grid_pos timebase x < grid_pos timebase y)%Q.
Proof.
  unfold grid_pos, Qdiv, Qclt. symmetry.
  apply Qmult_lt_r, Qinv_lt_0_compat, timebase_pos_Q.
Qed.

Lemma grid_pos_le (x y : rational) :
  (x <= y)%Qc <-> (grid_pos timebase x <= grid_pos timebase y)%Q.
Proof.
  unfold grid_pos, Qdiv, Qcle. symmetry.
  apply Qmult_le_r, Qinv_lt_0_compat, timebase_pos_Q.
Qed.

Lemma grid_pos_instant (k : Z) :
  (grid_pos timebase (grid_instant timebase k) == inject_Z k)%Q.
Proof.
  unfold grid_pos, grid_instant, rat_of_Z, Qcmult, Q2Qc. cbn [this].
  rewrite !Qred_correct. apply Qdiv_mult_l, timebase_nonzero_Q.
Qed.

Lemma grid_pos_next (k : Z) :
  (grid_pos timebase (grid_instant timebase k + timebase)%Qc == inject_Z (k + 1))%Q.
Proof.
  rewrite inject_Z_plus. rewrite <- (grid_pos_instant k).
  unfold grid_pos, grid_instant, rat_of_Z, Qcplus, Qcmult, Q2Qc. cbn [this].
  rewrite !Qred_correct. change (inject_Z 1) with 1%Q.
  field. apply timebase_nonzero_Q.
Qed.

Lemma floor_below (q : Q) (k : Z) : (q < inject_Z k)%Q -> (Qfloor q < k)%Z.
Proof.
  intros H. rewrite Zlt_Qlt. exact (Qle_lt_trans _ _ _ (Qfloor_le q) H).
Qed.

Lemma ceiling_above (q : Q) (k : Z) : (inject_Z k < q)%Q -> (k < Qceiling q)%Z.
Proof.
  intros H. rewrite Zlt_Qlt. exact (Qlt_le_trans _ _ _ H (Qle_ceiling q)).
Qed.

Lemma floor_le_ceiling (p q : Q) : (p <= q)%Q -> (Qfloor p <= Qceiling q)%Z.
Proof.
  intros H. rewrite Zle_Qle.
  exact (Qle_trans _ _ _ (Qfloor_le p) (Qle_trans _ _ _ H (Qle_ceiling q))).
Qed.

(** The sample selected for a time: an instant of the grid at or before the
    time, with the next instant after it. *)
Lemma select_sample_spec (t : rational) :
  exists k : Z,
    select_sample t timebase
    = (grid_instant timebase k, (grid_instant timebase k + timebase)%Qc)
    /\ (grid_instant timebase k <= t)%Qc
    /\ (t < grid_instant timebase k + timebase)%Qc.
Proof.
  unfold select_sample, snap_time_to_timebase.
  set (x := this (t / timebase)%Qc).
  assert (X : (x * this timebase == this t)%Q).
  { subst x. unfold Qcdiv, Qcmult, Qcinv, Q2Qc. cbn [this].
    rewrite !Qred_correct. field. apply timebase_nonzero_Q. }
  destruct (qRound64_near x) as [R1 R2].
  set (r := qRound64 x) in *.
  pose proof timebase_pos_Q as B.
  assert (S : forall a b : Q, (a <= b)%Q -> (a * this timebase <= b * this timebase)%Q).
  { intros a b L. apply Qmult_le_r; assumption. }
  assert (S' : forall a b : Q, (a < b)%Q -> (a * this timebase < b * this timebase)%Q).
  { intros a b L. apply Qmult_lt_r; assumption. }
  destruct (rat_gt (rat_of_Z r * timebase)%Qc t) eqn:G.
  - exists (r - 1)%Z.
    assert (E : (rat_of_Z r * timebase - timebase)%Qc = grid_instant timebase (r - 1)).
    { unfold grid_instant, Z.sub. qc_to_q.
      change ((r + Z.opp 1) # 1)%Q with (inject_Z (r + Z.opp 1)).
      rewrite inject_Z_plus.
      change (inject_Z (Z.opp 1)) with (Qopp 1). unfold inject_Z. ring. }
    rewrite E. split; [|split].
    + f_equal. rewrite <- E. clear. qc_lra.
    + rewrite <- E. clear -R2 X S B.
      specialize (S (inject_Z r - 1)%Q x).
      qc_to_q. rewrite <- X.
      assert (L : ((r # 1) - 1 <= x)%Q) by (unfold inject_Z in R2; lra).
      apply S in L. lra.
    + rewrite <- E. apply rat_lt_spec in G.
      clear -G. qc_lra.
  - exists r. fold (grid_instant timebase r) in *.
    split; [reflexivity|]. split.
    + apply rat_lt_false in G. exact G.
    + clear -R1 X S' B. unfold grid_instant.
      specialize (S' x (inject_Z r + 1)%Q).
      qc_to_q. rewrite <- X.
      assert (L : (x < (r # 1) + 1)%Q) by (unfold inject_Z in R1; lra).
      apply S' in L. lra.
Qed.

End Grid.

(** ** The turns of the expansion are bounded *)

Lemma times_eqb_eq (o1 o2 : option (list rational)) : times_eqb o1 o2 = true -> o1 = o2.
Proof.
  destruct o1 as [l1|], o2 as [l2|]; simpl; try congruence.
  intros E. apply rat_list_eqb_eq in E. congruence.
Qed.

Lemma expand_measure_app (timebase : rational) (l1 l2 : TimeRangeList) :
  expand_measure timebase (l1 ++ l2)
  = (expand_measure timebase l1 + expand_measure timebase l2)%nat.
Proof.
  unfold expand_measure. rewrite map_app, list_sum_app. reflexivity.
Qed.

Section Cell.

Variable timebase : rational.
Hypothesis timebase_pos : (rat_of_Z 0 < timebase)%Qc.
Variable k : Z.

Let s : rational := grid_instant timebase k.
Let n : rational := (s + timebase)%Qc.

Lemma floor_s : Qfloor (grid_pos timebase s) = k.
Proof. subst s. rewrite (grid_pos_instant timebase_pos). apply Qfloor_Z. Qed.

Lemma ceiling_s : Qceiling (grid_pos timebase s) = k.
Proof. subst s. rewrite (grid_pos_instant timebase_pos). apply Qceiling_Z. Qed.

Lemma floor_n : Qfloor (grid_pos timebase n) = (k + 1)%Z.
Proof. subst n s. rewrite (grid_pos_next timebase_pos). apply Qfloor_Z. Qed.

Lemma before_s (x : rational) : (x < s)%Qc -> (Qfloor (grid_pos timebase x) < k)%Z.
Proof.
  intros H. apply floor_below. rewrite <- (grid_pos_instant timebase_pos).
  apply (grid_pos_lt timebase_pos). exact H.
Qed.

Lemma before_n (x : rational) : (x < n)%Qc -> (Qfloor (grid_pos timebase x) < k + 1)%Z.
Proof.
  intros H. apply floor_below. rewrite <- (grid_pos_next timebase_pos).
  apply (grid_pos_lt timebase_pos). exact H.
Qed.

Lemma after_s (x : rational) : (s < x)%Qc -> (k < Qceiling (grid_pos timebase x))%Z.
Proof.
  intros H. apply ceiling_above. rewrite <- (grid_pos_instant timebase_pos).
  apply (grid_pos_lt timebase_pos). exact H.
Qed.

Lemma after_n (x : rational) : (n < x)%Qc -> (k + 1 < Qceiling (grid_pos timebase x))%Z.
Proof.
  intros H. apply ceiling_above. rewrite <- (grid_pos_next timebase_pos).
  apply (grid_pos_lt timebase_pos). exact H.
Qed.

(** Taking a grid cell out of a range never adds weight, and it takes weight
    off a range that starts in the cell. *)
Lemma subtract_weight (c : TimeRange) :
  (expand_measure timebase (TimeRange_subtract c (mkTimeRange s n))
   <= range_weight timebase c)%nat
  /\ ((s <= in_ c)%Qc -> (in_ c < n)%Qc ->
      (expand_measure timebase (TimeRange_subtract c (mkTimeRange s n))
       < range_weight timebase c)%nat).
Proof.
  unfold TimeRange_subtract. cbn [in_ out_].
  destruct (rat_ge (in_ c) s && rat_le (out_ c) n) eqn:C1.
  { unfold expand_measure, range_weight. simpl. split; intros; lia. }
  destruct (rat_lt (in_ c) s && rat_lt n (out_ c)) eqn:C2.
  { apply andb_true_iff in C2. destruct C2 as [A1 A2]. rat_bools.
    unfold expand_measure, range_weight, cells, list_sum.
    cbn [map fold_right in_ out_].
    rewrite ceiling_s, floor_n.
    pose proof (before_s A1). pose proof (after_n A2).
    split; intros; lia. }
  destruct (rat_lt (in_ c) s && rat_lt s (out_ c)) eqn:C3.
  { apply andb_true_iff in C3. destruct C3 as [A1 A2]. rat_bools.
    unfold expand_measure, range_weight, cells, list_sum.
    cbn [map fold_right in_ out_].
    rewrite ceiling_s.
    pose proof (before_s A1). pose proof (after_s A2).
    split; intros; lia. }
  destruct (rat_lt (in_ c) n && rat_lt n (out_ c)) eqn:C4.
  { apply andb_true_iff in C4. destruct C4 as [A1 A2]. rat_bools.
    unfold expand_measure, range_weight, cells, list_sum.
    cbn [map fold_right in_ out_].
    rewrite floor_n.
    pose proof (before_n A1). pose proof (after_n A2).
    split; intros; lia. }
  unfold expand_measure, list_sum. cbn [map fold_right]. split; [lia|].
  intros H1 H2. exfalso.
  apply rat_ge_spec in H1. apply rat_lt_spec in H2.
  rewrite H1 in C1. rewrite H2 in C4. simpl in C1, C4.
  unfold rat_le in C1. rewrite C4 in C1. discriminate.
Qed.

Lemma RemoveTimeRange_measure (l : TimeRangeList) :
  (expand_measure timebase (RemoveTimeRange l (mkTimeRange s n))
   <= expand_measure timebase l)%nat.
Proof.
  unfold RemoveTimeRange. induction l as [|c l IH]; [apply Nat.le_refl|].
  cbn [flat_map]. rewrite expand_measure_app.
  change (expand_measure timebase (c :: l))
    with (range_weight timebase c + expand_measure timebase l)%nat.
  pose proof (proj1 (subtract_weight c)). lia.
Qed.

Lemma RemoveTimeRange_measure_head (c : TimeRange) (l : TimeRangeList) :
  (s <= in_ c)%Qc -> (in_ c < n)%Qc ->
  (expand_measure timebase (RemoveTimeRange (c :: l) (mkTimeRange s n))
   < expand_measure timebase (c :: l))%nat.
Proof.
  intros H1 H2. unfold RemoveTimeRange. cbn [flat_map].
  rewrite expand_measure_app.
  change (expand_measure timebase (c :: l))
    with (range_weight timebase c + expand_measure timebase l)%nat.
  pose proof (proj2 (subtract_weight c) H1 H2).
  pose proof (RemoveTimeRange_measure l) as M. unfold RemoveTimeRange in M. lia.
Qed.

End Cell.

Lemma GetFrameListFromTimeRange_fuel (timebase : rational) :
  (rat_of_Z 0 < timebase)%Qc ->
  forall (fuel : nat) (l : TimeRangeList),
    (expand_measure timebase l <= fuel)%nat ->
    exists times,
      GetFrameListFromTimeRange fuel l timebase = Some times
      /\ Forall (on_grid timebase) times.
Proof.
  intros P. induction fuel as [|fuel IH]; intros [|c l] M.
  - exists []. split; [reflexivity | constructor].
  - exfalso. unfold expand_measure, range_weight in M. simpl in M. lia.
  - exists []. split; [reflexivity | constructor].
  - cbn [GetFrameListFromTimeRange].
    destruct (select_sample_spec P (in_ c)) as [k [E [L1 L2]]]. rewrite E.
    pose proof (@RemoveTimeRange_measure_head timebase P k c l L1 L2) as D.
    destruct (IH (RemoveTimeRange (c :: l)
                    (mkTimeRange (grid_instant timebase k)
                                 (grid_instant timebase k + timebase)%Qc)))
      as [times [R G]]; [lia|].
    rewrite R. exists (grid_instant timebase k :: times).
    split; [reflexivity|]. constructor; [exists k; reflexivity | assumption].
Qed.

Lemma GetFrameListFromTimeRange_more_fuel (timebase : rational) (fuel : nat) :
  forall (l : TimeRangeList) (times : list rational) (fuel' : nat),
    GetFrameListFromTimeRange fuel l timebase = Some times ->
    (fuel <= fuel')%nat ->
    GetFrameListFromTimeRange fuel' l timebase = Some times.
Proof.
  induction fuel as [|fuel IH]; intros [|c l] times fuel' R L.
  - destruct fuel'; exact R.
  - discriminate.
  - destruct fuel'; exact R.
  - destruct fuel' as [|fuel']; [lia|].
    cbn [GetFrameListFromTimeRange] in R |- *.
    destruct (select_sample (in_ c) timebase) as [snapped next].
    destruct (GetFrameListFromTimeRange fuel
                (RemoveTimeRange (c :: l) (mkTimeRange snapped next)) timebase)
      as [times'|] eqn:R'; [|discriminate].
    rewrite (IH _ times' fuel' R') by lia. exact R.
Qed.

(** C5. With a timebase above zero the expansion of any list of ranges
    ends: a number of turns, at most the measure of the list, after which the
    list is empty, and any larger allowance of turns gives the same samples.
    The ranges need not even be disjoint. *)
Theorem GetFrameListFromTimeRange_terminates (range_list : TimeRangeList)
    (timebase : rational) :
  (rat_of_Z 0 < timebase)%Qc ->
  exists times,
    GetFrameListFromTimeRange (expand_measure timebase range_list) range_list timebase
    = Some times
    /\ (forall fuel, (expand_measure timebase range_list <= fuel)%nat ->
          GetFrameListFromTimeRange fuel range_list timebase = Some times)
    /\ (List.length times <= expand_measure timebase range_list)%nat.
Proof.
  intros P.
  destruct (@GetFrameListFromTimeRange_fuel timebase P
              (expand_measure timebase range_list) range_list (Nat.le_refl _))
    as [times [R _]].
  exists times. split; [exact R|]. split.
  - intros fuel L. eapply GetFrameListFromTimeRange_more_fuel; eassumption.
  - clear P. revert R. generalize (expand_measure timebase range_list) as fuel.
    intros fuel. revert range_list times.
    induction fuel as [|fuel IH]; intros [|c l] times R;
      cbn [GetFrameListFromTimeRange] in R.
    + injection R as <-. apply Nat.le_refl.
    + discriminate.
    + injection R as <-. simpl. lia.
    + destruct (select_sample (in_ c) timebase) as [snapped next].
      destruct (GetFrameListFromTimeRange fuel
                  (RemoveTimeRange (c :: l) (mkTimeRange snapped next)) timebase)
        as [times'|] eqn:R'; [|discriminate].
      injection R as <-. simpl. apply IH in R'. lia.
Qed.

Lemma GetFrameListFromTimeRange_terminates_witness :
  exists times,
    GetFrameListFromTimeRange
      (expand_measure (rat_of_Z 1) [mkTimeRange (rat_of_Z 0) (rat_of_Z 3)])
      [mkTimeRange (rat_of_Z 0) (rat_of_Z 3)] (rat_of_Z 1) = Some times.
Proof.
  destruct (@GetFrameListFromTimeRange_terminates
              [mkTimeRange (rat_of_Z 0) (rat_of_Z 3)] (rat_of_Z 1) eq_refl)
    as [times [R _]].
  exists times. exact R.
Defined.

(** ** One turn of the expansion *)

Lemma snap_time_to_timebase_nearest (timebase t : rational) :
  (rat_of_Z 0 < timebase)%Qc ->
  on_grid timebase (snap_time_to_timebase t timebase)
  /\ (snap_time_to_timebase t timebase - rat 1 2 * timebase <= t)%Qc
  /\ (t <= snap_time_to_timebase t timebase + rat 1 2 * timebase)%Qc.
Proof.
  intros P. split; [exists (qRound64 (this (t / timebase)%Qc)); reflexivity|].
  unfold snap_time_to_timebase.
  set (x := this (t / timebase)%Qc).
  pose proof (timebase_pos_Q P) as B.
  assert (X : (x * this timebase == this t)%Q).
  { subst x. unfold Qcdiv, Qcmult, Qcinv, Q2Qc. cbn [this].
    rewrite !Qred_correct. field. apply (timebase_nonzero_Q P). }
  destruct (qRound64_near x) as [R1 R2].
  set (r := qRound64 x) in *.
  assert (S : forall a b : Q, (a <= b)%Q -> (a * this timebase <= b * this timebase)%Q).
  { intros a b L. apply Qmult_le_r; assumption. }
  split.
  - clear -R2 X S B. specialize (S (inject_Z r - (1 # 2))%Q x).
    qc_to_q. rewrite <- X.
    assert (L : ((r # 1) - (1 # 2) <= x)%Q) by (unfold inject_Z in R2; lra).
    apply S in L. lra.
  - clear -R1 X S B. specialize (S x (inject_Z r + (1 # 2))%Q).
    qc_to_q. rewrite <- X.
    assert (L : (x <= (r # 1) + (1 # 2))%Q) by (unfold inject_Z in R1; lra).
    apply S in L. lra.
Qed.

(** C4. A turn of [GetFrameListFromTimeRange] on a list that starts with
    [range0]: the start [t] of [range0] is snapped to the nearest instant of
    the grid; when the snapped instant is after [t] the sample selected is
    [snapped - timebase] and the next boundary is [snapped], otherwise the
    sample is [snapped] and the boundary [snapped + timebase]; the sample is
    emitted and the range from the sample to the boundary is taken out of the
    list before the next turn, and the run ends on the empty list.  The sample
    is an instant of the grid, [t] lies from it up to the boundary, which is
    one timebase later.  The range [[0, 3)] with timebase 1 gives 0, 1, 2. *)
Theorem GetFrameListFromTimeRange_turn (range0 : TimeRange) (rest : TimeRangeList)
    (timebase : rational) (fuel : nat) :
  (rat_of_Z 0 < timebase)%Qc ->
  let t := in_ range0 in
  let snapped := snap_time_to_timebase t timebase in
  let selected := if rat_gt snapped t then (snapped - timebase)%Qc else snapped in
  let next := if rat_gt snapped t then snapped else (snapped + timebase)%Qc in
  GetFrameListFromTimeRange (S fuel) (range0 :: rest) timebase
  = option_map (cons selected)
      (GetFrameListFromTimeRange fuel
         (RemoveTimeRange (range0 :: rest) (mkTimeRange selected next)) timebase)
  /\ GetFrameListFromTimeRange fuel [] timebase = Some []
  /\ on_grid timebase snapped
  /\ (snapped - rat 1 2 * timebase <= t)%Qc
  /\ (t <= snapped + rat 1 2 * timebase)%Qc
  /\ on_grid timebase selected
  /\ next = (selected + timebase)%Qc
  /\ (selected <= t)%Qc /\ (t < next)%Qc
  /\ (forall n, (3 <= n)%nat ->
        GetFrameListFromTimeRange n [mkTimeRange (rat_of_Z 0) (rat_of_Z 3)] (rat_of_Z 1)
        = Some [rat_of_Z 0; rat_of_Z 1; rat_of_Z 2]).
Proof.
  intros P t snapped selected next.
  split.
  { cbn [GetFrameListFromTimeRange]. unfold select_sample.
    fold t. fold snapped. subst selected next.
    destruct (rat_gt snapped t);
      destruct (GetFrameListFromTimeRange fuel _ timebase); reflexivity. }
  split; [destruct fuel; reflexivity|].
  destruct (snap_time_to_timebase_nearest t P) as [G [N1 N2]].
  split; [exact G|]. split; [exact N1|]. split; [exact N2|].
  destruct (select_sample_spec P t) as [k [E [L1 L2]]].
  unfold select_sample in E. fold snapped in E.
  assert (S : selected = grid_instant timebase k
              /\ next = (grid_instant timebase k + timebase)%Qc).
  { subst selected next.
    destruct (rat_gt snapped t); apply pair_equal_spec in E; exact E. }
  destruct S as [S1 S2].
  split; [exists k; exact S1|].
  split; [rewrite S1; exact S2|].
  split; [rewrite S1; exact L1|].
  split; [rewrite S2; exact L2|].
  intros n L. apply GetFrameListFromTimeRange_more_fuel with (fuel := 3%nat);
    [|exact L].
  apply times_eqb_eq. vm_compute. reflexivity.
Qed.

Lemma GetFrameListFromTimeRange_turn_witness :
  GetFrameListFromTimeRange 3 [mkTimeRange (rat_of_Z 0) (rat_of_Z 3)] (rat_of_Z 1)
  = Some [rat_of_Z 0; rat_of_Z 1; rat_of_Z 2]
  /\ (snap_time_to_timebase (rat 3 10) (rat_of_Z 1) <= rat 3 10)%Qc.
Proof.
  pose proof (@GetFrameListFromTimeRange_turn
                (mkTimeRange (rat 3 10) (rat_of_Z 3)) [] (rat_of_Z 1) 0 eq_refl) as T.
  cbv zeta in T.
  destruct T as [_ [_ [_ [_ [_ [_ [_ [T1 [_ T2]]]]]]]]].
  split; [apply T2; apply Nat.le_refl | exact T1].
Defined.

(** ** A timebase that is not above zero *)

Lemma select_sample_backwards (t timebase : rational) :
  (timebase <= rat_of_Z 0)%Qc ->
  (t < snd (select_sample t timebase)
   /\ snd (select_sample t timebase) <= fst (select_sample t timebase))%Qc
  \/ (snd (select_sample t timebase) <= fst (select_sample t timebase)
      /\ fst (select_sample t timebase) <= t)%Qc.
Proof.
  intros N. unfold select_sample.
  destruct (rat_gt (snap_time_to_timebase t timebase) t) eqn:G; cbn [fst snd].
  - left. apply rat_lt_spec in G. split; [exact G|].
    clear -N. generalize (snap_time_to_timebase t timebase). intros s. qc_lra.
  - right. apply rat_lt_false in G. split; [|exact G].
    clear -N. generalize (snap_time_to_timebase t timebase). intros s. qc_lra.
Qed.

(** Taking out a range that ends before it starts, and that lies on one side
    of the start of [c], leaves the start of [c] where it is. *)
Lemma TimeRange_subtract_head_stays (c remove : TimeRange) :
  (in_ c < out_ c)%Qc ->
  ((in_ c < out_ remove /\ out_ remove <= in_ remove)%Qc
   \/ (out_ remove <= in_ remove /\ in_ remove <= in_ c)%Qc) ->
  head_nonempty (TimeRange_subtract c remove).
Proof.
  intros NE H. unfold TimeRange_subtract.
  destruct (rat_ge (in_ c) (in_ remove) && rat_le (out_ c) (out_ remove)) eqn:C1.
  { exfalso. apply andb_true_iff in C1. destruct C1 as [A1 A2]. rat_bools.
    clear -NE H A1 A2. destruct H as [[H1 H2]|[H1 H2]]; qc_to_q; lra. }
  destruct (rat_lt (in_ c) (in_ remove) && rat_lt (out_ remove) (out_ c)) eqn:C2.
  { apply andb_true_iff in C2. destruct C2 as [A1 A2]. rat_bools. exact A1. }
  destruct (rat_lt (in_ c) (in_ remove) && rat_lt (in_ remove) (out_ c)) eqn:C3.
  { apply andb_true_iff in C3. destruct C3 as [A1 A2]. rat_bools. exact A1. }
  destruct (rat_lt (in_ c) (out_ remove) && rat_lt (out_ remove) (out_ c)) eqn:C4.
  { exfalso. apply andb_true_iff in C4. destruct C4 as [A1 A2].
    rewrite A2 in C2. rewrite andb_true_r in C2. rat_bools.
    clear -NE H A1 A2 C2. destruct H as [[H1 H2]|[H1 H2]]; qc_to_q; lra. }
  exact NE.
Qed.

Lemma head_nonempty_app (l1 l2 : TimeRangeList) :
  head_nonempty l1 -> head_nonempty (l1 ++ l2).
Proof. destruct l1; simpl; tauto. Qed.

(** With a timebase that is not above zero, a list whose first range is not
    empty never gets shorter at its head: no number of turns ends the loop. *)
Lemma GetFrameListFromTimeRange_diverges (timebase : rational) :
  (timebase <= rat_of_Z 0)%Qc ->
  forall (fuel : nat) (l : TimeRangeList),
    head_nonempty l -> GetFrameListFromTimeRange fuel l timebase = None.
Proof.
  intros N. induction fuel as [|fuel IH]; intros [|c l] H; simpl in H;
    try contradiction; [reflexivity|].
  cbn [GetFrameListFromTimeRange].
  pose proof (select_sample_backwards (in_ c) N) as B.
  destruct (select_sample (in_ c) timebase) as [snapped next]. cbn [fst snd] in B.
  rewrite IH; [reflexivity|].
  unfold RemoveTimeRange. cbn [flat_map].
  apply head_nonempty_app, TimeRange_subtract_head_stays; assumption.
Qed.

(** C6, as the code has it.  [GetFrameListFromTimeRange] does not look at
    the sign of the timebase.  With a timebase that is not above zero it
    returns at once on an empty list, and on a list whose first range is not
    empty it never returns: every allowance of turns runs out. *)
Theorem GetFrameListFromTimeRange_unguarded (range_list : TimeRangeList)
    (timebase : rational) :
  (timebase <= rat_of_Z 0)%Qc ->
  (range_list = [] ->
     forall fuel, GetFrameListFromTimeRange fuel range_list timebase = Some [])
  /\ (head_nonempty range_list ->
     forall fuel, GetFrameListFromTimeRange fuel range_list timebase = None).
Proof.
  intros N. split.
  - intros -> fuel. destruct fuel; reflexivity.
  - intros H fuel. apply GetFrameListFromTimeRange_diverges; assumption.
Qed.

Lemma GetFrameListFromTimeRange_unguarded_witness :
  GetFrameListFromTimeRange 1000 [mkTimeRange (rat_of_Z 0) (rat_of_Z 3)] (rat_of_Z 0)
  = None.
Proof.
  apply (@GetFrameListFromTimeRange_unguarded
           [mkTimeRange (rat_of_Z 0) (rat_of_Z 3)] (rat_of_Z 0)).
  - discriminate.
  - reflexivity.
Defined.

(** The claim C6 as the spec words it fails: with timebase -1 the call on
    [[0, 3)] does not fail fast, it never comes back at all. *)
Lemma GetFrameListFromTimeRange_no_fail_fast :
  ~ (exists fuel,
       GetFrameListFromTimeRange fuel [mkTimeRange (rat_of_Z 0) (rat_of_Z 3)]
         (rat_of_Z (-1)) <> None).
Proof.
  intros [fuel H]. apply H.
  apply GetFrameListFromTimeRange_diverges.
  - discriminate.
  - reflexivity.
Qed.

(** * Further properties of the index *)


Lemma GetFramesWithHash_loop_filter (h : QByteArray) (m : QMap) :
  GetFramesWithHash_loop h m
  = QMap_keys (filter (fun e => QByteArray_eqb (snd e) h) m).
Proof.
  induction m as [|[k v] m IH]; simpl; [reflexivity|].
  destruct (QByteArray_eqb v h); simpl; congruence.
Qed.

Lemma QByteArray_eqb_refl (h : QByteArray) : QByteArray_eqb h h = true.
Proof. apply QByteArray_eqb_spec. reflexivity. Qed.

(** X1. [GetFramesWithHash(h)] lists the keys that are mapped to [h] and
    no other, each once and by ascending time; for a hash that is not empty
    these are the times at which [GetHash] answers [h]. *)
Theorem GetFramesWithHash_exact (c : FrameHashCache) (h : QByteArray) :
  QMap_ok (time_hash_map_ c) ->
  (forall k, In k (GetFramesWithHash c h)
             <-> QMap_find (time_hash_map_ c) k = Some h)
  /\ StronglySorted Qclt (GetFramesWithHash c h)
  /\ (h <> [] -> forall k, In k (GetFramesWithHash c h) <-> GetHash c k = h).
Proof.
  intros O. unfold GetFramesWithHash. rewrite GetFramesWithHash_loop_filter.
  assert (A : forall k,
    In k (QMap_keys (filter (fun e => QByteArray_eqb (snd e) h) (time_hash_map_ c)))
    <-> QMap_find (time_hash_map_ c) k = Some h).
  { intros k. unfold QMap_keys. rewrite in_map_iff. split.
    - intros [[k1 v1] [E I]]. simpl in E. subst k1.
      apply filter_In in I. destruct I as [I1 I2]. simpl in I2.
      apply QByteArray_eqb_spec in I2. subst v1.
      apply QMap_In_find; assumption.
    - intros F. apply QMap_find_In in F. exists (k, h). split; [reflexivity|].
      apply filter_In. split; [assumption|]. apply QByteArray_eqb_refl. }
  split; [exact A|]. split.
  - apply (@QMap_ok_filter _ (time_hash_map_ c) O).
  - intros N k. rewrite A. unfold GetHash, QMap_value.
    destruct (QMap_find (time_hash_map_ c) k) as [v|]; split; congruence.
Qed.

Lemma GetFramesWithHash_exact_witness :
  In (rat_of_Z 1) (GetFramesWithHash cache_example h_a).
Proof.
  assert (O : QMap_ok (time_hash_map_ cache_example)).
  { unfold QMap_ok. simpl. repeat constructor. }
  apply (proj1 (@GetFramesWithHash_exact cache_example h_a O)). reflexivity.
Defined.

Lemma filter_filter_false {A : Type} (p q : A -> bool) (l : list A) :
  (forall x, p x = true -> q x = false) -> filter q (filter p l) = [].
Proof.
  intros H. induction l as [|x l IH]; simpl; [reflexivity|].
  destruct (p x) eqn:P; simpl; [|exact IH].
  rewrite (H x P). exact IH.
Qed.

Lemma filter_filter_same {A : Type} (p q : A -> bool) (l : list A) :
  (forall x, q x = true -> p x = true) -> filter q (filter p l) = filter q l.
Proof.
  intros H. induction l as [|x l IH]; simpl; [reflexivity|].
  destruct (p x) eqn:P; simpl.
  - rewrite IH. reflexivity.
  - destruct (q x) eqn:Q; [|exact IH].
    rewrite (H x Q) in P. discriminate.
Qed.

Lemma GetFramesWithHash_after_Take (c : FrameHashCache) (h : QByteArray) :
  GetFramesWithHash (fst (fst (TakeFramesWithHash c h))) h = [].
Proof.
  unfold TakeFramesWithHash, GetFramesWithHash.
  pose proof (TakeFramesWithHash_loop_map h (time_hash_map_ c)) as M.
  destruct (TakeFramesWithHash_loop h (time_hash_map_ c)) as [[m' times] tr].
  simpl in M. simpl. subst m'.
  rewrite GetFramesWithHash_loop_filter, filter_filter_false; [reflexivity|].
  intros [k v] P. simpl in *. apply negb_true_iff in P. exact P.
Qed.

(** X2. [TakeFramesWithHash(h)] returns the list that [GetFramesWithHash(h)]
    reported before the call; after it [GetFramesWithHash(h)] is empty, and
    the list of every other hash is what it was. *)
Theorem TakeFramesWithHash_then_Get (c : FrameHashCache) (h : QByteArray) :
  let c' := fst (fst (TakeFramesWithHash c h)) in
  snd (TakeFramesWithHash c h) = GetFramesWithHash c h
  /\ GetFramesWithHash c' h = []
  /\ (forall h', h' <> h -> GetFramesWithHash c' h' = GetFramesWithHash c h').
Proof.
  unfold TakeFramesWithHash, GetFramesWithHash.
  pose proof (TakeFramesWithHash_loop_map h (time_hash_map_ c)) as M.
  pose proof (TakeFramesWithHash_loop_Get h (time_hash_map_ c)) as G.
  destruct (TakeFramesWithHash_loop h (time_hash_map_ c)) as [[m' times] tr].
  simpl in M, G. simpl. subst m'.
  split; [exact G|]. split.
  - rewrite GetFramesWithHash_loop_filter, filter_filter_false; [reflexivity|].
    intros [k v] P. simpl in *. apply negb_true_iff in P. exact P.
  - intros h' N. rewrite !GetFramesWithHash_loop_filter, filter_filter_same;
      [reflexivity|].
    intros [k v] Q. simpl in *. apply QByteArray_eqb_spec in Q. subst v.
    apply negb_true_iff, QByteArray_eqb_false. exact N.
Qed.

Lemma filter_none {A : Type} (p : A -> bool) (l : list A) :
  (forall x, In x l -> p x = true) -> filter p l = l.
Proof.
  intros H. induction l as [|x l IH]; simpl; [reflexivity|].
  rewrite (H x) by (left; reflexivity).
  rewrite IH; [reflexivity|]. intros y I. apply H. right. exact I.
Qed.

Lemma TakeFramesWithHash_then_Get_witness :
  GetFramesWithHash (fst (fst (TakeFramesWithHash cache_example h_b))) h_a
  = GetFramesWithHash cache_example h_a.
Proof.
  apply (TakeFramesWithHash_then_Get cache_example h_b). discriminate.
Defined.

(** X3. When no entry of the index has the hash [h],
    [TakeFramesWithHash(h)] leaves the cache as it is, returns no time, and
    all it does is release the mutex: no invalidation, no signal.  So it is
    after a first [TakeFramesWithHash(h)]: the second one finds nothing. *)
Theorem TakeFramesWithHash_nothing_to_take (c : FrameHashCache) (h : QByteArray) :
  (GetFramesWithHash c h = [] -> TakeFramesWithHash c h = (c, [Unlock], []))
  /\ TakeFramesWithHash (fst (fst (TakeFramesWithHash c h))) h
     = (fst (fst (TakeFramesWithHash c h)), [Unlock], []).
Proof.
  assert (G : forall c0, GetFramesWithHash c0 h = [] ->
                         TakeFramesWithHash c0 h = (c0, [Unlock], [])).
  { intros c0 E. unfold TakeFramesWithHash.
    pose proof (TakeFramesWithHash_loop_map h (time_hash_map_ c0)) as M.
    pose proof (TakeFramesWithHash_loop_Get h (time_hash_map_ c0)) as T.
    pose proof (TakeFramesWithHash_loop_trace h (time_hash_map_ c0)) as R.
    destruct (TakeFramesWithHash_loop h (time_hash_map_ c0)) as [[m' times] tr].
    simpl in M, T, R. unfold GetFramesWithHash in E. rewrite E in T. subst times tr.
    simpl.
    assert (X : m' = time_hash_map_ c0).
    { rewrite M. apply filter_none. intros [k v] I. simpl.
      apply negb_true_iff, QByteArray_eqb_false. intros ->.
      rewrite GetFramesWithHash_loop_filter in E.
      assert (J : In k (QMap_keys (filter (fun e => QByteArray_eqb (snd e) h)
                                          (time_hash_map_ c0)))).
      { unfold QMap_keys. apply in_map_iff. exists (k, h). split; [reflexivity|].
        apply filter_In. split; [assumption | apply QByteArray_eqb_refl]. }
      rewrite E in J. exact J. }
    rewrite X. destruct c0; reflexivity. }
  split; [apply G|].
  apply G. apply GetFramesWithHash_after_Take.
Qed.

Lemma TakeFramesWithHash_nothing_to_take_witness :
  TakeFramesWithHash cache_example h_b = (cache_example, [Unlock], []).
Proof.
  apply (proj1 (TakeFramesWithHash_nothing_to_take cache_example h_b)). reflexivity.
Defined.

(** ** The invariant of the index *)

Lemma LengthChangedEvent_ok (old newlen : rational) (m : QMap) :
  QMap_ok m -> QMap_ok (fst (LengthChangedEvent old newlen m)).
Proof.
  intros O. unfold LengthChangedEvent. destruct (rat_lt newlen old); [|exact O].
  rewrite LengthChangedEvent_loop_filter. apply QMap_ok_filter, O.
Qed.

Lemma InvalidateEvent_ok (r : TimeRange) (m : QMap) :
  QMap_ok m -> QMap_ok (fst (InvalidateEvent r m)).
Proof.
  intros O. rewrite InvalidateEvent_filter. apply QMap_ok_filter, O.
Qed.

(** X4. Every function that writes to the index keeps its keys ascending
    and distinct: [SetHash], [TakeFramesWithHash], [LengthChangedEvent],
    [InvalidateEvent] and [ShiftEvent]. *)
Theorem index_stays_ordered (c : FrameHashCache) :
  QMap_ok (time_hash_map_ c) ->
  (forall t h jt, QMap_ok (time_hash_map_ (fst (SetHash c t h jt))))
  /\ (forall h, QMap_ok (time_hash_map_ (fst (fst (TakeFramesWithHash c h)))))
  /\ (forall old newlen,
        QMap_ok (fst (LengthChangedEvent old newlen (time_hash_map_ c))))
  /\ (forall r, QMap_ok (time_hash_map_ (fst (FrameHashCache_InvalidateEvent c r))))
  /\ (forall from to, QMap_ok (fst (ShiftEvent from to (time_hash_map_ c)))).
Proof.
  intros O. split; [|split; [|split; [|split]]].
  - intros t h jt. unfold SetHash.
    destruct (negb (SetHash_scan (jobs_ c) (List.length (jobs_ c)) t jt)); simpl;
      [exact O | apply QMap_ok_insert, O].
  - intros h. unfold TakeFramesWithHash.
    pose proof (TakeFramesWithHash_loop_map h (time_hash_map_ c)) as M.
    destruct (TakeFramesWithHash_loop h (time_hash_map_ c)) as [[m' times] tr].
    simpl in M. simpl. subst m'. apply QMap_ok_filter, O.
  - intros old newlen. apply LengthChangedEvent_ok, O.
  - intros r. unfold FrameHashCache_InvalidateEvent.
    pose proof (InvalidateEvent_ok r O) as I.
    destruct (InvalidateEvent r (time_hash_map_ c)) as [m' tr]. exact I.
  - intros from to. apply ShiftEvent_ok, O.
Qed.

Lemma index_stays_ordered_witness :
  QMap_ok (fst (ShiftEvent (rat_of_Z 5) (rat_of_Z 2) (time_hash_map_ cache_example))).
Proof.
  assert (O : QMap_ok (time_hash_map_ cache_example)).
  { unfold QMap_ok. simpl. repeat constructor. }
  apply (@index_stays_ordered cache_example O).
Defined.

(** ** More on the currency check *)

Lemma SetHash_result (c : FrameHashCache) (t : rational) (h : QByteArray) (jt : Z) :
  SetHash c t h jt
  = if SetHash_scan (jobs_ c) (List.length (jobs_ c)) t jt
    then (set_time_hash_map c (QMap_insert (time_hash_map_ c) t h),
          [MapInsert t h; NoLockValidate (sample_range (timebase_ c) t); Unlock;
           EmitValidated (sample_range (timebase_ c) t)])
    else (c, []).
Proof.
  unfold SetHash.
  destruct (SetHash_scan (jobs_ c) (List.length (jobs_ c)) t jt); reflexivity.
Qed.

(** X5. The order of the job ledger does not matter to [SetHash]: with the
    same jobs in another order the completion is accepted or dropped alike,
    with the same index and the same calls and signals. *)
Theorem SetHash_job_order_irrelevant (c : FrameHashCache)
    (jobs' : list JobIdentifier) (t : rational) (h : QByteArray) (jt : Z) :
  Permutation (jobs_ c) jobs' ->
  time_hash_map_ (fst (SetHash (with_jobs c jobs') t h jt))
  = time_hash_map_ (fst (SetHash c t h jt))
  /\ snd (SetHash (with_jobs c jobs') t h jt) = snd (SetHash c t h jt).
Proof.
  intros P.
  assert (E : SetHash_scan jobs' (List.length jobs') t jt
              = SetHash_scan (jobs_ c) (List.length (jobs_ c)) t jt).
  { destruct (SetHash_scan (jobs_ c) (List.length (jobs_ c)) t jt) eqn:S.
    - apply SetHash_scan_spec in S. apply SetHash_scan_spec.
      destruct S as [job [I A]]. exists job. split; [|exact A].
      eapply Permutation_in; eassumption.
    - destruct (SetHash_scan jobs' (List.length jobs') t jt) eqn:S'; [|reflexivity].
      apply SetHash_scan_spec in S'. destruct S' as [job [I A]].
      assert (S2 : SetHash_scan (jobs_ c) (List.length (jobs_ c)) t jt = true).
      { apply SetHash_scan_spec. exists job. split; [|exact A].
        eapply Permutation_in; [apply Permutation_sym|]; eassumption. }
      congruence. }
  rewrite !SetHash_result. cbn [with_jobs jobs_ time_hash_map_ timebase_].
  rewrite E.
  destruct (SetHash_scan (jobs_ c) (List.length (jobs_ c)) t jt); split; reflexivity.
Qed.

Lemma SetHash_job_order_irrelevant_witness :
  snd (SetHash (with_jobs cache_example (rev (jobs_ cache_example)))
         (rat_of_Z 7) h_b 5)
  = snd (SetHash cache_example (rat_of_Z 7) h_b 5).
Proof.
  apply (@SetHash_job_order_irrelevant cache_example (rev (jobs_ cache_example))).
  apply Permutation_rev.
Defined.

(** X6. A completion for a time that no job covers is dropped whatever its
    [job_time], so it is with an empty ledger; and a completion that is
    accepted with one [job_time] is accepted with every later one. *)
Theorem SetHash_uncovered_and_monotone (c : FrameHashCache) (t : rational)
    (h : QByteArray) (jt : Z) :
  ((forall job, In job (jobs_ c) -> Contains (range job) t = false) ->
     SetHash c t h jt = (c, []))
  /\ (jobs_ c = [] -> SetHash c t h jt = (c, []))
  /\ (forall jt', (jt <= jt')%Z -> snd (SetHash c t h jt) <> [] ->
        SetHash c t h jt' = SetHash c t h jt).
Proof.
  assert (U : (forall job, In job (jobs_ c) -> Contains (range job) t = false) ->
              SetHash c t h jt = (c, [])).
  { intros N. rewrite SetHash_result.
    destruct (SetHash_scan (jobs_ c) (List.length (jobs_ c)) t jt) eqn:S;
      [|reflexivity].
    apply SetHash_scan_spec in S. destruct S as [job [I [A _]]].
    apply Contains_spec in A. rewrite (N job I) in A. discriminate. }
  split; [exact U|]. split.
  - intros E. apply U. rewrite E. intros job [].
  - intros jt' L N. rewrite !SetHash_result in *.
    destruct (SetHash_scan (jobs_ c) (List.length (jobs_ c)) t jt) eqn:S;
      [|exfalso; apply N; reflexivity].
    assert (S' : SetHash_scan (jobs_ c) (List.length (jobs_ c)) t jt' = true).
    { apply SetHash_scan_spec in S. apply SetHash_scan_spec.
      destruct S as [job [I [A B]]]. exists job.
      split; [exact I|]. split; [exact A | lia]. }
    rewrite S'. reflexivity.
Qed.

Lemma SetHash_uncovered_and_monotone_witness :
  SetHash cache_example (rat_of_Z 12) h_b 9 = (cache_example, [])
  /\ SetHash cache_example (rat_of_Z 1) h_b 9 = SetHash cache_example (rat_of_Z 1) h_b 5.
Proof.
  split.
  - apply (proj1 (SetHash_uncovered_and_monotone cache_example (rat_of_Z 12) h_b 9)).
    intros job [<- | [<- | []]]; reflexivity.
  - apply (proj2 (proj2 (SetHash_uncovered_and_monotone cache_example
                           (rat_of_Z 1) h_b 5)));
      [lia | discriminate].
Defined.

Lemma QMap_insert_insert (m : QMap) (k : rational) (v1 v2 : QByteArray) :
  QMap_insert (QMap_insert m k v1) k v2 = QMap_insert m k v2.
Proof.
  assert (I : rat_lt k k = false) by (apply rat_lt_false, Qcle_refl).
  induction m as [|[k0 v0] m IH]; simpl.
  - rewrite I. reflexivity.
  - destruct (rat_lt k k0) eqn:L1; simpl.
    + rewrite I. reflexivity.
    + destruct (rat_lt k0 k) eqn:L2; simpl.
      * rewrite L1, L2, IH. reflexivity.
      * rewrite I. reflexivity.
Qed.

Lemma QMap_insert_comm (m : QMap) (k1 k2 : rational) (v1 v2 : QByteArray) :
  QMap_ok m -> k1 <> k2 ->
  QMap_insert (QMap_insert m k1 v1) k2 v2 = QMap_insert (QMap_insert m k2 v2) k1 v1.
Proof.
  intros O N. apply QMap_ext; try (apply QMap_ok_insert, QMap_ok_insert, O).
  intros k. rewrite !QMap_find_insert.
  destruct (rat_eq k2 k) eqn:E2; destruct (rat_eq k1 k) eqn:E1; try reflexivity.
  rat_bools. congruence.
Qed.

Lemma SetHash_jobs (c : FrameHashCache) (t : rational) (h : QByteArray) (jt : Z) :
  jobs_ (fst (SetHash c t h jt)) = jobs_ c
  /\ timebase_ (fst (SetHash c t h jt)) = timebase_ c.
Proof.
  rewrite SetHash_result.
  destruct (SetHash_scan (jobs_ c) (List.length (jobs_ c)) t jt); split; reflexivity.
Qed.

(** X7. Of two completions for the same time the last accepted one wins:
    once the second is accepted the cache is the one that the second alone
    would have left, whether the first was accepted or dropped. *)
Theorem SetHash_last_wins (c : FrameHashCache) (t : rational)
    (h1 h2 : QByteArray) (jt1 jt2 : Z) :
  snd (SetHash c t h2 jt2) <> [] ->
  fst (SetHash (fst (SetHash c t h1 jt1)) t h2 jt2) = fst (SetHash c t h2 jt2)
  /\ GetHash (fst (SetHash (fst (SetHash c t h1 jt1)) t h2 jt2)) t = h2.
Proof.
  intros A.
  assert (S2 : SetHash_scan (jobs_ c) (List.length (jobs_ c)) t jt2 = true).
  { rewrite SetHash_result in A.
    destruct (SetHash_scan (jobs_ c) (List.length (jobs_ c)) t jt2);
      [reflexivity | exfalso; apply A; reflexivity]. }
  assert (E : fst (SetHash (fst (SetHash c t h1 jt1)) t h2 jt2)
              = fst (SetHash c t h2 jt2)).
  { rewrite (SetHash_result (fst (SetHash c t h1 jt1))).
    destruct (SetHash_jobs c t h1 jt1) as [J T]. rewrite J, S2.
    rewrite (SetHash_result c t h2), S2. cbn [fst].
    rewrite (SetHash_result c t h1).
    destruct (SetHash_scan (jobs_ c) (List.length (jobs_ c)) t jt1); cbn [fst].
    - unfold set_time_hash_map. cbn [time_hash_map_ jobs_ timebase_].
      rewrite QMap_insert_insert. reflexivity.
    - reflexivity. }
  split; [exact E|].
  rewrite E, SetHash_result, S2. unfold GetHash, QMap_value. cbn [fst].
  unfold set_time_hash_map. cbn [time_hash_map_].
  rewrite QMap_find_insert, rat_eq_refl. reflexivity.
Qed.

Lemma SetHash_last_wins_witness :
  GetHash (fst (SetHash (fst (SetHash cache_example (rat_of_Z 2) h_b 5))
                  (rat_of_Z 2) h_c 4)) (rat_of_Z 2) = h_c.
Proof.
  apply (@SetHash_last_wins cache_example (rat_of_Z 2) h_b h_c 5 4). discriminate.
Defined.

(** X8. Completions for two different times can be recorded in either
    order: the index is the same. *)
Theorem SetHash_commutes (c : FrameHashCache) (t1 t2 : rational)
    (h1 h2 : QByteArray) (jt1 jt2 : Z) :
  QMap_ok (time_hash_map_ c) -> t1 <> t2 ->
  fst (SetHash (fst (SetHash c t1 h1 jt1)) t2 h2 jt2)
  = fst (SetHash (fst (SetHash c t2 h2 jt2)) t1 h1 jt1).
Proof.
  intros O N.
  rewrite (SetHash_result (fst (SetHash c t1 h1 jt1))).
  rewrite (SetHash_result (fst (SetHash c t2 h2 jt2))).
  destruct (SetHash_jobs c t1 h1 jt1) as [J1 T1]. rewrite J1.
  destruct (SetHash_jobs c t2 h2 jt2) as [J2 T2]. rewrite J2.
  rewrite (SetHash_result c t1 h1), (SetHash_result c t2 h2).
  destruct (SetHash_scan (jobs_ c) (List.length (jobs_ c)) t1 jt1);
    destruct (SetHash_scan (jobs_ c) (List.length (jobs_ c)) t2 jt2);
    cbn [fst]; try reflexivity.
  unfold set_time_hash_map. cbn [time_hash_map_ jobs_ timebase_].
  rewrite (@QMap_insert_comm (time_hash_map_ c) t1 t2 h1 h2 O N). reflexivity.
Qed.

Lemma SetHash_commutes_witness :
  fst (SetHash (fst (SetHash cache_example (rat_of_Z 2) h_b 5)) (rat_of_Z 3) h_c 5)
  = fst (SetHash (fst (SetHash cache_example (rat_of_Z 3) h_c 5)) (rat_of_Z 2) h_b 5).
Proof.
  apply SetHash_commutes.
  - unfold QMap_ok. simpl. repeat constructor.
  - discriminate.
Defined.

Lemma filter_insert_absent (h : QByteArray) (m : QMap) (t : rational) :
  QMap_find m t = None ->
  filter (fun e => negb (QByteArray_eqb (snd e) h)) (QMap_insert m t h)
  = filter (fun e => negb (QByteArray_eqb (snd e) h)) m.
Proof.
  induction m as [|[k0 v0] m IH]; simpl; intros F.
  - rewrite QByteArray_eqb_refl. reflexivity.
  - destruct (rat_eq k0 t) eqn:E; [discriminate|].
    destruct (rat_lt t k0) eqn:L1; simpl.
    + rewrite QByteArray_eqb_refl. reflexivity.
    + destruct (rat_lt k0 t) eqn:L2; simpl.
      * rewrite IH by assumption. reflexivity.
      * exfalso. rat_bools. apply E. apply Qcle_antisym; assumption.
Qed.

Lemma filter_insert_fresh (h : QByteArray) (m : QMap) (t : rational) :
  (forall e, In e m -> snd e <> h) ->
  filter (fun e => QByteArray_eqb (snd e) h) (QMap_insert m t h) = [(t, h)].
Proof.
  induction m as [|[k0 v0] m IH]; simpl; intros F.
  - rewrite QByteArray_eqb_refl. reflexivity.
  - assert (N : QByteArray_eqb v0 h = false).
    { apply QByteArray_eqb_false. apply (F (k0, v0)). left. reflexivity. }
    assert (R : filter (fun e => QByteArray_eqb (snd e) h) m = []).
    { clear IH. induction m as [|e m IHm]; [reflexivity|]. simpl.
      assert (Q : QByteArray_eqb (snd e) h = false).
      { apply QByteArray_eqb_false. apply F. right. left. reflexivity. }
      rewrite Q. apply IHm. intros e' [I|I]; apply F; [left | right; right];
        assumption. }
    destruct (rat_lt t k0) eqn:L1; simpl.
    + rewrite QByteArray_eqb_refl, N, R. reflexivity.
    + destruct (rat_lt k0 t) eqn:L2; simpl.
      * rewrite N. apply IH. intros e I. apply F. right. exact I.
      * rewrite QByteArray_eqb_refl, R. reflexivity.
Qed.

(** X9. Recording a completion and taking its hash back is a round trip:
    when the time was not indexed and no entry had the hash [h], an accepted
    [SetHash(t, h)] followed by [TakeFramesWithHash(h)] returns exactly [t],
    gives back the cache as it was, and invalidates and signals the one
    interval that [SetHash] had validated. *)
Theorem SetHash_then_Take_round_trip (c : FrameHashCache) (t : rational)
    (h : QByteArray) (jt : Z) :
  QMap_find (time_hash_map_ c) t = None ->
  GetFramesWithHash c h = [] ->
  snd (SetHash c t h jt) <> [] ->
  TakeFramesWithHash (fst (SetHash c t h jt)) h
  = (c,
     [MapErase t; NoLockInvalidate (sample_range (timebase_ c) t); Unlock;
      EmitInvalidated (sample_range (timebase_ c) t)],
     [t]).
Proof.
  intros F G A.
  assert (S : SetHash_scan (jobs_ c) (List.length (jobs_ c)) t jt = true).
  { rewrite SetHash_result in A.
    destruct (SetHash_scan (jobs_ c) (List.length (jobs_ c)) t jt);
      [reflexivity | exfalso; apply A; reflexivity]. }
  assert (Fresh : forall e, In e (time_hash_map_ c) -> snd e <> h).
  { intros [k v] I E. simpl in E. subst v.
    unfold GetFramesWithHash in G. rewrite GetFramesWithHash_loop_filter in G.
    assert (J : In k (QMap_keys (filter (fun e => QByteArray_eqb (snd e) h)
                                        (time_hash_map_ c)))).
    { unfold QMap_keys. apply in_map_iff. exists (k, h). split; [reflexivity|].
      apply filter_In. split; [assumption | apply QByteArray_eqb_refl]. }
    rewrite G in J. exact J. }
  rewrite SetHash_result, S. cbn [fst]. unfold TakeFramesWithHash.
  unfold set_time_hash_map at 1 2. cbn [time_hash_map_ jobs_ timebase_].
  pose proof (TakeFramesWithHash_loop_map h (QMap_insert (time_hash_map_ c) t h)) as M.
  pose proof (TakeFramesWithHash_loop_times h (QMap_insert (time_hash_map_ c) t h)) as T.
  pose proof (TakeFramesWithHash_loop_trace h (QMap_insert (time_hash_map_ c) t h)) as R.
  destruct (TakeFramesWithHash_loop h (QMap_insert (time_hash_map_ c) t h))
    as [[m' times] tr].
  cbn [fst snd] in M, T, R.
  rewrite (@filter_insert_fresh h (time_hash_map_ c) t Fresh) in T. simpl in T. subst times tr.
  rewrite (@filter_insert_absent h (time_hash_map_ c) t F) in M.
  rewrite filter_none in M.
  - subst m'. unfold set_time_hash_map. cbn [time_hash_map_ jobs_ timebase_].
    destruct c; reflexivity.
  - intros e I. apply negb_true_iff, QByteArray_eqb_false, Fresh, I.
Qed.

Lemma SetHash_then_Take_round_trip_witness :
  snd (TakeFramesWithHash (fst (SetHash cache_example (rat_of_Z 2) h_b 5)) h_b)
  = [rat_of_Z 2].
Proof.
  rewrite (@SetHash_then_Take_round_trip cache_example (rat_of_Z 2) h_b 5);
    [reflexivity | reflexivity | reflexivity | discriminate].
Defined.

(** * Further properties of the edit events *)

Lemma filter_filter {A : Type} (p q : A -> bool) (l : list A) :
  filter q (filter p l) = filter (fun x => p x && q x) l.
Proof.
  induction l as [|x l IH]; simpl; [reflexivity|].
  destruct (p x); simpl; [destruct (q x)|]; congruence.
Qed.

(** X10. Two shrinks in a row: when the second new length is not above the
    first, the index is the one that the second shrink alone would have left;
    in particular a shrink done twice changes nothing the second time. *)
Theorem LengthChangedEvent_twice (old1 new1 old2 new2 : rational) (m : QMap) :
  (new1 < old1)%Qc -> (new2 < old2)%Qc -> (new2 <= new1)%Qc ->
  fst (LengthChangedEvent old2 new2 (fst (LengthChangedEvent old1 new1 m)))
  = fst (LengthChangedEvent old2 new2 m)
  /\ LengthChangedEvent old1 new1 (fst (LengthChangedEvent old1 new1 m))
     = (fst (LengthChangedEvent old1 new1 m), []).
Proof.
  intros L1 L2 L. unfold LengthChangedEvent.
  pose proof L1 as B1. pose proof L2 as B2.
  apply rat_lt_spec in B1. apply rat_lt_spec in B2. rewrite B1, B2.
  rewrite !LengthChangedEvent_loop_filter. split.
  - rewrite filter_filter. apply filter_ext. intros [k v]. simpl.
    destruct (rat_lt k new2) eqn:A; [|apply andb_false_r].
    rewrite andb_true_r. rat_bools. apply rat_lt_spec.
    eapply Qclt_le_trans; eassumption.
  - apply injective_projections; cbn [fst snd].
    + rewrite LengthChangedEvent_loop_filter, filter_filter.
      apply filter_ext. intros [k v]. simpl. apply andb_diag.
    + rewrite LengthChangedEvent_loop_trace.
      replace (filter (fun k => rat_ge k new1)
                 (QMap_keys (filter (fun e => rat_lt (fst e) new1) m)))
        with (@nil rational); [reflexivity|].
      symmetry. unfold QMap_keys.
      induction m as [|[k v] m IH]; simpl; [reflexivity|].
      destruct (rat_lt k new1) eqn:A; simpl; [|exact IH].
      unfold rat_ge at 1. rewrite A. simpl. exact IH.
Qed.

Lemma LengthChangedEvent_twice_witness :
  fst (LengthChangedEvent (rat_of_Z 6) (rat_of_Z 3)
         (fst (LengthChangedEvent (rat_of_Z 10) (rat_of_Z 6) shift_example)))
  = fst (LengthChangedEvent (rat_of_Z 6) (rat_of_Z 3) shift_example).
Proof.
  apply (@LengthChangedEvent_twice (rat_of_Z 10) (rat_of_Z 6) (rat_of_Z 6)
           (rat_of_Z 3) shift_example); [reflexivity | reflexivity | discriminate].
Defined.

(** X11. [InvalidateEvent] with a range that ends at or before its start
    does nothing at all: no entry is erased. *)
Theorem InvalidateEvent_empty_range (r : TimeRange) (m : QMap) :
  (out_ r <= in_ r)%Qc -> InvalidateEvent r m = (m, []).
Proof.
  intros E. induction m as [|[k v] m IH]; simpl; [reflexivity|].
  rewrite IH.
  destruct (rat_ge k (in_ r) && rat_lt k (out_ r)) eqn:C; [|reflexivity].
  exfalso. apply andb_true_iff in C. destruct C as [C1 C2]. rat_bools.
  apply (@Qclt_irrefl k).
  eapply Qclt_le_trans; [exact C2|]. eapply Qcle_trans; eassumption.
Qed.

Lemma InvalidateEvent_empty_range_witness :
  InvalidateEvent (mkTimeRange (rat_of_Z 5) (rat_of_Z 5)) shift_example
  = (shift_example, []).
Proof.
  apply InvalidateEvent_empty_range. discriminate.
Defined.

(** X12. Invalidations can be done in either order, and one done twice
    erases nothing the second time. *)
Theorem InvalidateEvent_commutes (r1 r2 : TimeRange) (m : QMap) :
  fst (InvalidateEvent r1 (fst (InvalidateEvent r2 m)))
  = fst (InvalidateEvent r2 (fst (InvalidateEvent r1 m)))
  /\ InvalidateEvent r1 (fst (InvalidateEvent r1 m))
     = (fst (InvalidateEvent r1 m), []).
Proof.
  split.
  - rewrite !InvalidateEvent_filter, !filter_filter.
    apply filter_ext. intros e. apply andb_comm.
  - apply injective_projections; cbn [fst snd].
    + rewrite !InvalidateEvent_filter, filter_filter.
      apply filter_ext. intros e. apply andb_diag.
    + rewrite InvalidateEvent_trace, InvalidateEvent_filter.
      replace (filter (Contains r1)
                 (QMap_keys (filter (fun e => negb (Contains r1 (fst e))) m)))
        with (@nil rational); [reflexivity|].
      symmetry. unfold QMap_keys.
      induction m as [|[k v] m IH]; simpl; [reflexivity|].
      destruct (Contains r1 k) eqn:A; simpl; [exact IH|].
      rewrite A. exact IH.
Qed.

(** X13. A shrink is an invalidation from the new length on: when every
    key of the index is below [bound], [LengthChangedEvent(old, newlen)] with
    [newlen < old] and [InvalidateEvent([newlen, bound))] leave the same index
    and erase the same keys in the same order. *)
Theorem LengthChangedEvent_as_InvalidateEvent (old newlen bound : rational) (m : QMap) :
  (newlen < old)%Qc ->
  Forall (fun k => (k < bound)%Qc) (QMap_keys m) ->
  LengthChangedEvent old newlen m = InvalidateEvent (mkTimeRange newlen bound) m.
Proof.
  intros L B. unfold LengthChangedEvent.
  apply rat_lt_spec in L. rewrite L. clear L.
  induction m as [|[k v] m IH]; simpl; [reflexivity|].
  simpl in B. apply Forall_cons_iff in B. destruct B as [B1 B2].
  rewrite (IH B2).
  apply rat_lt_spec in B1. rewrite B1, andb_true_r. reflexivity.
Qed.

Lemma LengthChangedEvent_as_InvalidateEvent_witness :
  LengthChangedEvent (rat_of_Z 10) (rat_of_Z 4) shift_example
  = InvalidateEvent (mkTimeRange (rat_of_Z 4) (rat_of_Z 8)) shift_example.
Proof.
  apply LengthChangedEvent_as_InvalidateEvent; [reflexivity|].
  unfold shift_example. simpl. repeat (constructor; [reflexivity|]). constructor.
Defined.

(** * Further properties of [ShiftEvent] *)

Ltac rat_cases :=
  repeat match goal with
  | |- context [rat_ge ?a ?b] =>
      let E := fresh "E" in destruct (rat_ge a b) eqn:E
  | |- context [rat_lt ?a ?b] =>
      let E := fresh "E" in destruct (rat_lt a b) eqn:E
  | |- context [rat_eq ?a ?b] =>
      let E := fresh "E" in destruct (rat_eq a b) eqn:E
  end;
  rat_bools.

Ltac rat_absurd := exfalso; qc_to_q; lra.

Lemma QMap_find_congr (m : QMap) (k k' : rational) :
  k = k' -> QMap_find m k = QMap_find m k'.
Proof. intros ->. reflexivity. Qed.

(** X14. A forward shift (from <= to) loses nothing: it moves every key at
    or after [from] by [to - from] and leaves the entries, their order and
    their hashes as they are. *)
Theorem ShiftEvent_forward_relabels (from to : rational) (m : QMap) :
  QMap_ok m -> (from <= to)%Qc ->
  fst (ShiftEvent from to m)
  = map (fun e => (shifted_key from to (fst e), snd e)) m
  /\ List.length (fst (ShiftEvent from to m)) = List.length m.
Proof.
  intros O L.
  assert (E : fst (ShiftEvent from to m)
              = map (fun e => (shifted_key from to (fst e), snd e)) m).
  { apply QMap_ext.
    - apply ShiftEvent_ok, O.
    - clear -O L. unfold QMap_ok, QMap_keys in *. rewrite map_map. simpl.
      induction m as [|[k0 v0] m IH]; simpl; [constructor|].
      simpl in O. apply StronglySorted_inv in O. destruct O as [O1 O2].
      constructor; [auto|].
      rewrite Forall_forall in *. intros x Hx.
      apply in_map_iff in Hx. destruct Hx as [[k1 v1] [<- I]]. simpl.
      assert (K : (k0 < k1)%Qc).
      { apply O2. change k1 with (fst (k1, v1)). apply in_map. exact I. }
      clear -K L. unfold shifted_key. rat_cases; qc_to_q; lra.
    - intros k. rewrite ShiftEvent_find by exact O.
      clear O. induction m as [|[k0 v0] m IH]; simpl.
      + destruct (rat_ge k to); [|destruct (rat_lt k from)]; reflexivity.
      + rewrite <- IH. clear IH. unfold shifted_key.
        destruct (rat_ge k to) eqn:A.
        * destruct (rat_eq k0 (k - (to - from))%Qc) eqn:B;
            destruct (rat_ge k0 from) eqn:C;
            match goal with
            | |- context [rat_eq ?a ?b] => destruct (rat_eq a b) eqn:D
            end; rat_bools; try reflexivity; rat_absurd.
        * destruct (rat_lt k from) eqn:A';
            destruct (rat_ge k0 from) eqn:C;
            repeat match goal with
            | |- context [rat_eq ?a ?b] =>
                let D := fresh "D" in destruct (rat_eq a b) eqn:D
            end; rat_bools; try reflexivity; try congruence; rat_absurd. }
  split; [exact E|]. rewrite E. apply length_map.
Qed.

Lemma ShiftEvent_forward_relabels_witness :
  List.length (fst (ShiftEvent (rat_of_Z 2) (rat_of_Z 5) shift_example)) = 5%nat.
Proof.
  apply (@ShiftEvent_forward_relabels (rat_of_Z 2) (rat_of_Z 5) shift_example
           shift_example_ok).
  discriminate.
Defined.

(** X15. A forward shift is undone by the shift back: shifting from [from]
    to a later [to] and then from [to] to [from] gives the index as it was. *)
Theorem ShiftEvent_forward_then_back (from to : rational) (m : QMap) :
  QMap_ok m -> (from <= to)%Qc ->
  fst (ShiftEvent to from (fst (ShiftEvent from to m))) = m.
Proof.
  intros O L. apply QMap_ext; [apply ShiftEvent_ok, ShiftEvent_ok, O | exact O |].
  intros k. rewrite ShiftEvent_find by (apply ShiftEvent_ok, O).
  destruct (rat_ge k from) eqn:A.
  - rewrite ShiftEvent_find by exact O.
    destruct (rat_ge (k - (from - to)) to) eqn:B.
    + apply QMap_find_congr. clear. qc_lra.
    + rat_bools. clear -A B. rat_absurd.
  - destruct (rat_lt k to) eqn:B.
    + rewrite ShiftEvent_find by exact O.
      destruct (rat_ge k to) eqn:C; [rat_bools; clear -B C; rat_absurd|].
      unfold rat_ge in A. apply negb_false_iff in A. rewrite A. reflexivity.
    + rat_bools. clear -A B L. rat_absurd.
Qed.

Lemma ShiftEvent_forward_then_back_witness :
  fst (ShiftEvent (rat_of_Z 5) (rat_of_Z 2)
         (fst (ShiftEvent (rat_of_Z 2) (rat_of_Z 5) shift_example)))
  = shift_example.
Proof.
  apply (@ShiftEvent_forward_then_back (rat_of_Z 2) (rat_of_Z 5) shift_example
           shift_example_ok).
  discriminate.
Defined.

(** X16. A shift back is not undone by the shift forward: shifting from
    [from] to an earlier [to] and then from [to] to [from] gives the index
    without the entries of [[to, from)], which is what
    [InvalidateEvent([to, from))] leaves. *)
Theorem ShiftEvent_back_then_forward (from to : rational) (m : QMap) :
  QMap_ok m -> (to < from)%Qc ->
  fst (ShiftEvent to from (fst (ShiftEvent from to m)))
  = fst (InvalidateEvent (mkTimeRange to from) m).
Proof.
  intros O L. apply QMap_ext;
    [apply ShiftEvent_ok, ShiftEvent_ok, O | apply InvalidateEvent_ok, O |].
  intros k. rewrite ShiftEvent_find by (apply ShiftEvent_ok, O).
  rewrite InvalidateEvent_filter.
  rewrite (QMap_find_filter (fun x => negb (Contains (mkTimeRange to from) x))).
  unfold Contains. cbn [in_ out_].
  destruct (rat_ge k from) eqn:A.
  - rewrite ShiftEvent_find by exact O.
    assert (B : rat_ge (k - (from - to)) to = true).
    { apply rat_ge_spec. rat_bools. clear -A. qc_lra. }
    rewrite B.
    assert (C : rat_lt k from = false).
    { unfold rat_ge in A. apply negb_true_iff in A. exact A. }
    rewrite C, andb_false_r. cbn [negb].
    apply QMap_find_congr. clear. qc_lra.
  - assert (C : rat_lt k from = true).
    { unfold rat_ge in A. apply negb_false_iff in A. exact A. }
    rewrite C, andb_true_r.
    destruct (rat_lt k to) eqn:B.
    + unfold rat_ge. rewrite B. cbn [negb].
      rewrite ShiftEvent_find by exact O.
      unfold rat_ge. rewrite B, C. reflexivity.
    + unfold rat_ge. rewrite B. reflexivity.
Qed.

Lemma ShiftEvent_back_then_forward_witness :
  fst (ShiftEvent (rat_of_Z 2) (rat_of_Z 5)
         (fst (ShiftEvent (rat_of_Z 5) (rat_of_Z 2) shift_example)))
  = fst (InvalidateEvent (mkTimeRange (rat_of_Z 2) (rat_of_Z 5)) shift_example).
Proof.
  apply (@ShiftEvent_back_then_forward (rat_of_Z 5) (rat_of_Z 2) shift_example
           shift_example_ok).
  reflexivity.
Defined.

(** X17. Forward shifts add up: a shift from [a] to [b] followed by a shift
    from [b] to [c], with [a <= b <= c], is the shift from [a] to [c]. *)
Theorem ShiftEvent_forward_compose (a b c : rational) (m : QMap) :
  QMap_ok m -> (a <= b)%Qc -> (b <= c)%Qc ->
  fst (ShiftEvent b c (fst (ShiftEvent a b m))) = fst (ShiftEvent a c m).
Proof.
  intros O L1 L2. apply QMap_ext;
    [apply ShiftEvent_ok, ShiftEvent_ok, O | apply ShiftEvent_ok, O |].
  intros k. rewrite ShiftEvent_find by (apply ShiftEvent_ok, O).
  rewrite (@ShiftEvent_find a c m k O).
  destruct (rat_ge k c) eqn:A.
  - rewrite ShiftEvent_find by exact O.
    assert (B : rat_ge (k - (c - b)) b = true).
    { apply rat_ge_spec. rat_bools. clear -A. qc_lra. }
    rewrite B. apply QMap_find_congr. clear. qc_lra.
  - destruct (rat_lt k b) eqn:B.
    + rewrite ShiftEvent_find by exact O.
      unfold rat_ge. rewrite B. cbn [negb]. reflexivity.
    + destruct (rat_lt k a) eqn:C; [|reflexivity].
      rat_bools. clear -B C L1. rat_absurd.
Qed.

Lemma ShiftEvent_forward_compose_witness :
  fst (ShiftEvent (rat_of_Z 3) (rat_of_Z 5)
         (fst (ShiftEvent (rat_of_Z 2) (rat_of_Z 3) shift_example)))
  = fst (ShiftEvent (rat_of_Z 2) (rat_of_Z 5) shift_example).
Proof.
  apply (@ShiftEvent_forward_compose (rat_of_Z 2) (rat_of_Z 3) (rat_of_Z 5)
           shift_example shift_example_ok); discriminate.
Defined.

(** X18. A shift that starts after the last key, with a target after it as
    well, touches nothing: the index is the same and no entry is erased or
    inserted. *)
Theorem ShiftEvent_beyond_last_key (from to : rational) (m : QMap) :
  Forall (fun k => (k < from)%Qc /\ (k < to)%Qc) (QMap_keys m) ->
  ShiftEvent from to m = (m, []).
Proof.
  intros B. unfold ShiftEvent.
  assert (S : forall neg, ShiftEvent_scan neg from to (to - from) m = (m, [], [])).
  { intros neg. induction m as [|[k v] m IH]; simpl; [reflexivity|].
    simpl in B. apply Forall_cons_iff in B. destruct B as [[B1 B2] B3].
    rewrite (IH B3).
    apply rat_ge_false in B2. rewrite B2, andb_false_r. cbn [andb].
    apply rat_ge_false in B1. rewrite B1. reflexivity. }
  rewrite S. reflexivity.
Qed.

Lemma ShiftEvent_beyond_last_key_witness :
  ShiftEvent (rat_of_Z 9) (rat_of_Z 8) shift_example = (shift_example, []).
Proof.
  apply ShiftEvent_beyond_last_key.
  unfold shift_example. simpl.
  repeat (constructor; [split; reflexivity|]). constructor.
Defined.

(** * Further properties of the grid expansion *)

Lemma select_sample_next (t timebase : rational) :
  snd (select_sample t timebase) = (fst (select_sample t timebase) + timebase)%Qc.
Proof.
  unfold select_sample.
  destruct (rat_gt (snap_time_to_timebase t timebase) t); cbn [fst snd];
    [|reflexivity].
  generalize (snap_time_to_timebase t timebase). intros s. qc_lra.
Qed.

Lemma GetFrameListFromTimeRange_step (fuel : nat) (c : TimeRange)
    (l : TimeRangeList) (timebase : rational) :
  GetFrameListFromTimeRange (S fuel) (c :: l) timebase
  = option_map (cons (sample_of timebase (in_ c)))
      (GetFrameListFromTimeRange fuel
         (RemoveTimeRange (c :: l)
            (sample_range timebase (sample_of timebase (in_ c)))) timebase).
Proof.
  cbn [GetFrameListFromTimeRange]. unfold sample_of, sample_range.
  rewrite <- select_sample_next.
  destruct (select_sample (in_ c) timebase) as [snapped next]. cbn [fst snd].
  destruct (GetFrameListFromTimeRange fuel _ timebase); reflexivity.
Qed.

Lemma sample_of_spec (timebase t : rational) :
  (rat_of_Z 0 < timebase)%Qc ->
  on_grid timebase (sample_of timebase t)
  /\ in_range (sample_range timebase (sample_of timebase t)) t.
Proof.
  intros P. destruct (select_sample_spec P t) as [k [E [L1 L2]]].
  unfold sample_of. rewrite E. cbn [fst]. split; [exists k; reflexivity|].
  split; assumption.
Qed.

(** *** What the subtraction of a range keeps *)

Lemma TimeRange_subtract_covers (c remove : TimeRange) (x : rational) :
  in_range c x ->
  in_range remove x
  \/ exists c', In c' (TimeRange_subtract c remove) /\ in_range c' x.
Proof.
  intros [X1 X2]. unfold TimeRange_subtract.
  destruct (rat_ge (in_ c) (in_ remove) && rat_le (out_ c) (out_ remove)) eqn:C1.
  { left. apply andb_true_iff in C1. destruct C1 as [A1 A2]. rat_bools.
    split; [eapply Qcle_trans | eapply Qclt_le_trans]; eassumption. }
  destruct (rat_lt (in_ c) (in_ remove) && rat_lt (out_ remove) (out_ c)) eqn:C2.
  { destruct (rat_lt x (in_ remove)) eqn:A; rat_bools.
    - right. eexists. split; [left; reflexivity|]. split; assumption.
    - destruct (rat_lt x (out_ remove)) eqn:B; rat_bools.
      + left. split; assumption.
      + right. eexists. split; [right; left; reflexivity|]. split; assumption. }
  destruct (rat_lt (in_ c) (in_ remove) && rat_lt (in_ remove) (out_ c)) eqn:C3.
  { apply andb_true_iff in C3. destruct C3 as [A1 A2]. rewrite A1 in C2.
    cbn [andb] in C2.
    destruct (rat_lt x (in_ remove)) eqn:A; rat_bools.
    - right. eexists. split; [left; reflexivity|]. split; assumption.
    - left. split; [assumption|]. eapply Qclt_le_trans; eassumption. }
  destruct (rat_lt (in_ c) (out_ remove) && rat_lt (out_ remove) (out_ c)) eqn:C4.
  { apply andb_true_iff in C4. destruct C4 as [A1 A2]. rewrite A2 in C2.
    rewrite andb_true_r in C2.
    destruct (rat_lt x (out_ remove)) eqn:A; rat_bools.
    - left. split; [|assumption].
      eapply Qcle_trans; [exact C2 | exact X1].
    - right. eexists. split; [left; reflexivity|]. split; assumption. }
  right. exists c. split; [left; reflexivity|]. split; assumption.
Qed.

Lemma RemoveTimeRange_covers (l : TimeRangeList) (remove : TimeRange) (x : rational) :
  (exists c, In c l /\ in_range c x) ->
  in_range remove x
  \/ exists c', In c' (RemoveTimeRange l remove) /\ in_range c' x.
Proof.
  intros [c [I X]].
  destruct (TimeRange_subtract_covers remove X) as [H | [c' [I' X']]];
    [left; exact H|].
  right. exists c'. split; [|exact X'].
  unfold RemoveTimeRange. apply in_flat_map. exists c. split; assumption.
Qed.

(** The pieces left of a range that is not empty, after a cell is taken out:
    not empty, inside the range, clear of the cell, and clear of whatever the
    range was clear of. *)
Lemma TimeRange_subtract_pieces (c remove c' : TimeRange) :
  (in_ remove < out_ remove)%Qc ->
  In c' (TimeRange_subtract c remove) ->
  ((in_ c < out_ c)%Qc -> (in_ c' < out_ c')%Qc)
  /\ (forall x, in_range c' x -> in_range c x)
  /\ misses remove c'
  /\ (forall cell, misses cell c -> misses cell c').
Proof.
  intros R. unfold TimeRange_subtract.
  destruct (rat_ge (in_ c) (in_ remove) && rat_le (out_ c) (out_ remove)) eqn:C1;
    [intros []|].
  destruct (rat_lt (in_ c) (in_ remove) && rat_lt (out_ remove) (out_ c)) eqn:C2.
  { apply andb_true_iff in C2. destruct C2 as [A1 A2]. rat_bools.
    assert (M : (in_ remove < out_ c)%Qc) by (eapply Qclt_trans; eassumption).
    assert (M' : (in_ c < out_ remove)%Qc) by (eapply Qclt_trans; eassumption).
    intros [<- | [<- | []]]; cbn [in_ out_]; unfold misses, in_range; cbn [in_ out_].
    - split; [intros _; exact A1|]. split; [|split].
      + intros x [X1 X2]. split; [exact X1 | eapply Qclt_trans; eassumption].
      + split.
        * intros [H _]. exact (Qcle_not_lt _ _ H A1).
        * intros x [_ X2] [H _]. exact (Qcle_not_lt _ _ H X2).
      + intros cell [N1 N2]. split; [exact N1|].
        intros x [X1 X2]. apply N2.
        split; [exact X1 | eapply Qclt_trans; eassumption].
    - split; [intros _; exact A2|]. split; [|split].
      + intros x [X1 X2]. split; [|exact X2].
        eapply Qcle_trans; [apply Qclt_le_weak; exact M' | exact X1].
      + split.
        * intros [_ H]. exact (Qclt_irrefl H).
        * intros x [X1 _] [_ H]. exact (Qcle_not_lt _ _ X1 H).
      + intros cell [N1 N2]. split.
        * apply N2. split; [apply Qclt_le_weak; exact M' | exact A2].
        * intros x [X1 X2]. apply N2. split; [|exact X2].
          eapply Qcle_trans; [apply Qclt_le_weak; exact M' | exact X1]. }
  destruct (rat_lt (in_ c) (in_ remove) && rat_lt (in_ remove) (out_ c)) eqn:C3.
  { apply andb_true_iff in C3. destruct C3 as [A1 A2]. rat_bools.
    intros [<- | []]; cbn [in_ out_]; unfold misses, in_range; cbn [in_ out_].
    split; [intros _; exact A1|]. split; [|split].
    - intros x [X1 X2]. split; [exact X1 | eapply Qclt_trans; eassumption].
    - split.
      + intros [H _]. exact (Qcle_not_lt _ _ H A1).
      + intros x [_ X2] [H _]. exact (Qcle_not_lt _ _ H X2).
    - intros cell [N1 N2]. split; [exact N1|].
      intros x [X1 X2]. apply N2.
      split; [exact X1 | eapply Qclt_trans; eassumption]. }
  destruct (rat_lt (in_ c) (out_ remove) && rat_lt (out_ remove) (out_ c)) eqn:C4.
  { apply andb_true_iff in C4. destruct C4 as [A1 A2]. rat_bools.
    intros [<- | []]; cbn [in_ out_]; unfold misses, in_range; cbn [in_ out_].
    split; [intros _; exact A2|]. split; [|split].
    - intros x [X1 X2]. split; [|exact X2].
      eapply Qcle_trans; [apply Qclt_le_weak; exact A1 | exact X1].
    - split.
      + intros [_ H]. exact (Qclt_irrefl H).
      + intros x [X1 _] [_ H]. exact (Qcle_not_lt _ _ X1 H).
    - intros cell [N1 N2]. split.
      + apply N2. split; [apply Qclt_le_weak; exact A1 | exact A2].
      + intros x [X1 X2]. apply N2. split; [|exact X2].
        eapply Qcle_trans; [apply Qclt_le_weak; exact A1 | exact X1]. }
  intros [<- | []]. split; [tauto|]. split; [tauto|]. split; [|tauto].
  unfold misses, in_range.
  assert (S : ~ ((in_ remove <= in_ c)%Qc /\ (in_ c < out_ remove)%Qc)).
  { intros [H1 H2]. apply rat_ge_spec in H1. apply rat_lt_spec in H2.
    rewrite H1 in C1. rewrite H2 in C4. cbn [andb] in C1, C4.
    unfold rat_le in C1. rewrite C4 in C1. discriminate. }
  split; [exact S|].
  intros x [X1 X2] [Y1 Y2].
  destruct (rat_lt (in_ c) (in_ remove)) eqn:A.
  - cbn [andb] in C3. rat_bools.
    apply (Qcle_not_lt _ _ C3). eapply Qcle_lt_trans; eassumption.
  - rat_bools. apply S. split; [exact A|].
    eapply Qcle_lt_trans; eassumption.
Qed.

Lemma sample_range_proper (timebase s : rational) :
  (rat_of_Z 0 < timebase)%Qc ->
  (in_ (sample_range timebase s) < out_ (sample_range timebase s))%Qc.
Proof. unfold sample_range. cbn [in_ out_]. qc_lra. Qed.

(** A time lies in the cell of one grid instant only. *)
Lemma cell_unique (timebase s1 s2 x : rational) :
  (rat_of_Z 0 < timebase)%Qc ->
  on_grid timebase s1 -> on_grid timebase s2 ->
  in_range (sample_range timebase s1) x ->
  in_range (sample_range timebase s2) x ->
  s1 = s2.
Proof.
  intros P [k1 ->] [k2 ->] [A1 A2] [B1 B2].
  unfold sample_range in *. cbn [in_ out_] in *.
  assert (F : forall k, (grid_instant timebase k <= x)%Qc ->
                        (x < grid_instant timebase k + timebase)%Qc ->
                        Qfloor (grid_pos timebase x) = k).
  { intros k H1 H2.
    pose proof (@before_n timebase P k x H2) as U.
    apply (grid_pos_le P) in H1. rewrite (grid_pos_instant P) in H1.
    apply Qfloor_resp_le in H1. rewrite Qfloor_Z in H1. lia. }
  rewrite <- (F k1 A1 A2), <- (F k2 B1 B2). reflexivity.
Qed.

Lemma GetFrameListFromTimeRange_on_grid (timebase : rational) :
  (rat_of_Z 0 < timebase)%Qc ->
  forall fuel l times,
    GetFrameListFromTimeRange fuel l timebase = Some times ->
    Forall (on_grid timebase) times.
Proof.
  intros P. induction fuel as [|fuel IH]; intros [|c l] times R.
  - injection R as <-. constructor.
  - discriminate.
  - destruct fuel; injection R as <-; constructor.
  - rewrite GetFrameListFromTimeRange_step in R.
    destruct (GetFrameListFromTimeRange fuel _ timebase) as [times'|] eqn:R';
      [|discriminate].
    injection R as <-. constructor.
    + apply (sample_of_spec (in_ c) P).
    + eapply IH. exact R'.
Qed.

(** X19. With a timebase above zero every sample that the expansion gives
    is an instant of the grid, and no sample is given twice. *)
Theorem GetFrameListFromTimeRange_distinct_grid_samples (fuel : nat)
    (range_list : TimeRangeList) (timebase : rational) (times : list rational) :
  (rat_of_Z 0 < timebase)%Qc ->
  GetFrameListFromTimeRange fuel range_list timebase = Some times ->
  Forall (on_grid timebase) times /\ NoDup times.
Proof.
  intros P. revert range_list times.
  assert (Miss : forall fuel l times s,
    GetFrameListFromTimeRange fuel l timebase = Some times ->
    (forall c, In c l -> misses (sample_range timebase s) c) ->
    ~ In s times).
  { clear fuel. induction fuel as [|fuel IH]; intros [|c l] times s R M.
    - injection R as <-. intros [].
    - discriminate.
    - destruct fuel; injection R as <-; intros [].
    - rewrite GetFrameListFromTimeRange_step in R.
      destruct (GetFrameListFromTimeRange fuel _ timebase) as [times'|] eqn:R';
        [|discriminate].
      injection R as <-. intros [E | I].
      + destruct (sample_of_spec (in_ c) P) as [_ S]. rewrite E in S.
        apply (proj1 (M c (or_introl eq_refl))). exact S.
      + revert I. eapply IH; [exact R'|].
        intros c' I'. unfold RemoveTimeRange in I'. apply in_flat_map in I'.
        destruct I' as [c0 [I0 I1]].
        apply (proj2 (proj2 (proj2 (@TimeRange_subtract_pieces c0 _ _
                 (sample_range_proper _ P) I1)))).
        apply M. exact I0. }
  induction fuel as [|fuel IH]; intros [|c l] times R.
  - injection R as <-. split; constructor.
  - discriminate.
  - destruct fuel; injection R as <-; split; constructor.
  - rewrite GetFrameListFromTimeRange_step in R.
    destruct (GetFrameListFromTimeRange fuel _ timebase) as [times'|] eqn:R';
      [|discriminate].
    injection R as <-. destruct (IH _ _ R') as [G N].
    split; constructor; try assumption.
    + apply (sample_of_spec (in_ c) P).
    + eapply Miss; [exact R'|].
      intros c' I'. unfold RemoveTimeRange in I'. apply in_flat_map in I'.
      destruct I' as [c0 [I0 I1]].
      apply (proj1 (proj2 (proj2 (@TimeRange_subtract_pieces c0 _ _
               (sample_range_proper _ P) I1)))).
Qed.

Lemma GetFrameListFromTimeRange_distinct_grid_samples_witness :
  NoDup [rat_of_Z 0; rat_of_Z 1; rat_of_Z 2].
Proof.
  apply (@GetFrameListFromTimeRange_distinct_grid_samples 3
           [mkTimeRange (rat_of_Z 0) (rat_of_Z 3)] (rat_of_Z 1)
           [rat_of_Z 0; rat_of_Z 1; rat_of_Z 2] eq_refl).
  apply times_eqb_eq. vm_compute. reflexivity.
Defined.

(** What a result of the expansion holds, for an allowance of turns that
    gives one. *)
Lemma expansion_of_result (fuel : nat) (range_list : TimeRangeList)
    (timebase : rational) (times : list rational) :
  (rat_of_Z 0 < timebase)%Qc ->
  GetFrameListFromTimeRange fuel range_list timebase = Some times ->
  (forall c x, In c range_list -> in_range c x ->
     exists s, In s times /\ in_range (sample_range timebase s) x)
  /\ (Forall (fun c => (in_ c < out_ c)%Qc) range_list ->
      forall s, on_grid timebase s ->
        (In s times <->
         exists c x, In c range_list /\ in_range c x
                     /\ in_range (sample_range timebase s) x)).
Proof.
  intros P R.
  assert (Cover : forall fuel l times,
    GetFrameListFromTimeRange fuel l timebase = Some times ->
    forall c x, In c l -> in_range c x ->
      exists s, In s times /\ in_range (sample_range timebase s) x).
  { clear. induction fuel as [|fuel IH]; intros [|c0 l] times R c x I X;
      try contradiction; try discriminate.
    rewrite GetFrameListFromTimeRange_step in R.
    destruct (GetFrameListFromTimeRange fuel _ timebase) as [times'|] eqn:R';
      [|discriminate].
    injection R as <-.
    destruct (@RemoveTimeRange_covers (c0 :: l)
                (sample_range timebase (sample_of timebase (in_ c0))) x)
      as [H | [c' [I' X']]].
    - exists c. split; assumption.
    - exists (sample_of timebase (in_ c0)). split; [left; reflexivity | exact H].
    - destruct (IH _ _ R' c' x I' X') as [s [Is Xs]].
      exists s. split; [right; exact Is | exact Xs]. }
  assert (Sound : forall fuel l times,
    GetFrameListFromTimeRange fuel l timebase = Some times ->
    Forall (fun c => (in_ c < out_ c)%Qc) l ->
    forall s, In s times ->
      exists c x, In c l /\ in_range c x /\ in_range (sample_range timebase s) x).
  { clear fuel range_list times R Cover.
    induction fuel as [|fuel IH]; intros [|c0 l] times R NE s I.
    - injection R as <-. destruct I.
    - discriminate.
    - destruct fuel; injection R as <-; destruct I.
    - rewrite GetFrameListFromTimeRange_step in R.
      destruct (GetFrameListFromTimeRange fuel _ timebase) as [times'|] eqn:R';
        [|discriminate].
      injection R as <-. destruct I as [<- | I].
      + exists c0, (in_ c0). split; [left; reflexivity|]. split.
        * apply Forall_inv in NE. split; [apply Qcle_refl | exact NE].
        * apply (sample_of_spec (in_ c0) P).
      + assert (NE' : Forall (fun c => (in_ c < out_ c)%Qc)
                        (RemoveTimeRange (c0 :: l)
                           (sample_range timebase (sample_of timebase (in_ c0))))).
        { apply Forall_forall. intros c' I'.
          unfold RemoveTimeRange in I'. apply in_flat_map in I'.
          destruct I' as [c1 [I1 I2]].
          apply (proj1 (@TimeRange_subtract_pieces c1 _ _
                   (sample_range_proper _ P) I2)).
          rewrite Forall_forall in NE. apply NE. exact I1. }
        destruct (IH _ _ R' NE' s I) as [c' [x [I' [X' Xs]]]].
        unfold RemoveTimeRange in I'. apply in_flat_map in I'.
        destruct I' as [c1 [I1 I2]].
        exists c1, x. split; [exact I1|]. split; [|exact Xs].
        apply (proj1 (proj2 (@TimeRange_subtract_pieces c1 _ _
                 (sample_range_proper _ P) I2))).
        exact X'. }
  split; [apply (Cover fuel range_list times R)|].
  intros NE s G. split.
  - apply (Sound fuel range_list times R NE).
  - intros [c [x [I [X Xs]]]].
    destruct (Cover fuel range_list times R c x I X) as [s' [I' X']].
    replace s with s'; [exact I'|].
    apply (@cell_unique timebase s' s x P); try assumption.
    pose proof (@GetFrameListFromTimeRange_on_grid timebase P fuel range_list
                  times R) as F.
    rewrite Forall_forall in F. apply F. exact I'.
Qed.

(** X20. With a timebase above zero the expansion returns exactly the
    frames that the ranges overlap.  It returns a list of samples within the
    measure of the range list, the same for every larger allowance of turns,
    and no run gives another list.  Every time of every range lies in the
    cell [[s, s + timebase)] of a sample [s] returned, whatever the ranges;
    and when no range of the list is empty, an instant of the grid is
    returned if and only if its cell holds a time of one of the ranges. *)
Theorem GetFrameListFromTimeRange_exact (range_list : TimeRangeList)
    (timebase : rational) :
  (rat_of_Z 0 < timebase)%Qc ->
  exists times,
    (forall fuel, (expand_measure timebase range_list <= fuel)%nat ->
       GetFrameListFromTimeRange fuel range_list timebase = Some times)
    /\ (forall fuel times',
          GetFrameListFromTimeRange fuel range_list timebase = Some times' ->
          times' = times)
    /\ (forall c x, In c range_list -> in_range c x ->
          exists s, In s times /\ in_range (sample_range timebase s) x)
    /\ (Forall (fun c => (in_ c < out_ c)%Qc) range_list ->
        forall s, on_grid timebase s ->
          (In s times <->
           exists c x, In c range_list /\ in_range c x
                       /\ in_range (sample_range timebase s) x)).
Proof.
  intros P.
  destruct (@GetFrameListFromTimeRange_fuel timebase P
              (expand_measure timebase range_list) range_list (Nat.le_refl _))
    as [times [R _]].
  exists times. split; [|split].
  - intros fuel L. eapply GetFrameListFromTimeRange_more_fuel; eassumption.
  - intros fuel times' R'.
    pose proof (@GetFrameListFromTimeRange_more_fuel timebase _ range_list times
                  (Nat.max fuel (expand_measure timebase range_list)) R
                  (Nat.le_max_r _ _)) as A.
    pose proof (@GetFrameListFromTimeRange_more_fuel timebase _ range_list times'
                  (Nat.max fuel (expand_measure timebase range_list)) R'
                  (Nat.le_max_l _ _)) as B.
    congruence.
  - exact (@expansion_of_result _ range_list timebase times P R).
Qed.

Lemma GetFrameListFromTimeRange_exact_witness :
  exists times,
    GetFrameListFromTimeRange 10 [mkTimeRange (rat_of_Z 0) (rat_of_Z 3)] (rat_of_Z 1)
    = Some times
    /\ exists s, In s times /\ in_range (sample_range (rat_of_Z 1) s) (rat 5 2).
Proof.
  destruct (@GetFrameListFromTimeRange_exact
              [mkTimeRange (rat_of_Z 0) (rat_of_Z 3)] (rat_of_Z 1) eq_refl)
    as [times [R [_ [C _]]]].
  exists times. split.
  - apply R. vm_compute. lia.
  - apply (C (mkTimeRange (rat_of_Z 0) (rat_of_Z 3)) (rat 5 2)).
    + left. reflexivity.
    + split; [discriminate | reflexivity].
Defined.

(** *** Ranges that lie on the grid *)

Lemma grid_instant_succ (timebase : rational) (k : Z) :
  grid_instant timebase (k + 1) = (grid_instant timebase k + timebase)%Qc.
Proof.
  unfold grid_instant. qc_to_q.
  change ((k + 1) # 1)%Q with (inject_Z (k + 1)). rewrite inject_Z_plus.
  unfold inject_Z. ring.
Qed.

Lemma grid_instant_lt (timebase : rational) (a b : Z) :
  (rat_of_Z 0 < timebase)%Qc ->
  (a < b)%Z -> (grid_instant timebase a < grid_instant timebase b)%Qc.
Proof.
  intros P L. apply (grid_pos_lt P).
  rewrite !(grid_pos_instant P). rewrite <- Zlt_Qlt. exact L.
Qed.

Lemma sample_of_grid_instant (timebase : rational) (k : Z) :
  (rat_of_Z 0 < timebase)%Qc ->
  sample_of timebase (grid_instant timebase k) = grid_instant timebase k.
Proof.
  intros P. destruct (sample_of_spec (grid_instant timebase k) P) as [G S].
  apply (@cell_unique timebase _ _ (grid_instant timebase k) P);
    [exact G | exists k; reflexivity | exact S |].
  unfold sample_range, in_range. cbn [in_ out_].
  split; [apply Qcle_refl | clear -P; qc_lra].
Qed.

(** X21. A range from the grid instant number [a] to the instant number
    [a + n], with [n] at least one, expands to the [n] instants number [a],
    [a + 1], ..., [a + n - 1], in this order, in [n] turns. *)
Theorem GetFrameListFromTimeRange_aligned_range (timebase : rational) (n : nat) :
  (rat_of_Z 0 < timebase)%Qc ->
  forall (a : Z) (fuel : nat),
    (S n <= fuel)%nat ->
    GetFrameListFromTimeRange fuel
      [mkTimeRange (grid_instant timebase a)
                   (grid_instant timebase (a + Z.of_nat (S n)))] timebase
    = Some (map (fun i => grid_instant timebase (a + Z.of_nat i)) (seq 0 (S n))).
Proof.
  intros P. induction n as [|n IH]; intros a fuel L;
    (destruct fuel as [|fuel]; [lia|]);
    rewrite GetFrameListFromTimeRange_step; cbn [in_];
    rewrite (sample_of_grid_instant a P);
    unfold RemoveTimeRange, TimeRange_subtract, sample_range;
    cbn [flat_map in_ out_ app].
  - assert (C1 : rat_ge (grid_instant timebase a) (grid_instant timebase a)
                 && rat_le (grid_instant timebase (a + Z.of_nat 1))
                           (grid_instant timebase a + timebase)%Qc = true).
    { apply andb_true_iff. split; [apply rat_ge_spec, Qcle_refl|].
      apply rat_le_spec. change (Z.of_nat 1) with 1%Z.
      rewrite grid_instant_succ. apply Qcle_refl. }
    rewrite C1. cbn [GetFrameListFromTimeRange option_map seq map].
    destruct fuel; cbn [GetFrameListFromTimeRange option_map];
      rewrite Z.add_0_r; reflexivity.
  - assert (B : (grid_instant timebase a + timebase)%Qc
                = grid_instant timebase (a + 1))
      by (symmetry; apply grid_instant_succ).
    rewrite B.
    assert (Big : (grid_instant timebase (a + 1)
                   < grid_instant timebase (a + Z.of_nat (S (S n))))%Qc).
    { apply (grid_instant_lt P). lia. }
    assert (C1 : rat_le (grid_instant timebase (a + Z.of_nat (S (S n))))
                        (grid_instant timebase (a + 1)) = false).
    { unfold rat_le. apply negb_false_iff, rat_lt_spec. exact Big. }
    assert (I : rat_lt (grid_instant timebase a) (grid_instant timebase a) = false).
    { apply rat_lt_false, Qcle_refl. }
    assert (C4 : rat_lt (grid_instant timebase a) (grid_instant timebase (a + 1))
                 = true).
    { apply rat_lt_spec, (grid_instant_lt P). lia. }
    rewrite C1, andb_false_r, I. cbn [andb].
    rewrite C4. apply rat_lt_spec in Big. rewrite Big. cbn [andb].
    replace (a + Z.of_nat (S (S n)))%Z with (a + 1 + Z.of_nat (S n))%Z by lia.
    cbn [app]. rewrite (IH (a + 1)%Z fuel) by lia.
    cbn [option_map]. f_equal.
    change (seq 0 (S (S n))) with (0%nat :: seq 1 (S n)).
    cbn [map]. rewrite Z.add_0_r. f_equal.
    rewrite <- seq_shift, map_map. apply map_ext. intros i. f_equal. lia.
Qed.

Lemma GetFrameListFromTimeRange_aligned_range_witness :
  GetFrameListFromTimeRange 4
    [mkTimeRange (grid_instant (rat 1 2) 3) (grid_instant (rat 1 2) (3 + Z.of_nat 2))]
    (rat 1 2)
  = Some (map (fun i => grid_instant (rat 1 2) (3 + Z.of_nat i)) (seq 0 2)).
Proof.
  apply (@GetFrameListFromTimeRange_aligned_range (rat 1 2) 1 eq_refl 3 4). lia.
Defined.

(** X22. A range that is empty is not skipped: the expansion of a list
    that holds the one range [[t, t)] gives one sample, the grid instant at
    or before [t]. *)
Theorem GetFrameListFromTimeRange_empty_range (timebase t : rational) (fuel : nat) :
  (rat_of_Z 0 < timebase)%Qc ->
  GetFrameListFromTimeRange (S fuel) [mkTimeRange t t] timebase
  = Some [sample_of timebase t]
  /\ on_grid timebase (sample_of timebase t)
  /\ (sample_of timebase t <= t)%Qc.
Proof.
  intros P. destruct (sample_of_spec t P) as [G [S1 S2]].
  unfold sample_range in S1, S2. cbn [in_ out_] in S1, S2.
  split; [|split; assumption].
  rewrite GetFrameListFromTimeRange_step. cbn [in_].
  unfold RemoveTimeRange, TimeRange_subtract, sample_range.
  cbn [flat_map in_ out_ app].
  apply rat_ge_spec in S1. apply Qclt_le_weak, rat_le_spec in S2.
  rewrite S1, S2. cbn [andb]. destruct fuel; reflexivity.
Qed.

Lemma GetFrameListFromTimeRange_empty_range_witness :
  GetFrameListFromTimeRange 1 [mkTimeRange (rat 5 2) (rat 5 2)] (rat_of_Z 1)
  = Some [sample_of (rat_of_Z 1) (rat 5 2)].
Proof.
  apply (@GetFrameListFromTimeRange_empty_range (rat_of_Z 1) (rat 5 2) 0).
  reflexivity.
Defined.

(** * Further properties of the cache path *)

Lemma byte_toHex_digits (b : byte) :
  exists c1 c2, byte_toHex b = String c1 (String c2 EmptyString)
                /\ is_hex_digit c1 = true /\ is_hex_digit c2 = true.
Proof.
  exists (hex_digit (Byte.to_N b / 16)), (hex_digit (Byte.to_N b mod 16)).
  split; [reflexivity|]. destruct b; split; reflexivity.
Qed.

Lemma fromHex_byte_toHex (b : byte) :
  fromHex_byte (hex_digit (Byte.to_N b / 16)) (hex_digit (Byte.to_N b mod 16))
  = Some b.
Proof. destruct b; vm_compute; reflexivity. Qed.

Lemma byte_toHex_inj (b1 b2 : byte) : byte_toHex b1 = byte_toHex b2 -> b1 = b2.
Proof.
  unfold byte_toHex. intros E. injection E as E1 E2.
  pose proof (fromHex_byte_toHex b1) as K1.
  pose proof (fromHex_byte_toHex b2) as K2.
  rewrite E1, E2 in K1. congruence.
Qed.

Lemma string_app_inv_head (p s1 s2 : string) :
  (p ++ s1)%string = (p ++ s2)%string -> s1 = s2.
Proof.
  induction p as [|c p IH]; simpl; intros E; [exact E|].
  injection E as E. apply IH. exact E.
Qed.

Lemma toHex_prefix_inj (a1 a2 : QByteArray) (c1 c2 : ascii) (s1 s2 : string) :
  is_hex_digit c1 = false -> is_hex_digit c2 = false ->
  (toHex a1 ++ String c1 s1)%string = (toHex a2 ++ String c2 s2)%string ->
  a1 = a2 /\ String c1 s1 = String c2 s2.
Proof.
  intros N1 N2. revert a2.
  induction a1 as [|b1 a1 IH]; intros [|b2 a2] E; cbn [toHex] in E.
  - split; [reflexivity | exact E].
  - exfalso. destruct (byte_toHex_digits b2) as [d1 [d2 [S [H1 _]]]].
    rewrite S in E. simpl in E. injection E as E _. congruence.
  - exfalso. destruct (byte_toHex_digits b1) as [d1 [d2 [S [H1 _]]]].
    rewrite S in E. simpl in E. injection E as E _. congruence.
  - destruct (byte_toHex_digits b1) as [d1 [d2 [S1 _]]].
    destruct (byte_toHex_digits b2) as [e1 [e2 [S2 _]]].
    pose proof E as E'. rewrite S1, S2 in E'. simpl in E'.
    injection E' as D1 D2 E'.
    assert (B : b1 = b2).
    { apply byte_toHex_inj. rewrite S1, S2. congruence. }
    subst b2. destruct (IH a2 E') as [A T]. subst a2. split; [reflexivity | exact T].
Qed.

(** The directory prefix of the path, by the hash: the directory object made
    a second time may lose a second separator. *)
Lemma dir_prefix_QDir (q : string) :
  q <> EmptyString ->
  dir_prefix (QDir q) = dir_prefix q
  \/ dir_prefix q = (dir_prefix (QDir q) ++ "/")%string.
Proof.
  intros N. destruct (QDir_cases N) as [[E _] | [E N']].
  - left. rewrite E. reflexivity.
  - remember (QDir q) as q' eqn:Q. clear Q. subst q.
    rewrite (dir_prefix_slash N').
    destruct (ends_with_slash q') eqn:S.
    + right. unfold dir_prefix. destruct q'; [congruence|]. rewrite S. reflexivity.
    + left. apply dir_prefix_plain; assumption.
Qed.

Lemma CachePathName_suffix (cache_location : string) (h : QByteArray) (f : Format) :
  fst (CachePathName cache_location h f)
  = (dir_prefix (match h with
                 | [] => QDir (QDir cache_location)
                 | _ :: _ => QDir cache_location
                 end) ++ path_suffix h f)%string.
Proof.
  destruct h as [|b rest]; unfold path_suffix.
  - rewrite CachePathName_nil. reflexivity.
  - rewrite CachePathName_cons. reflexivity.
Qed.

Lemma path_suffix_nil_cons (p : string) (f1 f2 : Format) (b : byte) (r : QByteArray) :
  (p ++ path_suffix [] f1)%string = (p ++ path_suffix (b :: r) f2)%string -> False.
Proof.
  intros E. apply string_app_inv_head in E. unfold path_suffix in E.
  destruct (GetFormatExtension_dot f1) as [s1 E1]. rewrite E1 in E.
  change (String "."%char s1) with (toHex [] ++ String "."%char s1)%string in E.
  change ("/" ++ toHex r ++ GetFormatExtension f2)%string
    with (String "/"%char (toHex r ++ GetFormatExtension f2)) in E.
  apply toHex_prefix_inj in E; try reflexivity. destruct E as [E _]. discriminate.
Qed.

Lemma path_suffix_nil_slash (p : string) (f1 f2 : Format) (h : QByteArray) :
  (p ++ path_suffix [] f1)%string = ((p ++ "/") ++ path_suffix h f2)%string -> False.
Proof.
  rewrite string_app_assoc. intros E. apply string_app_inv_head in E.
  unfold path_suffix in E.
  destruct (GetFormatExtension_dot f1) as [s1 E1]. rewrite E1 in E.
  discriminate E.
Qed.

(** X23. The cache path tells the hash: two calls of [CachePathName] for
    the same cache location that give the same path have the same hash, and
    the same extension.  No two hashes share a file, whatever their
    lengths. *)
Theorem CachePathName_injective (cache_location : string) (h1 h2 : QByteArray)
    (f1 f2 : Format) :
  fst (CachePathName cache_location h1 f1) = fst (CachePathName cache_location h2 f2) ->
  h1 = h2 /\ GetFormatExtension f1 = GetFormatExtension f2.
Proof.
  rewrite !CachePathName_suffix. intros E.
  destruct (GetFormatExtension_dot f1) as [s1 E1].
  destruct (GetFormatExtension_dot f2) as [s2 E2].
  assert (Dot : is_hex_digit "."%char = false) by reflexivity.
  assert (Slash : is_hex_digit "/"%char = false) by reflexivity.
  destruct h1 as [|b1 r1]; destruct h2 as [|b2 r2].
  - apply string_app_inv_head in E. split; [reflexivity | exact E].
  - exfalso.
    destruct (dir_prefix_QDir (@QDir_nonempty cache_location)) as [P | P];
      rewrite P in E.
    + exact (path_suffix_nil_cons _ _ _ _ _ E).
    + exact (path_suffix_nil_slash _ _ _ _ E).
  - exfalso. symmetry in E.
    destruct (dir_prefix_QDir (@QDir_nonempty cache_location)) as [P | P];
      rewrite P in E.
    + exact (path_suffix_nil_cons _ _ _ _ _ E).
    + exact (path_suffix_nil_slash _ _ _ _ E).
  - apply string_app_inv_head in E. unfold path_suffix in E.
    change ("/" ++ toHex r1 ++ GetFormatExtension f1)%string
      with (String "/"%char (toHex r1 ++ GetFormatExtension f1)) in E.
    change ("/" ++ toHex r2 ++ GetFormatExtension f2)%string
      with (String "/"%char (toHex r2 ++ GetFormatExtension f2)) in E.
    apply toHex_prefix_inj in E; try assumption. destruct E as [B T].
    injection B as ->. injection T as T.
    rewrite E1, E2 in T. apply toHex_prefix_inj in T; try assumption.
    destruct T as [R X]. subst r2. split; [reflexivity|].
    rewrite E1, E2. exact X.
Qed.

Lemma CachePathName_injective_witness :
  ["171"%byte; "205"%byte] = ["171"%byte; "205"%byte]
  /\ GetFormatExtension PIX_FMT_RGBA16F = GetFormatExtension PIX_FMT_RGB32F.
Proof.
  apply (@CachePathName_injective "/cache" ["171"%byte; "205"%byte]
           ["171"%byte; "205"%byte] PIX_FMT_RGBA16F PIX_FMT_RGB32F).
  reflexivity.
Defined.

(** * Saving a frame *)

Lemma CachePathName_ends_with_extension (cache_location : string) (h : QByteArray)
    (f : Format) :
  exists p, fst (CachePathName cache_location h f)
            = (p ++ GetFormatExtension f)%string.
Proof.
  destruct h as [|b rest].
  - rewrite CachePathName_nil. eexists. reflexivity.
  - rewrite CachePathName_cons.
    exists (dir_prefix (QDir cache_location) ++ toHex [b] ++ "/" ++ toHex rest)%string.
    rewrite !string_app_assoc. reflexivity.
Qed.

Section SaveProperties.

Variable ChannelCount : Format -> Z.
Variable BytesPerChannel : Format -> Z.
Variable lib : ImageLibraries.

Let save := SaveCacheFrame ChannelCount BytesPerChannel lib.
Let save_file := SaveCacheFrame_file ChannelCount BytesPerChannel lib.

Lemma SaveCacheFrame_calls (cache_location : string) (h : QByteArray)
    (vparam : VideoParams) :
  let fn := fst (CachePathName cache_location h (format_ vparam)) in
  let dir := snd (CachePathName cache_location h (format_ vparam)) in
  save cache_location h vparam
  = match fst (save_file fn vparam) with
    | Returned true =>
        (Returned tt, mkpath dir :: snd (save_file fn vparam) ++ [CreatedFile fn h])
    | Returned false => (Returned tt, mkpath dir :: snd (save_file fn vparam))
    | Thrown => (Thrown, mkpath dir :: snd (save_file fn vparam))
    end.
Proof.
  unfold save, SaveCacheFrame, save_file.
  destruct (CachePathName cache_location h (format_ vparam)) as [fn dir].
  cbn [fst snd].
  destruct (SaveCacheFrame_file ChannelCount BytesPerChannel lib fn vparam)
    as [[[|]|] calls]; reflexivity.
Qed.

(** The three ways in which the write of a file ends. *)
Lemma save_file_cases (fn : string) (vparam : VideoParams) :
  (reports lib fn vparam = true
   /\ fst (save_file fn vparam) = Returned true
   /\ Forall (fun d => is_CreatedFile d = false) (snd (save_file fn vparam)))
  \/ (reports lib fn vparam = false
      /\ fst (save_file fn vparam) = Returned false
      /\ snd (save_file fn vparam) = [qCritical]
      /\ FormatIsFloat (format_ vparam) = false)
  \/ (reports lib fn vparam = false
      /\ fst (save_file fn vparam) = Thrown
      /\ Forall (fun d => is_CreatedFile d = false) (snd (save_file fn vparam))
      /\ FormatIsFloat (format_ vparam) = true
      /\ (OutputFile_returns lib fn = false \/ writePixels_returns lib fn = false)).
Proof.
  unfold save_file, SaveCacheFrame_file, reports.
  destruct (format_ vparam); cbn [FormatIsFloat FormatIsInteger andb orb];
    try (right; left; repeat split; reflexivity);
    try (destruct (ImageOutput_create lib fn);
         [left; repeat split; try reflexivity; repeat constructor
         | right; left; repeat split; reflexivity]);
    (destruct (OutputFile_returns lib fn);
     [destruct (writePixels_returns lib fn)|]; cbn [andb orb fst snd];
     [left; repeat split; try reflexivity; repeat constructor
     | right; right; repeat split; try reflexivity; repeat constructor; right; reflexivity
     | right; right; repeat split; try reflexivity; repeat constructor; left; reflexivity]).
Qed.

Lemma In_not_CreatedFile (calls : list DiskCall) (fn : string) (h : QByteArray) :
  Forall (fun d => is_CreatedFile d = false) calls -> ~ In (CreatedFile fn h) calls.
Proof.
  intros F I. rewrite Forall_forall in F. apply F in I. discriminate I.
Qed.

(** X24. [SaveCacheFrame] reports a file to the disk manager exactly when
    the write of the file has returned [true]; the file is then reported
    once, as the last call, under the path of [CachePathName] and with the
    hash given.  For a floating-point format this is exactly when the EXR
    file was opened and its pixels were written without an exception, which
    otherwise leaves [SaveCacheFrame] with nothing reported.  For an integer
    format it is exactly when an encoder was found: what [open],
    [write_image] and [close] return is not looked at, so that a file whose
    writing failed is reported all the same.  For any other format there is
    one diagnostic and no report. *)
Theorem SaveCacheFrame_reports_on_true (cache_location : string)
    (h : QByteArray) (vparam : VideoParams) :
  let run := save cache_location h vparam in
  let fn := fst (CachePathName cache_location h (format_ vparam)) in
  let dir := snd (CachePathName cache_location h (format_ vparam)) in
  (forall fn' h', In (CreatedFile fn' h') (snd run)
                  <-> fn' = fn /\ h' = h /\ fst (save_file fn vparam) = Returned true)
  /\ (fst (save_file fn vparam) = Returned true <-> reports lib fn vparam = true)
  /\ (reports lib fn vparam = true ->
      fst run = Returned tt
      /\ exists calls, snd run = mkpath dir :: calls ++ [CreatedFile fn h]
                       /\ Forall (fun d => is_CreatedFile d = false) calls)
  /\ (fst run = Thrown
      <-> FormatIsFloat (format_ vparam) = true
          /\ (OutputFile_returns lib fn = false \/ writePixels_returns lib fn = false))
  /\ (FormatIsInteger (format_ vparam) = true -> ImageOutput_create lib fn = true ->
      run = (Returned tt,
             [mkpath dir;
              ImageOutput_threads 1;
              ImageOutput_open fn (effective_width vparam) (effective_height vparam)
                (ChannelCount (format_ vparam)) (format_ vparam) (open_result lib fn);
              ImageOutput_write_image (format_ vparam) (write_image_result lib fn);
              ImageOutput_close (close_result lib fn);
              CreatedFile fn h]))
  /\ (FormatIsFloat (format_ vparam) = false -> FormatIsInteger (format_ vparam) = false ->
      run = (Returned tt, [mkpath dir; qCritical])).
Proof.
  intros run fn dir. subst run.
  pose proof (SaveCacheFrame_calls cache_location h vparam) as C.
  cbv zeta in C. fold fn dir in C. rewrite C. clear C.
  destruct (save_file_cases fn vparam)
    as [[R [O F]] | [[R [O [E NF]]] | [R [O [F [IF T]]]]]]; rewrite O, R;
    cbn [fst snd].
  - split; [|split; [|split; [|split; [|split]]]].
    + intros fn' h'. split.
      * intros [I | I]; [discriminate|]. apply in_app_or in I. destruct I as [I | I].
        -- exfalso. revert I. apply In_not_CreatedFile. exact F.
        -- destruct I as [I | []]. injection I as <- <-. repeat split.
      * intros [-> [-> _]]. right. apply in_or_app. right. left. reflexivity.
    + split; reflexivity.
    + intros _. split; [reflexivity|]. eexists. split; [reflexivity | exact F].
    + split; [discriminate|]. intros [IF T]. exfalso.
      unfold reports in R. rewrite IF in R. cbn [andb orb] in R.
      destruct T as [T | T]; rewrite T in R; cbn [andb orb] in R;
        rewrite ?andb_false_r in R; cbn [orb] in R;
        destruct (format_ vparam); discriminate.
    + intros I Cr. unfold save_file, SaveCacheFrame_file.
      destruct (format_ vparam); try discriminate I; rewrite Cr; reflexivity.
    + intros NF NI. exfalso. unfold reports in R. rewrite NF, NI in R. discriminate R.
  - rewrite E. split; [|split; [|split; [|split; [|split]]]].
    + intros fn' h'. split.
      * intros [I | [I | []]]; discriminate.
      * intros [_ [_ X]]. discriminate X.
    + split; discriminate.
    + discriminate.
    + split; [discriminate|]. intros [IF _]. congruence.
    + intros I Cr. exfalso. unfold reports in R. rewrite I, Cr, NF in R. discriminate R.
    + reflexivity.
  - split; [|split; [|split; [|split; [|split]]]].
    + intros fn' h'. split.
      * intros [I | I]; [discriminate|]. exfalso. revert I.
        apply In_not_CreatedFile. exact F.
      * intros [_ [_ X]]. discriminate X.
    + split; discriminate.
    + discriminate.
    + split; [intros _; split; assumption | reflexivity].
    + intros I. exfalso. destruct (format_ vparam); discriminate.
    + intros NF. congruence.
Qed.

(** X25. The container written agrees with the name of the file: the EXR
    writer is opened on a path that ends with [.exr] and is called for the
    floating-point formats only, with half samples for the 16-bit formats and
    full ones for the 32-bit formats, in the channels of the file and in the
    slices of the frame buffer alike; an encoder of OIIO is opened on a path
    that ends with [.jpg], is called for the integer formats only and is
    kept to one thread. *)
Theorem SaveCacheFrame_container_matches_name (cache_location : string)
    (h : QByteArray) (vparam : VideoParams) (d : DiskCall) :
  In d (snd (save cache_location h vparam)) ->
  match d with
  | OutputFile_new fn _ _ channels _ =>
      (exists p, fn = (p ++ ".exr")%string)
      /\ FormatIsFloat (format_ vparam) = true
      /\ map fst channels = ["R"; "G"; "B"; "A"]%string
      /\ (forall pt, In pt (map snd channels) ->
            pt = match format_ vparam with
                 | PIX_FMT_RGB16F | PIX_FMT_RGBA16F => HALF
                 | _ => FLOAT
                 end)
  | OutputFile_setFrameBuffer fb =>
      FormatIsFloat (format_ vparam) = true
      /\ map fst fb = ["R"; "G"; "B"; "A"]%string
      /\ (forall pt, In pt (map slice_type (map snd fb)) ->
            pt = match format_ vparam with
                 | PIX_FMT_RGB16F | PIX_FMT_RGBA16F => HALF
                 | _ => FLOAT
                 end)
  | OutputFile_writePixels n =>
      FormatIsFloat (format_ vparam) = true /\ n = effective_height vparam
  | ImageOutput_open fn _ _ _ _ _ =>
      (exists p, fn = (p ++ ".jpg")%string)
      /\ FormatIsInteger (format_ vparam) = true
  | ImageOutput_threads threads =>
      FormatIsInteger (format_ vparam) = true /\ threads = 1%Z
  | ImageOutput_write_image _ _ | ImageOutput_close _ =>
      FormatIsInteger (format_ vparam) = true
  | _ => True
  end.
Proof.
  pose proof (SaveCacheFrame_calls cache_location h vparam) as C.
  cbv zeta in C. rewrite C. clear C.
  destruct (CachePathName_ends_with_extension cache_location h (format_ vparam))
    as [p P].
  set (fn := fst (CachePathName cache_location h (format_ vparam))) in *.
  unfold save_file, SaveCacheFrame_file, framebuffer_of, pix_type_of.
  destruct (format_ vparam) eqn:F; cbn [fst snd app];
    try destruct (ImageOutput_create lib fn); cbn [fst snd app];
    try (destruct (OutputFile_returns lib fn);
         [destruct (writePixels_returns lib fn)|]; cbn [fst snd app]);
    intros I; repeat (destruct I as [<- | I]; [| ]); try contradiction; try exact I;
    repeat split; try (exists p; exact P); try reflexivity;
    intros pt J; cbn in J; intuition congruence.
Qed.

End SaveProperties.

Lemma SaveCacheFrame_reports_on_true_witness :
  In (CreatedFile "/cache/ab/cd.jpg" ["171"%byte; "205"%byte])
     (snd (SaveCacheFrame (fun _ => 4%Z) (fun _ => 1%Z)
             (mkImageLibraries (fun _ => true) (fun _ => false) (fun _ => false)
                (fun _ => true) (fun _ => true) (fun _ => true))
             "/cache" ["171"%byte; "205"%byte] (mkVideoParams PIX_FMT_RGBA8 16 9)))
  /\ In (ImageOutput_open "/cache/ab/cd.jpg" 16 9 4 PIX_FMT_RGBA8 false)
        (snd (SaveCacheFrame (fun _ => 4%Z) (fun _ => 1%Z)
                (mkImageLibraries (fun _ => true) (fun _ => false) (fun _ => false)
                   (fun _ => true) (fun _ => true) (fun _ => true))
                "/cache" ["171"%byte; "205"%byte] (mkVideoParams PIX_FMT_RGBA8 16 9))).
Proof.
  pose proof (@SaveCacheFrame_reports_on_true (fun _ => 4%Z) (fun _ => 1%Z)
                (mkImageLibraries (fun _ => true) (fun _ => false) (fun _ => false)
                   (fun _ => true) (fun _ => true) (fun _ => true))
                "/cache" ["171"%byte; "205"%byte] (mkVideoParams PIX_FMT_RGBA8 16 9)) as T.
  cbv zeta in T. destruct T as [T1 [_ [_ [_ [T5 _]]]]]. split.
  - apply T1. repeat split.
  - rewrite (T5 eq_refl eq_refl). right. right. left. reflexivity.
Defined.

Lemma SaveCacheFrame_container_matches_name_witness :
  exists p, "/cache/ab/cd.jpg"%string = (p ++ ".jpg")%string.
Proof.
  apply (@SaveCacheFrame_container_matches_name (fun _ => 4%Z) (fun _ => 2%Z)
           (mkImageLibraries (fun _ => true) (fun _ => true) (fun _ => true)
              (fun _ => true) (fun _ => true) (fun _ => true))
           "/cache" ["171"%byte; "205"%byte]
           (mkVideoParams PIX_FMT_RGBA8 16 9)
           (ImageOutput_open "/cache/ab/cd.jpg" 16 9 4 PIX_FMT_RGBA8 true)).
  right. right. left. reflexivity.
Defined.

(** *** The slices of the EXR frame buffer *)

Lemma int_wrap_small (z : Z) : (- 2 ^ 31 <= z <= INT_MAX)%Z -> int_wrap z = z.
Proof.
  unfold int_wrap, INT_MAX.
  change (2 ^ 31)%Z with 2147483648%Z. change (2 ^ 32)%Z with 4294967296%Z.
  intros B. rewrite Z.mod_small; lia.
Qed.

Lemma size_t_of_int_small (z : Z) : (0 <= z <= INT_MAX)%Z -> size_t_of_int z = z.
Proof.
  unfold size_t_of_int, INT_MAX. change (2 ^ 64)%Z with 18446744073709551616%Z.
  intros B. apply Z.mod_small. lia.
Qed.

Lemma sample_index_unique (w c1 x1 y1 c2 x2 y2 : Z) :
  (0 <= c1 < 4)%Z -> (0 <= x1 < w)%Z -> (0 <= c2 < 4)%Z -> (0 <= x2 < w)%Z ->
  (c1 + 4 * (x1 + w * y1) = c2 + 4 * (x2 + w * y2))%Z ->
  c1 = c2 /\ x1 = x2 /\ y1 = y2.
Proof.
  intros C1 X1 C2 X2 E.
  assert (c1 = c2) by lia. subst c2.
  assert (E' : (x1 + w * y1 = x2 + w * y2)%Z) by lia.
  assert (y1 = y2) by nia.
  subst y2. repeat split. lia.
Qed.

Section Slices.

Variable BytesPerChannel : Format -> Z.
Variable vparam : VideoParams.

Let bpc := BytesPerChannel (format_ vparam).
Let w := effective_width vparam.
Let h := effective_height vparam.
Let slices := map snd (framebuffer_of BytesPerChannel vparam).

Hypothesis is_float : FormatIsFloat (format_ vparam) = true.
Hypothesis bpc_pos : (0 < bpc)%Z.
Hypothesis w_pos : (0 <= w)%Z.
Hypothesis no_overflow : (w * kRGBAChannels * bpc <= INT_MAX)%Z.

Let channel_slice (c : Z) : Slice :=
  mkSlice (pix_type_of (format_ vparam)) (c * bpc) (4 * bpc) (w * 4 * bpc).

Lemma slices_are_channels :
  (0 < w)%Z -> slices = map channel_slice [0; 1; 2; 3]%Z.
Proof.
  intros W. unfold slices, framebuffer_of, channel_slice.
  cbn [map snd]. fold bpc. fold w. unfold kRGBAChannels in *. unfold int_mul.
  assert (B4 : (4 * bpc <= INT_MAX)%Z) by nia.
  unfold INT_MAX in *.
  rewrite (@int_wrap_small (4 * bpc)) by (unfold INT_MAX; lia).
  rewrite (@int_wrap_small (2 * bpc)) by (unfold INT_MAX; lia).
  rewrite (@int_wrap_small (3 * bpc)) by (unfold INT_MAX; lia).
  rewrite (@int_wrap_small (w * 4)) by (unfold INT_MAX; nia).
  rewrite (@int_wrap_small (w * 4 * bpc)) by (unfold INT_MAX; nia).
  rewrite (@size_t_of_int_small (4 * bpc)) by (unfold INT_MAX; lia).
  rewrite (@size_t_of_int_small (w * 4 * bpc)) by (unfold INT_MAX; nia).
  repeat f_equal; lia.
Qed.

Lemma channel_slice_address (c x y : Z) :
  Slice_address (channel_slice c) x y = (bpc * (c + 4 * (x + w * y)))%Z.
Proof.
  unfold Slice_address, channel_slice. cbn [slice_base xStride yStride]. ring.
Qed.

Lemma In_slices (s : Slice) :
  (0 < w)%Z ->
  (In s slices <-> exists c, (0 <= c < 4)%Z /\ s = channel_slice c).
Proof.
  intros W. rewrite (slices_are_channels W). cbn [map In]. split.
  - intros [<- | [<- | [<- | [<- | []]]]];
      [exists 0%Z | exists 1%Z | exists 2%Z | exists 3%Z]; split; try lia; reflexivity.
  - intros [c [C ->]].
    assert (D : (c = 0 \/ c = 1 \/ c = 2 \/ c = 3)%Z) by lia.
    destruct D as [-> | [-> | [-> | ->]]]; auto.
Qed.

(** X26. The four slices of the frame buffer handed to the EXR writer take
    the interleaved RGBA buffer apart exactly: every sample they address lies
    inside the buffer of [height] rows of [width * 4 * bpc] bytes, two samples
    that share a byte are the same sample of the same slice, and every byte of
    the buffer belongs to a sample.  These are the slices of every call of
    [setFrameBuffer], which is made once the EXR file is open. *)
Theorem EXR_slices_tile_the_buffer :
  (forall s x y, In s slices -> (0 <= x < w)%Z -> (0 <= y < h)%Z ->
     (0 <= Slice_address s x y)%Z
     /\ (Slice_address s x y + bpc <= h * (w * 4 * bpc))%Z)
  /\ (forall s1 x1 y1 s2 x2 y2,
        In s1 slices -> In s2 slices -> (0 <= x1 < w)%Z -> (0 <= x2 < w)%Z ->
        (Slice_address s1 x1 y1 < Slice_address s2 x2 y2 + bpc)%Z ->
        (Slice_address s2 x2 y2 < Slice_address s1 x1 y1 + bpc)%Z ->
        s1 = s2 /\ x1 = x2 /\ y1 = y2)
  /\ (forall o, (0 <= o < h * (w * 4 * bpc))%Z ->
        exists s x y, In s slices /\ (0 <= x < w)%Z /\ (0 <= y < h)%Z
                      /\ (Slice_address s x y <= o < Slice_address s x y + bpc)%Z)
  /\ (forall ChannelCount lib filename,
        framebuffer_slices
          (snd (SaveCacheFrame_file ChannelCount BytesPerChannel lib filename vparam))
        = if OutputFile_returns lib filename then slices else []).
Proof.
  split; [|split; [|split]].
  - intros s x y I X Y. assert (W : (0 < w)%Z) by lia.
    apply (In_slices s W) in I. destruct I as [c [C ->]].
    rewrite channel_slice_address. split; [nia|].
    assert (c + 4 * (x + w * y) + 1 <= 4 * (w * h))%Z by nia. nia.
  - intros s1 x1 y1 s2 x2 y2 I1 I2 X1 X2 L1 L2. assert (W : (0 < w)%Z) by lia.
    apply (In_slices s1 W) in I1. destruct I1 as [c1 [C1 ->]].
    apply (In_slices s2 W) in I2. destruct I2 as [c2 [C2 ->]].
    rewrite !channel_slice_address in L1, L2.
    assert (E : (c1 + 4 * (x1 + w * y1) = c2 + 4 * (x2 + w * y2))%Z) by nia.
    destruct (@sample_index_unique w c1 x1 y1 c2 x2 y2 C1 X1 C2 X2 E) as [-> [-> ->]].
    repeat split.
  - intros o O.
    assert (W : (0 < w)%Z).
    { destruct (Z.eq_dec w 0) as [Z0|]; [|lia]. rewrite Z0 in O. lia. }
    assert (R : (0 < w * 4 * bpc)%Z) by nia.
    assert (H : (0 < h)%Z) by nia.
    set (i := (o / bpc)%Z).
    assert (Oi : (bpc * i <= o < bpc * i + bpc)%Z).
    { pose proof (Z.div_mod o bpc ltac:(lia)) as D.
      pose proof (Z.mod_pos_bound o bpc bpc_pos) as M. fold i in D. lia. }
    assert (Ii : (0 <= i < 4 * (w * h))%Z) by nia.
    set (q := (i / 4)%Z).
    assert (Qi : (i = 4 * q + i mod 4)%Z) by (apply Z.div_mod; lia).
    pose proof (Z.mod_pos_bound i 4 ltac:(lia)) as M4.
    assert (Qq : (0 <= q < w * h)%Z) by lia.
    assert (Qx : (q = w * (q / w) + q mod w)%Z) by (apply Z.div_mod; lia).
    pose proof (Z.mod_pos_bound q w W) as Mw.
    exists (channel_slice (i mod 4)), (q mod w)%Z, (q / w)%Z.
    split; [apply (In_slices _ W); exists (i mod 4)%Z; split; [exact M4 | reflexivity]|].
    split; [exact Mw|]. split; [nia|].
    rewrite channel_slice_address.
    replace (i mod 4 + 4 * (q mod w + w * (q / w)))%Z with i by lia.
    exact Oi.
  - intros ChannelCount lib filename.
    unfold SaveCacheFrame_file, framebuffer_slices, slices.
    destruct (format_ vparam) eqn:F; try discriminate is_float;
      (destruct (OutputFile_returns lib filename);
       [destruct (writePixels_returns lib filename)|]);
      cbn [snd flat_map map app]; rewrite ?app_nil_r; reflexivity.
Qed.

End Slices.

Lemma EXR_slices_tile_the_buffer_witness :
  exists s x y,
    In s (framebuffer_slices
            (snd (SaveCacheFrame_file (fun _ => 4%Z) (fun _ => 2%Z)
                    (mkImageLibraries (fun _ => true) (fun _ => true) (fun _ => true)
                       (fun _ => true) (fun _ => true) (fun _ => true))
                    "f.exr" (mkVideoParams PIX_FMT_RGBA16F 16 9))))
    /\ (0 <= x < 16)%Z /\ (0 <= y < 9)%Z
    /\ (Slice_address s x y <= 1000 < Slice_address s x y + 2)%Z.
Proof.
  pose proof (@EXR_slices_tile_the_buffer (fun _ => 2%Z)
                (mkVideoParams PIX_FMT_RGBA16F 16 9) eq_refl eq_refl) as T.
  destruct T as [_ [_ [T3 T4]]]; [discriminate | discriminate |].
  rewrite (T4 (fun _ => 4%Z)
              (mkImageLibraries (fun _ => true) (fun _ => true) (fun _ => true)
                 (fun _ => true) (fun _ => true) (fun _ => true)) "f.exr"%string).
  apply (T3 1000%Z). split; [discriminate | reflexivity].
Defined.

(** * The footage combo box *)

Section Item_induction.

Variable P : Item -> Prop.
Hypothesis P_Folder :
  forall name children, Forall P children -> P (Folder name children).
Hypothesis P_Footage : forall name valid streams, P (Footage name valid streams).
Hypothesis P_Other : forall name, P (OtherItem name).

Fixpoint Item_induction (i : Item) : P i :=
  match i with
  | Folder name children =>
      P_Folder name
        ((fix all (l : list Item) : Forall P l :=
            match l with
            | [] => Forall_nil P
            | c :: l' => Forall_cons c (Item_induction c) (all l')
            end) children)
  | Footage name valid streams => P_Footage name valid streams
  | OtherItem name => P_Other name
  end.

End Item_induction.

Lemma flat_map_ext_Forall {A B : Type} (f g : A -> list B) (l : list A) :
  Forall (fun x => f x = g x) l -> flat_map f l = flat_map g l.
Proof.
  induction 1 as [|x l E _ IH]; simpl; [reflexivity|]. rewrite E, IH. reflexivity.
Qed.

Lemma TraverseFolder_child_actions (ready : bool) (i : Item) :
  flat_map menu_actions (TraverseFolder_child ready i)
  = map (fun s => (FootageToString s, s)) (item_streams ready i).
Proof.
  induction i as [name children IH | name valid streams | name] using Item_induction.
  - cbn [TraverseFolder_child item_streams flat_map menu_actions].
    rewrite app_nil_r.
    induction IH as [|c l E _ IHl]; simpl; [reflexivity|].
    rewrite flat_map_app, map_app, E, IHl. reflexivity.
  - cbn [TraverseFolder_child item_streams].
    destruct (valid || negb ready); [|reflexivity].
    cbn [flat_map menu_actions]. rewrite app_nil_r.
    induction streams as [|s l IHl]; simpl; [reflexivity|].
    rewrite IHl. reflexivity.
  - reflexivity.
Qed.

Lemma item_streams_valid (s : Stream) (i : Item) :
  In s (item_streams true i) <-> stream_of_valid_footage s i.
Proof.
  induction i as [name children IH | name valid streams | name] using Item_induction.
  - cbn [item_streams stream_of_valid_footage].
    induction IH as [|c l E _ IHl]; simpl; [tauto|].
    rewrite in_app_iff, E, IHl. tauto.
  - cbn [item_streams stream_of_valid_footage negb]. rewrite orb_false_r.
    destruct valid; simpl; intuition congruence.
  - simpl. tauto.
Qed.

Lemma item_streams_incl (i : Item) :
  incl (item_streams true i) (item_streams false i).
Proof.
  induction i as [name children IH | name valid streams | name] using Item_induction.
  - cbn [item_streams].
    induction IH as [|c l E _ IHl]; simpl; [apply incl_refl|].
    apply incl_app; [apply incl_appl; exact E | apply incl_appr; exact IHl].
  - cbn [item_streams negb]. rewrite orb_false_r, orb_true_r.
    destruct valid; [apply incl_refl | intros x []].
  - apply incl_refl.
Qed.

Lemma TraverseFolder_actions (ready : bool) (name : string) (children : list Item) :
  flat_map menu_actions (TraverseFolder ready (Folder name children))
  = map (fun s => (FootageToString s, s)) (item_streams ready (Folder name children)).
Proof.
  cbn [TraverseFolder item_streams].
  induction children as [|c l IH]; simpl; [reflexivity|].
  rewrite flat_map_app, map_app, TraverseFolder_child_actions, IH. reflexivity.
Qed.

(** X27. The menu that [TraverseFolder] builds offers, in the order of the
    project tree, one action for each stream of each footage shown, with the
    description of the stream as its text and the stream as its data.  When
    only ready footage is shown, the streams offered are exactly those of the
    valid footage of the tree, and they are among the streams offered
    otherwise. *)
Theorem TraverseFolder_offers_the_streams (ready : bool) (name : string)
    (children : list Item) :
  flat_map menu_actions (TraverseFolder ready (Folder name children))
  = map (fun s => (FootageToString s, s)) (item_streams ready (Folder name children))
  /\ (forall s, In s (item_streams true (Folder name children))
                <-> stream_of_valid_footage s (Folder name children))
  /\ incl (item_streams true (Folder name children))
          (item_streams false (Folder name children)).
Proof.
  split; [|split].
  - apply TraverseFolder_actions.
  - intros s. apply item_streams_valid.
  - apply item_streams_incl.
Qed.

(** *** The state of the widget *)

Lemma SetFootage_shows (w : FootageComboBox) (f : option Stream) :
  shows_selection (SetFootage w f).
Proof.
  unfold shows_selection, SetFootage, UpdateText. cbn [footage_ combo_items].
  destruct f as [f|]; [right; exists f; split; reflexivity | left; reflexivity].
Qed.

(** X28. Whatever calls are made on a new widget, the combo box holds at
    most one item, and an item it holds is the description of the footage
    selected.  The converse fails: [SetRoot] empties the combo box and keeps
    the footage selected. *)
Theorem FootageComboBox_shows_selection (calls : list FootageComboBox_call) :
  shows_selection (fold_left FootageComboBox_do calls FootageComboBox_new)
  /\ (forall w p, SelectedFootage (SetRoot w p) = SelectedFootage w
                  /\ combo_items (SetRoot w p) = []).
Proof.
  split; [|intros w p; split; reflexivity].
  assert (G : forall w, shows_selection w ->
                        shows_selection (fold_left FootageComboBox_do calls w)).
  { induction calls as [|c l IH]; intros w S; [exact S|].
    cbn [fold_left]. apply IH. destruct c as [p | f | e | exec]; cbn [FootageComboBox_do].
    - left. reflexivity.
    - apply SetFootage_shows.
    - exact S.
    - unfold showPopup. destruct (root_ w) as [root|]; [|exact S].
      destruct (Nat.eqb (item_child_count root) 0); [exact S|].
      destruct (exec _); [apply SetFootage_shows | exact S]. }
  apply G. left. reflexivity.
Qed.

(** X29. [showPopup] does nothing without a root or with a root that has
    no child.  When it emits [FootageChanged], the footage emitted is the one
    chosen in the menu; it is then the footage selected and its description
    is the item shown; and as the choice is one of the actions of the menu,
    it is a stream of a footage shown: a stream of a footage that is not valid
    cannot be selected while only ready footage is shown. *)
Theorem showPopup_selects_an_offered_stream
    (exec : list MenuEntry -> option Stream) (w : FootageComboBox) :
  (forall menu s, exec menu = Some s -> In s (map snd (flat_map menu_actions menu))) ->
  (root_ w = None -> showPopup exec w = (w, None))
  /\ (forall root, root_ w = Some root -> item_child_count root = O ->
        showPopup exec w = (w, None))
  /\ (forall w' emitted, showPopup exec w = (w', Some emitted) ->
        exists root s,
          root_ w = Some root
          /\ emitted = Some s
          /\ SelectedFootage w' = Some s
          /\ combo_items w' = [FootageToString s]
          /\ In s (item_streams (only_show_ready_footage_ w) root)
          /\ (only_show_ready_footage_ w = true -> stream_of_valid_footage s root)).
Proof.
  intros X. split; [|split].
  - intros E. unfold showPopup. rewrite E. reflexivity.
  - intros root E C. unfold showPopup. rewrite E, C. reflexivity.
  - intros w' emitted. unfold showPopup.
    destruct (root_ w) as [root|] eqn:R; [|discriminate].
    destruct (Nat.eqb (item_child_count root) 0) eqn:C; [discriminate|].
    destruct (exec (TraverseFolder (only_show_ready_footage_ w) root)) as [s|] eqn:E;
      [|discriminate].
    intros [= <- <-]. exists root, s.
    assert (I : In s (item_streams (only_show_ready_footage_ w) root)).
    { apply X in E. destruct root as [name children | |]; try discriminate C.
      rewrite TraverseFolder_actions in E.
      rewrite map_map in E. cbn [snd] in E. rewrite map_id in E. exact E. }
    repeat split; try reflexivity; try exact I.
    intros T. rewrite T in I. apply item_streams_valid. exact I.
Qed.

Lemma showPopup_selects_an_offered_stream_witness :
  let clip := mkStream "V1" 0 in
  let root := Folder "root" [Footage "clip" true [clip]] in
  let exec := fun menu => hd_error (map snd (flat_map menu_actions menu)) in
  let w := SetRoot FootageComboBox_new (Some root) in
  showPopup exec w = (SetFootage w (Some clip), Some (Some clip))
  /\ exists root' s,
       root_ w = Some root'
       /\ Some clip = Some s
       /\ SelectedFootage (SetFootage w (Some clip)) = Some s
       /\ combo_items (SetFootage w (Some clip)) = [FootageToString s]
       /\ In s (item_streams (only_show_ready_footage_ w) root')
       /\ (only_show_ready_footage_ w = true -> stream_of_valid_footage s root').
Proof.
  intros clip root exec w.
  assert (E : showPopup exec w = (SetFootage w (Some clip), Some (Some clip)))
    by reflexivity.
  split; [exact E|].
  assert (X : forall menu s, exec menu = Some s ->
                In s (map snd (flat_map menu_actions menu))).
  { intros menu s. unfold exec.
    destruct (map snd (flat_map menu_actions menu)); simpl;
      [discriminate | intros [= ->]; left; reflexivity]. }
  apply (proj2 (proj2 (@showPopup_selects_an_offered_stream exec w X))
           (SetFootage w (Some clip)) (Some clip) E).
Defined.
